(** * DiffusionReconstruct: the training script and the observation utilities

    A shallow embedding of [train.py] (the training loop of the
    diffusion-based field reconstruction model) and of the observation
    helpers of [utils/vt_utils.py].

    Tensors are nested lists indexed (batch, channel, row y, column x).
    Their entries are exact rationals ([Qc]): the arithmetic of the script
    is read over the rationals, rounding of the float32 entries is not
    modelled.  Python exceptions are values of [exn]; code that can raise
    lives in a small state-and-exception monad. *)

From Stdlib Require Import QArith Qcanon Ascii String.
From Stdlib Require Import DecimalFacts DecimalString DecimalNat.
From stdpp Require Import base numbers list strings sorting.

Open Scope Qc_scope.

(** ** Python effects: exceptions over a threaded state *)

Module Py.

Inductive exn : Type :=
| UnboundLocalError (name : string)
| IndexError
| ValueError
| ZeroDivisionError
| RuntimeError (msg : string)
| KeyboardInterrupt.

Inductive outcome (A : Type) : Type :=
| Val (a : A)
| Exc (e : exn).
Arguments Val {A} a.
Arguments Exc {A} e.

#[global] Instance exn_eq_dec : EqDecision exn.
Proof. solve_decision. Defined.

#[global] Instance outcome_eq_dec {A} `{EqDecision A} : EqDecision (outcome A).
Proof. solve_decision. Defined.

(** A computation over a state [S]: it ends with a value or with a raised
    exception, and in both cases with the state it reached. *)
Definition M (S A : Type) : Type := S → outcome A * S.

Definition ret {S A} (a : A) : M S A := λ s, (Val a, s).

Definition raise {S A} (e : exn) : M S A := λ s, (Exc e, s).

Definition bind {S A B} (m : M S A) (k : A → M S B) : M S B :=
  λ s, match m s with
       | (Val a, s') => k a s'
       | (Exc e, s') => (Exc e, s')
       end.

Definition get {S} : M S S := λ s, (Val s, s).

Definition put {S} (s : S) : M S unit := λ _, (Val tt, s).

Definition modify {S} (f : S → S) : M S unit := λ s, (Val tt, f s).

(** Lifting of a fallible pure step. *)
Definition lift {S A} (o : outcome A) : M S A := λ s, (o, s).

(** Reading a local name that may not have been assigned yet. *)
Definition read_local {S A} (name : string) (v : option A) : M S A :=
  match v with
  | Some a => ret a
  | None => raise (UnboundLocalError name)
  end.

End Py.

Notation "x ←ᵖ m ;; k" := (Py.bind m (λ x, k))
  (at level 100, m at next level, right associativity, only parsing).
Notation "m ;;ᵖ k" := (Py.bind m (λ _, k))
  (at level 100, right associativity, only parsing).

(** ** Tensors *)

Module Tensor.

Abbreviation tensor1 := (list Qc).
Abbreviation tensor2 := (list (list Qc)).
Abbreviation tensor3 := (list (list (list Qc))).
Abbreviation tensor4 := (list (list (list (list Qc)))).

(** [t[b, c, y, x]], when the four indices are in range. *)
Definition at4 (t : tensor4) (b c y x : nat) : option Qc :=
  t3 ← t !! b; t2 ← t3 !! c; t1 ← t2 !! y; t1 !! x.

Definition at2 (t : tensor2) (y x : nat) : option Qc :=
  t1 ← t !! y; t1 !! x.

(** Shape (B, C, H, W). *)
Definition has_shape4 (B C H W : nat) (t : tensor4) : Prop :=
  length t = B ∧
  Forall (λ t3 : tensor3, length t3 = C ∧
    Forall (λ t2 : tensor2, length t2 = H ∧
      Forall (λ t1 : tensor1, length t1 = W) t2) t3) t.

Definition map4 (f : Qc → Qc) (t : tensor4) : tensor4 :=
  fmap (M := list) (fmap (M := list) (fmap (M := list) (fmap (M := list) f))) t.

(** Elementwise combination of two tensors of one shape. *)
Definition zip4 (f : Qc → Qc → Qc) (s t : tensor4) : tensor4 :=
  zip_with (zip_with (zip_with (zip_with f))) s t.

(** The values of a list of results, or the first exception among
    them. *)
Fixpoint collect {A} (l : list (Py.outcome A)) : Py.outcome (list A) :=
  match l with
  | [] => Py.Val []
  | Py.Exc e :: _ => Py.Exc e
  | Py.Val a :: l' =>
      match collect l' with
      | Py.Exc e => Py.Exc e
      | Py.Val r => Py.Val (a :: r)
      end
  end.

(** One dimension of torch's broadcasting: a dimension of size one is
    stretched over the other operand's, two equal sizes are combined
    entry by entry, and any other pair of sizes raises.  A tensor is a
    nested list, so a dimension of size zero carries no sizes below
    it. *)
Definition bcast {A B C} (f : A → B → Py.outcome C)
    (xs : list A) (ys : list B) : Py.outcome (list C) :=
  match xs, ys with
  | [x], _ => collect (f x <$> ys)
  | _, [y] => collect ((λ x, f x y) <$> xs)
  | _, _ =>
      if decide (length xs = length ys) then collect (zip_with f xs ys)
      else Py.Exc (Py.RuntimeError
                     "The size of tensor a must match the size of tensor b")
  end.

(** An entrywise operation of torch on two tensors of rank 3, of rank 4. *)
Definition bcast3 (f : Qc → Qc → Qc) (s t : tensor3) : Py.outcome tensor3 :=
  bcast (bcast (bcast (λ a b, Py.Val (f a b)))) s t.

Definition bcast4 (f : Qc → Qc → Qc) (s t : tensor4) : Py.outcome tensor4 :=
  bcast (bcast3 f) s t.

(** [t.flatten()], row-major. *)
Definition flatten4 (t : tensor4) : list Qc := mjoin (mjoin (mjoin t)).

Fixpoint sum_Qc (l : list Qc) : Qc :=
  match l with
  | [] => 0
  | x :: l' => x + sum_Qc l'
  end.

(** [t.mean()]: the sum of all entries over their number. *)
Definition mean4 (t : tensor4) : Qc :=
  sum_Qc (flatten4 t) / Qc_of_Z (Z.of_nat (length (flatten4 t))).

(** [t[:, idx]] for a list of channel indices: raises when one is out of
    range. *)
Definition select_one {A} (l : list A) (i : nat) : Py.outcome A :=
  match l !! i with
  | Some a => Py.Val a
  | None => Py.Exc Py.IndexError
  end.

Fixpoint select_list {A} (l : list A) (idx : list nat) : Py.outcome (list A) :=
  match idx with
  | [] => Py.Val []
  | i :: idx' =>
      match select_one l i, select_list l idx' with
      | Py.Val a, Py.Val r => Py.Val (a :: r)
      | Py.Exc e, _ => Py.Exc e
      | _, Py.Exc e => Py.Exc e
      end
  end.

Fixpoint select_channels (t : tensor4) (idx : list nat) : Py.outcome tensor4 :=
  match t with
  | [] => Py.Val []
  | t3 :: t' =>
      match select_list t3 idx, select_channels t' idx with
      | Py.Val a, Py.Val r => Py.Val (a :: r)
      | Py.Exc e, _ => Py.Exc e
      | _, Py.Exc e => Py.Exc e
      end
  end.

(** The sizes (H, W) of a plane. *)
Definition plane_shape (p : tensor2) : nat * nat :=
  (length p, match p with [] => 0%nat | r :: _ => length r end).

(** The planes of two samples have the same sizes. *)
Definition same_planes (s3 t3 : tensor3) : Prop :=
  Forall (λ p, Forall (λ q, plane_shape p = plane_shape q) t3) s3.

#[global] Instance same_planes_dec (s3 t3 : tensor3) :
  Decision (same_planes s3 t3).
Proof. unfold same_planes. apply _. Defined.

(** [torch.concatenate((s, t), dim=1)]: the channels of [t] behind those
    of [s], sample by sample; the sizes of the two tensors must agree in
    every other dimension. *)
Definition cat_channels (s t : tensor4) : Py.outcome tensor4 :=
  if decide (Forall2 same_planes s t) then Py.Val (zip_with app s t)
  else Py.Exc (Py.RuntimeError
                 "Sizes of tensors must match except in dimension 1").

(** [t[:, :n]]. *)
Definition take_channels (n : nat) (t : tensor4) : tensor4 := take n <$> t.

(** A tensor written with integer entries. *)
Definition of_ints (t : list (list (list (list Z)))) : tensor4 :=
  fmap (M := list) (fmap (M := list) (fmap (M := list) (fmap (M := list) Qc_of_Z))) t.

(** [f] on every entry of a rank-3 block. *)
Definition map3 (f : Qc → Qc) (t : tensor3) : tensor3 :=
  fmap (M := list) (fmap (M := list) (fmap (M := list) f)) t.

Definition flatten3 (t : tensor3) : list Qc := mjoin (mjoin t).

End Tensor.

(** ** [utils/vt_utils.py]: grid points of a mask *)

Module GridPoints.
Import Tensor.

(** The mask argument is a tensor of rank 3 (C, H, W) or 4 (B, C, H, W). *)
Inductive mask_arg : Type :=
| Rank3 (m : tensor3)
| Rank4 (m : tensor4).

(** [mask.unsqueeze(0)] *)
Definition unsqueeze0 (m : tensor3) : tensor4 := [m].

(** [torch.nonzero(mask)]: the index of every entry that is not zero, in
    row-major order. *)
Definition nonzero1 (row : tensor1) : list nat :=
  mjoin (imap (λ x q, if decide (q = 0) then [] else [x]) row).

Definition nonzero2 (t : tensor2) : list (nat * nat) :=
  mjoin (imap (λ y row, (λ x, (y, x)) <$> nonzero1 row) t).

Definition nonzero3 (t : tensor3) : list (nat * nat * nat) :=
  mjoin (imap (λ c t2, (λ '(y, x), (c, y, x)) <$> nonzero2 t2) t).

Definition nonzero4 (t : tensor4) : list (nat * nat * nat * nat) :=
  mjoin (imap (λ b t3, (λ '(c, y, x), (b, c, y, x)) <$> nonzero3 t3) t).

(** [as_tuple=True]: one index vector per dimension. *)
Definition as_tuple (ix : list (nat * nat * nat * nat))
  : list nat * list nat * list nat * list nat :=
  ((λ '(b, _, _, _), b) <$> ix, (λ '(_, c, _, _), c) <$> ix,
   (λ '(_, _, y, _), y) <$> ix, (λ '(_, _, _, x), x) <$> ix).

(** [v == k], elementwise. *)
Definition eq_scalar (v : list nat) (k : nat) : list bool :=
  (λ i, bool_decide (i = k)) <$> v.

Definition logical_and (u v : list bool) : list bool := zip_with andb u v.

(** [v[target]] for a boolean index vector of the length of [v]. *)
Fixpoint bool_index {A} (v : list A) (target : list bool) : list A :=
  match v, target with
  | a :: v', t :: target' =>
      if t then a :: bool_index v' target' else bool_index v' target'
  | _, _ => []
  end.

(** [torch.column_stack((u, v))]: one row [(u_i, v_i)] per entry. *)
Definition column_stack (u v : list nat) : list (nat * nat) := zip u v.

Definition get_grid_points_from_mask (batch_idx channel_idx : nat)
    (mask : mask_arg) : list (nat * nat) :=
  let mask := match mask with
              | Rank3 m => unsqueeze0 m
              | Rank4 m => m
              end in
  let '(flatten_batch_idx, flatten_channel_idx, flatten_y_idx, flatten_x_idx) :=
    as_tuple (nonzero4 mask) in
  let target_idx := logical_and (eq_scalar flatten_batch_idx batch_idx)
                                (eq_scalar flatten_channel_idx channel_idx) in
  column_stack (bool_index flatten_x_idx target_idx)
               (bool_index flatten_y_idx target_idx).

(** The nonzero entries of one (H, W) plane, as (x, y) pairs in row-major
    order of the plane. *)
Definition plane_points (plane : tensor2) : list (nat * nat) :=
  (λ '(y, x), (x, y)) <$> nonzero2 plane.

(** The batch and channel components of an index row. *)
Definition key_b (ix : nat * nat * nat * nat) : nat := let '(b, _, _, _) := ix in b.
Definition key_c (ix : nat * nat * nat) : nat := let '(c, _, _) := ix in c.
Definition key_c4 (ix : nat * nat * nat * nat) : nat := let '(_, c, _, _) := ix in c.

End GridPoints.

(** ** [utils/vt_utils.py]: structured observation points, [vt_obs] *)

Module VtObs.

(** A random generator is a state that yields raw integers; [generator=None]
    stands for torch's default generator, threaded the same way. *)
Section Generator.
Variable G : Type.
Variable next_raw : G → Z * G.

(** [n] raw draws, in order. *)
Fixpoint draws (n : nat) (g : G) : list Z * G :=
  match n with
  | O => ([], g)
  | S n' =>
      let '(r, g1) := next_raw g in
      let '(rs, g2) := draws n' g1 in
      (r :: rs, g2)
  end.

(** Rows of length [cols] cut from a flat list. *)
Fixpoint reshape (rows cols : nat) (l : list Z) : list (list Z) :=
  match rows with
  | O => []
  | S rows' => take cols l :: reshape rows' cols (drop cols l)
  end.

(** [torch.randint(low, high, (rows, cols), generator=g)]: every entry is
    [low] plus a raw draw reduced modulo [high - low]; the call raises when
    the range is empty. *)
Definition randint (low high : Z) (rows cols : nat)
  : Py.M G (list (list Z)) :=
  λ g, if decide (low < high)%Z
       then let '(rs, g') := draws (rows * cols) g in
            (Py.Val (reshape rows cols ((λ r, low + r `mod` (high - low))%Z <$> rs)), g')
       else (Py.Exc (Py.RuntimeError "random_ expects 'from' to be less than 'to'"), g).

End Generator.

(** [torch.arange(start, stop, step)] on integers: [start], [start + step],
    ... short of [stop]; a zero step, or bounds that disagree with the sign
    of the step, raise. *)
Definition arange (start stop step : Z) : Py.outcome (list Z) :=
  if decide (step = 0)%Z then Py.Exc (Py.RuntimeError "step must be nonzero")
  else if decide ((0 < step ∧ stop < start) ∨ (step < 0 ∧ start < stop))%Z
  then Py.Exc (Py.RuntimeError "upper bound and lower bound inconsistent with step sign")
  else Py.Val ((λ k, start + k * step)%Z <$>
                 seqZ 0 ((stop - start + step - Z.sgn step) `div` step)).

(** [torch.meshgrid(xs, ys, indexing='ij')]: [fst[i][j] = xs[i]] and
    [snd[i][j] = ys[j]]. *)
Definition meshgrid_ij (xs ys : list Z) : list (list Z) * list (list Z) :=
  ((λ x, (λ _, x) <$> ys) <$> xs, (λ _, ys) <$> xs).

(** The fields of a [vt_obs] object that [structure_obs] reads (the
    floating-point plotting grids [grid_x], [grid_y] are left out). *)
Record vt_obs : Type := {
  x_dim : Z;
  y_dim : Z;
  x_spacing : Z;
  y_spacing : Z;
  x_list : list Z;
  y_list : list Z;
  x_start_grid : list (list Z);
  y_start_grid : list (list Z)
}.

(** [vt_obs.__init__] *)
Definition init (x_dim y_dim x_spacing y_spacing : Z) : Py.outcome vt_obs :=
  match arange 0 (x_dim - x_spacing + 1) x_spacing with
  | Py.Exc e => Py.Exc e
  | Py.Val x_list =>
      match arange 0 (y_dim - y_spacing + 1) y_spacing with
      | Py.Exc e => Py.Exc e
      | Py.Val y_list =>
          let '(x_start_grid, y_start_grid) := meshgrid_ij x_list y_list in
          Py.Val {| x_dim := x_dim; y_dim := y_dim;
                    x_spacing := x_spacing; y_spacing := y_spacing;
                    x_list := x_list; y_list := y_list;
                    x_start_grid := x_start_grid;
                    y_start_grid := y_start_grid |}
      end
  end.

(** The shape of a grid: its number of rows and the length of its first
    row. *)
Definition shape2 (t : list (list Z)) : nat * nat :=
  (length t, match t with [] => 0%nat | r :: _ => length r end).

Definition add2 (s t : list (list Z)) : list (list Z) :=
  zip_with (zip_with Z.add) s t.

Definition flatten2 (t : list (list Z)) : list Z := mjoin t.

(** [vt_obs.structure_obs] *)
Definition structure_obs {G} (next_raw : G → Z * G) (self : vt_obs)
  : Py.M G (list Z * list Z) :=
  x_offset ←ᵖ randint G next_raw 0 (x_spacing self)
                (shape2 (x_start_grid self)).1 (shape2 (x_start_grid self)).2 ;;
  y_offset ←ᵖ randint G next_raw 0 (y_spacing self)
                (shape2 (y_start_grid self)).1 (shape2 (y_start_grid self)).2 ;;
  let x_coords := flatten2 (add2 (x_start_grid self) x_offset) in
  let y_coords := flatten2 (add2 (y_start_grid self) y_offset) in
  Py.ret (x_coords, y_coords).

(** A small linear congruential generator, to run the definitions. *)
Definition lcg (g : Z) : Z * Z :=
  let g' := ((g * 1103515245 + 12345) `mod` 2147483648)%Z in (g' `div` 65536, g')%Z.

End VtObs.

(** ** [train.py]: checkpoint directories, retention and resume *)

Module Checkpoints.
Import Py.

(** [s.startswith(p)] *)
Definition startswith (p s : string) : bool := String.prefix p s.

(** [s.split(sep)] for a separator of one character. *)
Fixpoint split (sep : ascii) (s : string) : list string :=
  match s with
  | EmptyString => [EmptyString]
  | String ch rest =>
      if decide (ch = sep) then EmptyString :: split sep rest
      else match split sep rest with
           | w :: ws => String ch w :: ws
           | [] => [String ch EmptyString]
           end
  end.

(** Strings are sequences of characters with code points below 256.
    The white space that [int] drops around a numeral: the blanks 9 to 13
    and 32, and the code points 133 and 160. *)
Definition is_space (c : ascii) : bool :=
  let n := nat_of_ascii c in
  ((9 <=? n) && (n <=? 13) || (n =? 32) || (n =? 133) || (n =? 160))%nat.

Definition digit (c : ascii) : bool :=
  let n := nat_of_ascii c in ((48 <=? n) && (n <=? 57))%nat.

Fixpoint lstrip (l : list ascii) : list ascii :=
  match l with
  | c :: l' => if is_space c then lstrip l' else l
  | [] => []
  end.

Definition strip (l : list ascii) : list ascii :=
  reverse (lstrip (reverse (lstrip l))).

(** The digits of the body of a numeral: at least one digit, and single
    underscores between digits only; [prev_digit] tells whether the
    character before was a digit. *)
Fixpoint numeral (prev_digit : bool) (l : list ascii) : option (list ascii) :=
  match l with
  | [] => if prev_digit then Some [] else None
  | c :: l' =>
      if digit c then cons c <$> numeral true l'
      else if Ascii.eqb c "_" && prev_digit then numeral false l'
      else None
  end.

(** [int(s)] in base 10: white space around the numeral is dropped, a
    sign may come first, and the digits may hold single underscores
    between them; every other string raises [ValueError].  The limit on
    the number of digits ([sys.int_max_str_digits], 4300 by default) is
    not modelled. *)
Definition int (s : string) : outcome Z :=
  let body := strip (list_ascii_of_string s) in
  let '(negative, body) :=
    match body with
    | c :: rest => if Ascii.eqb c "-" then (true, rest)
                   else if Ascii.eqb c "+" then (false, rest)
                   else (false, body)
    | [] => (false, body)
    end in
  match numeral false body with
  | None => Exc ValueError
  | Some ds =>
      match NilZero.uint_of_string (string_of_list_ascii ds) with
      | Some d =>
          let n := Z.of_nat (Nat.of_uint d) in
          Val (if negative : bool then - n else n)%Z
      | None => Exc ValueError
      end
  end.

(** [str(n)], as the f-string formats a step counter. *)
Definition str (n : nat) : string := NilZero.string_of_uint (Nat.to_uint n).

(** The sort key [lambda x: int(x.split("-")[1])].  A piece of a split
    at "-" holds no "-", so the key is never negative and is kept as a
    natural number. *)
Definition step_key (x : string) : outcome nat :=
  match split "-" x !! 1%nat with
  | Some piece =>
      match int piece with
      | Val z => Val (Z.to_nat z)
      | Exc e => Exc e
      end
  | None => Exc IndexError
  end.

(** The step a well-formed checkpoint name carries (0 for any other). *)
Definition step_of (x : string) : nat :=
  match step_key x with
  | Val n => n
  | Exc _ => 0%nat
  end.

Fixpoint keyed (l : list string) : outcome (list (nat * string)) :=
  match l with
  | [] => Val []
  | x :: l' =>
      match step_key x with
      | Exc e => Exc e
      | Val k =>
          match keyed l' with
          | Exc e => Exc e
          | Val r => Val ((k, x) :: r)
          end
      end
  end.

(** Stable insertion by key: an entry goes in front of the first entry
    whose key is not smaller. *)
Fixpoint insert_by_key (x : nat * string) (l : list (nat * string))
  : list (nat * string) :=
  match l with
  | [] => [x]
  | y :: l' => if decide (x.1 ≤ y.1)%nat then x :: y :: l'
               else y :: insert_by_key x l'
  end.

Definition sort_by_key (l : list (nat * string)) : list (nat * string) :=
  foldr insert_by_key [] l.

(** [sorted(l, key=lambda x: int(x.split("-")[1]))]: every key is
    computed first (a malformed name raises), then the names are put in
    ascending order of their keys, equal keys keeping their order. *)
Definition sorted_by_step (l : list string) : outcome (list string) :=
  match keyed l with
  | Exc e => Exc e
  | Val kl => Val (snd <$> sort_by_key kl)
  end.

(** The output directory is the list of its entry names, in the order
    [os.listdir] reports them. *)
Abbreviation directory := (list string).

(** [[d for d in os.listdir(output_dir) if d.startswith("checkpoint")]] *)
Definition checkpoints_of (fs : directory) : list string :=
  filter (λ d, startswith "checkpoint" d = true) fs.

(** [shutil.rmtree(os.path.join(output_dir, name))] *)
Definition rmtree (name : string) (fs : directory) : directory :=
  filter (λ d, d ≠ name) fs.

(** [accelerator.save_state(os.path.join(output_dir, name))]: the
    directory is created unless it is there already. *)
Definition save_state (name : string) (fs : directory) : directory :=
  if decide (name ∈ fs) then fs else fs ++ [name].

Definition checkpoint_name (global_step : nat) : string :=
  "checkpoint-" +:+ str global_step.

(** The body of [if global_step % checkpointing_steps == 0:] on the main
    process: eviction under [--checkpoints_total_limit], then the save. *)
Definition save_checkpoint (checkpoints_total_limit : option Z)
    (global_step : nat) : M directory unit :=
  (match checkpoints_total_limit with
   | Some limit =>
       fs ←ᵖ get ;;
       checkpoints ←ᵖ lift (sorted_by_step (checkpoints_of fs)) ;;
       if decide (limit ≤ Z.of_nat (length checkpoints))%Z then
         let num_to_remove := (Z.of_nat (length checkpoints) - limit + 1)%Z in
         let removing_checkpoints := take (Z.to_nat num_to_remove) checkpoints in
         modify (λ fs, foldl (λ fs name, rmtree name fs) fs removing_checkpoints)
       else ret tt
   | None => ret tt
   end) ;;ᵖ
  modify (save_state (checkpoint_name global_step)).

(** Successive saves, one per listed step. *)
Fixpoint save_all (checkpoints_total_limit : option Z) (steps : list nat)
  : M directory unit :=
  match steps with
  | [] => ret tt
  | g :: steps' =>
      save_checkpoint checkpoints_total_limit g ;;ᵖ
      save_all checkpoints_total_limit steps'
  end.

(** [os.path.basename(p)]: what follows the last slash. *)
Definition basename (p : string) : string := default EmptyString (last (split "/" p)).

(** What the resume block of [main] leaves behind. *)
Record resumed : Type := {
  printed : list string;
  loaded : option string;
  resume_from_checkpoint : option string;
  global_step : nat;
  initial_global_step : nat;
  first_epoch : nat
}.

(** [accelerator.load_state(dir)] raises when the directory is missing. *)
Definition load_state (fs : directory) (path : string) : outcome unit :=
  if decide (path ∈ fs) then Val tt else Exc ValueError.

(** Python's [//] on step counters. *)
Definition floordiv (a b : nat) : outcome nat :=
  if decide (b = 0%nat) then Exc ZeroDivisionError else Val (a / b)%nat.

(** Lines 304-333 of [main]: "Potentially load in the weights and states
    from a previous save". *)
Definition resume (arg : option string) (fs : directory)
    (num_update_steps_per_epoch : nat) : outcome resumed :=
  let fresh msgs arg' := {| printed := msgs; loaded := None;
                            resume_from_checkpoint := arg'; global_step := 0;
                            initial_global_step := 0; first_epoch := 0 |} in
  match arg with
  | None => Val (fresh [] None)
  | Some "" => Val (fresh [] (Some ""))
  | Some a =>
      match (if decide (a ≠ "latest") then Val (Some (basename a))
             else match sorted_by_step (checkpoints_of fs) with
                  | Exc e => Exc e
                  | Val dirs => Val (last dirs)
                  end) with
      | Exc e => Exc e
      | Val None =>
          Val (fresh ["Checkpoint '" +:+ a +:+
                      "' does not exist. Starting a new training run."] None)
      | Val (Some path) =>
          match load_state fs path with
          | Exc e => Exc e
          | Val _ =>
              match step_key path with
              | Exc e => Exc e
              | Val g =>
                  match floordiv g num_update_steps_per_epoch with
                  | Exc e => Exc e
                  | Val fe =>
                      Val {| printed := ["Resuming from checkpoint " +:+ path];
                             loaded := Some path;
                             resume_from_checkpoint := Some a;
                             global_step := g;
                             initial_global_step := g;
                             first_epoch := fe |}
                  end
              end
          end
      end
  end.

(** A decimal digit. *)
Definition is_digit (c : ascii) : Prop :=
  (48 ≤ nat_of_ascii c ≤ 57)%nat.

(** Names whose sort key can be computed. *)
Definition well_formed (l : list string) : Prop :=
  ∀ d, d ∈ l → ∃ n, step_key d = Val n.

(** Ascending order of keys, and of the steps of names. *)
Definition key_le (a b : nat * string) : Prop := (a.1 ≤ b.1)%nat.
Definition step_le (a b : string) : Prop := (step_of a ≤ step_of b)%nat.

(** The number of checkpoints the eviction removes under a limit. *)
Definition evicted (limit : Z) (n : nat) : nat := (n + 1 - Z.to_nat limit)%nat.

End Checkpoints.

(** ** [train.py]: the epoch and step loops of [main] *)

Module TrainLoop.
Import Py.

(** [math.ceil(a / b)] on counters. *)
Definition ceil_div (a b : nat) : outcome nat :=
  if decide (b = 0%nat) then Exc ZeroDivisionError
  else Val ((a + b - 1) / b)%nat.

(** What the loops read of the configuration and of the data loader. *)
Record config : Type := {
  num_batches : nat;                    (* len(train_dataloader) *)
  gradient_accumulation_steps : nat;    (* accelerator.gradient_accumulation_steps *)
  num_training_steps : option nat;      (* general.num_training_steps, if present *)
  num_epochs : nat                      (* general.num_epochs *)
}.

(** Lines 238-266: the step budget and the number of epochs. *)
Record schedule : Type := {
  num_update_steps_per_epoch : nat;
  total_steps : nat;      (* general_config.num_training_steps after line 264 *)
  total_epochs : nat      (* general_config.num_epochs after line 266 *)
}.

Definition plan (cfg : config) : outcome schedule :=
  match ceil_div (num_batches cfg) (gradient_accumulation_steps cfg) with
  | Exc e => Exc e
  | Val per_epoch =>
      let total := match num_training_steps cfg with
                   | Some t => t
                   | None => (num_epochs cfg * per_epoch)%nat
                   end in
      match ceil_div total per_epoch with
      | Exc e => Exc e
      | Val epochs =>
          Val {| num_update_steps_per_epoch := per_epoch;
                 total_steps := total;
                 total_epochs := epochs |}
      end
  end.

(** One pass through the body of the inner loop: the batch was run through
    the network and [optimizer.step()] was called. *)
Record micro_step : Type := {
  at_epoch : nat;
  at_step : nat;
  global_step_before : nat;   (* the global step when the pass began *)
  synced : bool               (* accelerator.sync_gradients during the pass *)
}.

Record loop_state : Type := {
  global_step : nat;
  accumulated : nat;          (* the accelerator's own step counter *)
  executed : list micro_step  (* the passes run so far, oldest first *)
}.

(** [accelerator.accumulate]: gradients are synchronised on every
    [gradient_accumulation_steps]-th pass and on the last batch of the
    data loader, where the accelerator's counter is reset. *)
Definition do_sync (cfg : config) (step : nat) (st : loop_state)
  : bool * nat :=
  if decide (S step = num_batches cfg) then (true, 0%nat)
  else (bool_decide (S (accumulated st) `mod` gradient_accumulation_steps cfg = 0)%nat,
        S (accumulated st)).

(** The body of [for step, batch in enumerate(train_dataloader)] up to the
    check of line 468; the result says whether the loop breaks.  The pass
    itself (lines 348-409) is taken to complete, as it does under
    EDM-style training; checkpoints and logging do not touch the
    counters. *)
Definition pass (cfg : config) (budget epoch step : nat) (st : loop_state)
  : loop_state * bool :=
  let '(sync, acc) := do_sync cfg step st in
  let ran := {| at_epoch := epoch; at_step := step;
                global_step_before := global_step st; synced := sync |} in
  let g := if sync then S (global_step st) else global_step st in
  ({| global_step := g; accumulated := acc;
      executed := executed st ++ [ran] |},
   bool_decide (budget ≤ g)%nat).

(** The inner loop over the remaining batch indices. *)
Fixpoint inner (cfg : config) (budget epoch : nat) (steps : list nat)
    (st : loop_state) : loop_state :=
  match steps with
  | [] => st
  | step :: steps' =>
      let '(st', stop) := pass cfg budget epoch step st in
      if stop then st' else inner cfg budget epoch steps' st'
  end.

(** The outer loop: [for epoch in range(first_epoch, num_epochs)]. *)
Fixpoint outer (cfg : config) (budget : nat) (epochs : list nat)
    (st : loop_state) : loop_state :=
  match epochs with
  | [] => st
  | epoch :: epochs' =>
      outer cfg budget epochs'
        (inner cfg budget epoch (seq 0 (num_batches cfg)) st)
  end.

(** [range(a, b)] *)
Definition range (a b : nat) : list nat := seq a (b - a).

(** The training loop of [main], entered with the global step and the
    first epoch the resume block computed. *)
Definition train (cfg : config) (global_step0 first_epoch : nat)
  : outcome loop_state :=
  match plan cfg with
  | Exc e => Exc e
  | Val sch =>
      Val (outer cfg (total_steps sch) (range first_epoch (total_epochs sch))
             {| global_step := global_step0; accumulated := 0; executed := [] |})
  end.

(** The passes that began when the budget was already used up. *)
Definition over_budget (budget : nat) (st : loop_state) : list micro_step :=
  filter (λ m, budget ≤ global_step_before m)%nat (executed st).

(** Two batches per epoch, no accumulation, a budget of three steps:
    two epochs are planned. *)
Definition small_run : config :=
  {| num_batches := 2; gradient_accumulation_steps := 1;
     num_training_steps := Some 3%nat; num_epochs := 2 |}.

(** Every pass run so far began below the budget. *)
Definition within (budget : nat) (st : loop_state) : Prop :=
  Forall (λ m, global_step_before m < budget)%nat (executed st).

End TrainLoop.

(** ** [train.py]: evaluation under the EMA weights *)

Module EmaEval.
Import Py.

Section Evaluation.
(** Network parameters, optimizer state and learning-rate scheduler
    state are opaque. *)
Variables P O L : Type.
(** A sampled or ground-truth image grid. *)
Variable image : Type.

Record train_state : Type := {
  live : P;             (* unet.parameters() *)
  shadow : P;           (* ema_model.shadow_params *)
  stored : option P;    (* ema_model.temp_stored_params *)
  optimizer : O;
  lr_scheduler : L
}.

(** The EMA collaborator of diffusers: [store] keeps a copy of the live
    parameters, [copy_to] overwrites them with the shadow average,
    [restore] writes the kept copy back and drops it, and raises when
    nothing was stored. *)
Definition store (st : train_state) : train_state :=
  {| live := live st; shadow := shadow st; stored := Some (live st);
     optimizer := optimizer st; lr_scheduler := lr_scheduler st |}.

Definition copy_to (st : train_state) : train_state :=
  {| live := shadow st; shadow := shadow st; stored := stored st;
     optimizer := optimizer st; lr_scheduler := lr_scheduler st |}.

Definition restore : M train_state unit :=
  λ st, match stored st with
        | None => (Exc (RuntimeError "no stored weights to restore"), st)
        | Some p => (Val tt,
                     {| live := p; shadow := shadow st; stored := None;
                        optimizer := optimizer st;
                        lr_scheduler := lr_scheduler st |})
        end.

(** One [tracker.writer.add_image(tag, img, epoch)] call. *)
Record add_image : Type := { tag : string; img : image; img_step : nat }.

(** The logging loop of [evaluate]: for every channel, the sample and the
    ground truth under the name of the channel. *)
Fixpoint log_images (phase_name : string) (channel_names : list string)
    (epoch i : nat) (pairs : list (image * image)) : outcome (list add_image) :=
  match pairs with
  | [] => Val []
  | (sample, gt) :: pairs' =>
      match channel_names !! i with
      | None => Exc IndexError
      | Some name =>
          match log_images phase_name channel_names epoch (S i) pairs' with
          | Exc e => Exc e
          | Val r =>
              Val ({| tag := phase_name +:+ " sample " +:+ name;
                      img := sample; img_step := epoch |}
                   :: {| tag := phase_name +:+ " GT " +:+ name;
                         img := gt; img_step := epoch |} :: r)
          end
      end
  end.

(** The grids of [evaluate]: channel [i] of the samples beside channel
    [i] of the known fields. *)
Fixpoint grids (i : nat) (sample_images known_latents : list image)
  : outcome (list (image * image)) :=
  match sample_images with
  | [] => Val []
  | s :: rest =>
      match known_latents !! i with
      | None => Exc IndexError
      | Some gt =>
          match grids (S i) rest known_latents with
          | Exc e => Exc e
          | Val r => Val ((s, gt) :: r)
          end
      end
  end.

(** [evaluate]: the pipeline samples with the weights in use ([sample],
    which may raise, for instance when interrupted); a missing
    [channel_names] entry of the configuration is caught and replaced by
    empty names; the image grids are written to the tensorboard tracker.
    The function is handed the pipeline, the configuration, the trackers
    and the batch, never the optimizer, the scheduler or the EMA model. *)
Definition evaluate (sample : P → outcome (list image))
    (phase_name : string) (config_channel_names : option (list string))
    (epoch : nat) (weights : P) (known_latents : list image)
    (tensorboard : bool) : outcome (list add_image) :=
  match sample weights with
  | Exc e => Exc e
  | Val sample_images =>
      let channel_names :=
        match config_channel_names with
        | Some names => names
        | None => (λ _, EmptyString) <$> sample_images
        end in
      match grids 0 sample_images known_latents with
      | Exc e => Exc e
      | Val pairs =>
          if tensorboard
          then log_images phase_name channel_names epoch 0 pairs
          else Val []
      end
  end.

(** Lines 475-486 of [main]: the evaluation of an epoch on the main
    process.  Nothing guards the call of [evaluate]: when it raises, the
    statements after it do not run. *)
Definition evaluation_block (use_ema : bool)
    (run_evaluate : P → outcome (list add_image))
  : M train_state (list add_image) :=
  (if use_ema then modify store ;;ᵖ modify copy_to else ret tt) ;;ᵖ
  st ←ᵖ get ;;
  logged ←ᵖ lift (run_evaluate (live st)) ;;
  (if use_ema then restore else ret tt) ;;ᵖ
  ret logged.

(** The state an evaluation that returned leaves: the one before it, the
    EMA model holding no stored copy. *)
Definition after_return (st : train_state) : train_state :=
  {| live := live st; shadow := shadow st; stored := None;
     optimizer := optimizer st; lr_scheduler := lr_scheduler st |}.

(** The state an evaluation that raised leaves: the live parameters are
    the shadow average, the original ones sit in the EMA model's store. *)
Definition after_raise (st : train_state) : train_state :=
  {| live := shadow st; shadow := shadow st; stored := Some (live st);
     optimizer := optimizer st; lr_scheduler := lr_scheduler st |}.

End Evaluation.

Arguments live {P O L} _.
Arguments shadow {P O L} _.
Arguments stored {P O L} _.
Arguments optimizer {P O L} _.
Arguments lr_scheduler {P O L} _.
Arguments evaluate {P image} _ _ _ _ _ _ _.
Arguments evaluation_block {P O L image} _ _ _.
Arguments after_return {P O L} _.
Arguments after_raise {P O L} _.

End EmaEval.

(** ** [train.py]: one pass of the training step (lines 349-404) *)

Module TrainStep.
Import Py Tensor.

(** [general_config], as far as the step reads it. *)
Record general_config : Type := {
  do_edm_style_training : bool;
  same_mask : bool;
  known_channels : list nat
}.

(** The names of [main] that the step assigns only under
    [do_edm_style_training]; [None] is a name not assigned so far. *)
Record locals : Type := {
  sigmas : option tensor4;
  x_in : option tensor4;
  loss : option Qc
}.

(** What [main] has when it enters the loop. *)
Definition fresh_locals : locals :=
  {| sigmas := None; x_in := None; loss := None |}.

(** [clean_images.shape] *)
Definition shape4 (t : tensor4) : nat * nat * nat * nat :=
  match t with
  | [] => (0, 0, 0, 0)%nat
  | t3 :: _ =>
      match t3 with
      | [] => (length t, 0, 0, 0)%nat
      | t2 :: _ =>
          match t2 with
          | [] => (length t, length t3, 0, 0)%nat
          | t1 :: _ => (length t, length t3, length t2, length t1)
          end
      end
  end.

(** [sigma.unsqueeze(-1)] up to rank 4: shape (B, 1, 1, 1). *)
Definition unsqueeze3 (v : list Qc) : tensor4 := (λ s, [[[s]]]) <$> v.

(** [noise * (1 - mask)] *)
Definition mask_noise (noise mask : tensor4) : outcome tensor4 :=
  bcast4 Qcmult noise (map4 (λ m, 1 - m) mask).

(** Lines 374-378: the mask channels handed to the network. *)
Definition concat_mask_of (cfg : general_config) (mask : tensor4)
  : outcome tensor4 :=
  if same_mask cfg then
    match known_channels cfg !! 0%nat with
    | None => Exc IndexError
    | Some k => select_channels mask [k]
    end
  else select_channels mask (known_channels cfg).

(** [(sigmas ** 2 + 0.5 ** 2) / (sigmas * 0.5) ** 2] *)
Definition edm_weight (sigma : Qc) : Qc :=
  (sigma ^ 2 + (1 / 2) ^ 2) / (sigma * (1 / 2)) ^ 2.

Definition edm_weighting (sigmas : tensor4) : outcome tensor4 :=
  bcast4 Qcdiv (map4 (λ s, s ^ 2 + (1 / 2) ^ 2) sigmas)
               (map4 (λ s, (s * (1 / 2)) ^ 2) sigmas).

(** [(weighting * ((clean_images - model_output) ** 2)).mean()] *)
Definition edm_loss (weighting clean_images model_output : tensor4)
  : outcome Qc :=
  match bcast4 Qcminus clean_images model_output with
  | Exc e => Exc e
  | Val difference =>
      match bcast4 Qcmult weighting (map4 (λ d, d ^ 2) difference) with
      | Exc e => Exc e
      | Val weighted => Val (mean4 weighted)
      end
  end.

(** The channel list of lines 374-378: the first known channel alone under
    the same-mask policy, all known channels otherwise. *)
Definition mask_channels (cfg : general_config) : list nat :=
  if same_mask cfg then take 1 (known_channels cfg) else known_channels cfg.

(** The scheduler of the EDM formulation adds the noise scaled by the
    noise level of the timestep. *)
Definition edm_add_noise_at (sigma_at : Qc → Qc) (x n t : Qc) : Qc :=
  x + n * sigma_at t.

(** The squared error, entry by entry. *)
Definition sq_err (clean pred : tensor4) : tensor4 :=
  zip4 (λ x y, (x - y) ^ 2) clean pred.

(** Every entry of sample [b] of the squared error times the weight of the
    noise level of that sample. *)
Definition weighted_sq_err (sigma : list Qc) (clean pred : tensor4) : tensor4 :=
  zip_with (λ s d3, map3 (Qcmult (edm_weight s)) d3) sigma (sq_err clean pred).

Section Step.
(** The state of the process-wide random sources (torch's default
    generator, seeded by [set_seed]). *)
Variable G : Type.
(** The random draws of the step; none of the calls passes a generator,
    so each reads and advances the process-wide state. *)
Variable randn : nat * nat * nat * nat → G → tensor4 * G.
Variable randint : nat → nat → G → list nat * G.
Variable noise_sampler : nat → G → list nat * G.
Variable rand : G → Qc * G.
Variable create_scatter_mask : tensor4 → list nat → Qc → G → tensor4 * G.
(** The scheduler: its timestep table, and [add_noise] as the function of
    one clean entry, one noise entry and the timestep of the sample. *)
Variable scheduler_timesteps : list Qc.
Variable num_train_timesteps : nat.
Variable add_noise_at : Qc → Qc → Qc → Qc.
(** [get_sigmas]: the noise level of a timestep. *)
Variable sigma_at : Qc → Qc.
(** The preconditioning of the scheduler and the network are calls into
    libraries: each returns a tensor or raises (a [RuntimeError] where the
    sizes it is handed do not match). *)
Variable precondition_inputs : tensor4 → tensor4 → outcome tensor4.
Variable precondition_outputs : tensor4 → tensor4 → tensor4 → outcome tensor4.
(** The network, and [unet_config['out_channels']]. *)
Variable unet : tensor4 → list Qc → outcome tensor4.
Variable out_channels : nat.

(** The process: the hidden random state, the generator object that
    [main] builds at line 215 and hands to the data loaders, and the
    conditionally assigned names. *)
Record world : Type := {
  default_rng : G;
  generator : G;
  vars : locals
}.

(** A draw from the process-wide random state. *)
Definition draw {A} (f : G → A * G) : M world A :=
  λ w, let '(a, g) := f (default_rng w) in
       (Val a, {| default_rng := g; generator := generator w; vars := vars w |}).

Definition assign (f : locals → locals) : M world unit :=
  λ w, (Val tt, {| default_rng := default_rng w; generator := generator w;
                   vars := f (vars w) |}).

Definition read {A} (name : string) (field : locals → option A) : M world A :=
  λ w, read_local name (field (vars w)) w.

(** The same process with another state of the generator object. *)
Definition with_generator (g : G) (w : world) : world :=
  {| default_rng := default_rng w; generator := g; vars := vars w |}.

(** A computation that neither reads nor writes the generator object. *)
Definition oblivious {A} (m : M world A) : Prop :=
  ∀ g w, m (with_generator g w) = ((m w).1, with_generator g (m w).2).

(** [noise_scheduler.add_noise(clean_images, noise, timesteps)]: the
    scheduler reads its coefficients off the timestep of every sample,
    unsqueezes them to the shape (B, 1, 1, 1) and combines them with the
    noise and the clean images by entrywise operations: the timesteps are
    broadcast with the noise along the batch, and the result with the
    clean images in every dimension. *)
Definition add_noise (clean noise : tensor4) (timesteps : list Qc)
  : outcome tensor4 :=
  match bcast (λ n3 t, Val (n3, t)) noise timesteps with
  | Exc e => Exc e
  | Val scaled =>
      bcast (λ c3 nt, bcast3 (λ x n, add_noise_at x n nt.2) c3 nt.1)
        clean scaled
  end.

(** [get_sigmas(noise_scheduler, timesteps, 4, ...)] *)
Definition get_sigmas (timesteps : list Qc) : tensor4 :=
  unsqueeze3 (sigma_at <$> timesteps).

(** Lines 373-380: the input handed on to the preconditioning. *)
Definition compose_input (cfg : general_config)
    (clean_images noise mask : tensor4) (timesteps : list Qc)
  : outcome tensor4 :=
  match mask_noise noise mask with
  | Exc e => Exc e
  | Val noise =>
      match concat_mask_of cfg mask with
      | Exc e => Exc e
      | Val concat_mask =>
          match add_noise clean_images noise timesteps with
          | Exc e => Exc e
          | Val noisy_images => cat_channels noisy_images concat_mask
          end
      end
  end.

(** The values a completed pass computed. *)
Record step_values : Type := {
  v_noise : tensor4;          (* torch.randn(...), before masking *)
  v_timesteps : list Qc;
  v_ratio : Qc;
  v_mask : tensor4;
  v_noisy_images : tensor4;   (* after the concatenation of the mask *)
  v_model_output : tensor4;
  v_loss : Qc                 (* the loss handed to accelerator.backward *)
}.

(** The pass up to the loss that line 404 hands to
    [accelerator.backward]; the update of the parameters that follows
    (gradient clipping, [optimizer.step], [lr_scheduler.step]) is outside
    this model. *)
Definition train_step (cfg : general_config) (batch : tensor4)
  : M world step_values :=
  let clean_images := batch in
  noise ←ᵖ draw (randn (shape4 clean_images)) ;;
  let bs := length clean_images in
  timesteps ←ᵖ
    (if negb (do_edm_style_training cfg) then
       ts ←ᵖ draw (randint num_train_timesteps bs) ;;
       ret ((λ t : nat, Qc_of_Z (Z.of_nat t)) <$> ts)
     else
       indices ←ᵖ draw (noise_sampler bs) ;;
       lift (select_list scheduler_timesteps indices)) ;;
  ratio ←ᵖ draw rand ;;
  mask ←ᵖ draw (create_scatter_mask clean_images (known_channels cfg) ratio) ;;
  noisy_images ←ᵖ lift (compose_input cfg clean_images noise mask timesteps) ;;
  (if do_edm_style_training cfg then
     let s := get_sigmas timesteps in
     assign (λ l, {| sigmas := Some s; x_in := x_in l; loss := loss l |}) ;;ᵖ
     x ←ᵖ lift (precondition_inputs noisy_images s) ;;
     assign (λ l, {| sigmas := sigmas l; x_in := Some x; loss := loss l |})
   else ret tt) ;;ᵖ
  x ←ᵖ read "x_in" x_in ;;
  model_output ←ᵖ lift (unet x timesteps) ;;
  model_output ←ᵖ
    (if do_edm_style_training cfg then
       s ←ᵖ read "sigmas" sigmas ;;
       model_output ←ᵖ
         lift (precondition_outputs (take_channels out_channels noisy_images)
                 model_output s) ;;
       weighting ←ᵖ lift (edm_weighting s) ;;
       l ←ᵖ lift (edm_loss weighting clean_images model_output) ;;
       assign (λ ls, {| sigmas := sigmas ls; x_in := x_in ls;
                        loss := Some l |}) ;;ᵖ
       ret model_output
     else ret model_output) ;;
  l ←ᵖ read "loss" loss ;;
  ret {| v_noise := noise; v_timesteps := timesteps; v_ratio := ratio;
         v_mask := mask; v_noisy_images := noisy_images;
         v_model_output := model_output; v_loss := l |}.

End Step.

Arguments with_generator {G} g w.
Arguments oblivious G {A} m.

End TrainStep.

(** ** A small instance of the collaborators, to run the step *)

Module Toy.
Import Py Tensor TrainStep.

(** The process-wide random state is a counter; every draw returns values
    made of it and advances it. *)
Definition randn (shape : nat * nat * nat * nat) (g : Z) : tensor4 * Z :=
  let '(B, C, H, W) := shape in
  (replicate B (replicate C (replicate H (replicate W (Qc_of_Z g)))), (g + 1)%Z).

Definition randint (high n : nat) (g : Z) : list nat * Z :=
  (replicate n (Z.to_nat (g `mod` Z.of_nat high)), (g + 1)%Z).

Definition noise_sampler (n : nat) (g : Z) : list nat * Z :=
  (replicate n (Z.to_nat (g `mod` 3)), (g + 1)%Z).

Definition rand (g : Z) : Qc * Z := (1 / 2, (g + 1)%Z).

(** Every position of the known channels is observed. *)
Definition create_scatter_mask (batch : tensor4) (channels : list nat)
    (ratio : Qc) (g : Z) : tensor4 * Z :=
  ((λ t3 : tensor3,
      imap (λ c (t2 : tensor2),
              fmap (M := list) (fmap (M := list)
                (λ _, if decide (c ∈ channels) then 1 else Q2Qc 0)) t2) t3)
     <$> batch,
   (g + 1)%Z).

Definition scheduler_timesteps : list Qc := [1 / 2; 1; 2].

Definition sigma_at (t : Qc) : Qc := t.

Definition add_noise_at (x n t : Qc) : Qc := x + n * sigma_at t.

Definition precondition_inputs (x s : tensor4) : outcome tensor4 := Val x.

Definition precondition_outputs (noisy out s : tensor4) : outcome tensor4 :=
  Val out.

(** A network that returns the first two channels of its input. *)
Definition unet (x : tensor4) (t : list Qc) : outcome tensor4 :=
  Val (take_channels 2 x).

Definition train_step : general_config → tensor4 → M (world Z) step_values :=
  TrainStep.train_step Z randn randint noise_sampler rand create_scatter_mask
    scheduler_timesteps 3 add_noise_at sigma_at precondition_inputs
    precondition_outputs unet 2.

(** One sample of two channels on a 1 x 2 grid. *)
Definition batch : tensor4 := of_ints [[ [[1; 2]]; [[3; 4]] ]]%Z.

Definition edm : general_config :=
  {| do_edm_style_training := true; same_mask := false;
     known_channels := [0%nat] |}.

Definition non_edm : general_config :=
  {| do_edm_style_training := false; same_mask := false;
     known_channels := [0%nat] |}.

(** The process when [main] enters the loop, with the default generator in
    state [seed] and the generator object of line 215 in state [gen]. *)
Definition start (seed gen : Z) : world Z :=
  {| default_rng := seed; generator := gen; vars := fresh_locals |}.

(** The noise a pass drew and the loss it computed, when it completed. *)
Definition noise_and_loss (r : outcome step_values * world Z)
  : option (tensor4 * Qc) :=
  match r.1 with
  | Val v => Some (v_noise v, v_loss v)
  | Exc _ => None
  end.

(** A noise tensor and a mask for [batch]: channel 0 is observed at
    x = 0. *)
Definition noise : tensor4 := of_ints [[ [[5; 6]]; [[7; 8]] ]]%Z.
Definition mask : tensor4 := of_ints [[ [[1; 0]]; [[0; 0]] ]]%Z.

End Toy.

(** ** [train.py]: the end of an epoch (lines 471-506) *)

Module EpochEnd.
Import Py EmaEval.

(** [(epoch + 1) % save_image_epochs == 0 or epoch == num_epochs - 1] *)
Definition due (save_image_epochs num_epochs epoch : nat) : outcome bool :=
  if decide (save_image_epochs = 0%nat) then Exc ZeroDivisionError
  else Val (bool_decide ((epoch + 1) `mod` save_image_epochs = 0)%nat
            || bool_decide (Z.of_nat epoch = Z.of_nat num_epochs - 1)%Z).

Section EpochEnd.
Variables P O L : Type.
Variable image : Type.

(** The process at the end of an epoch: the training state, and the
    weights of the pipeline that [save_pretrained] wrote last to the
    output directory. *)
Record process : Type := {
  training : train_state P O L;
  saved_pipeline : option P
}.

(** A step on the training state alone. *)
Definition on_training {A} (m : M (train_state P O L) A) : M process A :=
  λ w, let '(r, st) := m (training w) in
       (r, {| training := st; saved_pipeline := saved_pipeline w |}).

(** [pipeline.save_pretrained(output_dir)]: the pipeline is built around
    the network itself, so the weights written are the ones the network
    holds at the call. *)
Definition save_pretrained : M process unit :=
  λ w, (Val tt, {| training := training w;
                   saved_pipeline := Some (live (training w)) |}).

(** Lines 490-506: "save the model". *)
Definition save_block (use_ema : bool) : M process unit :=
  (if use_ema
   then on_training (modify (store P O L) ;;ᵖ modify (copy_to P O L))
   else ret tt) ;;ᵖ
  save_pretrained ;;ᵖ
  (if use_ema then on_training (restore P O L) else ret tt).

(** Lines 472-506 on the main process: the evaluation, then the save,
    each under the test of the epoch. *)
Definition epoch_end (use_ema : bool)
    (run_evaluate : nat → P → outcome (list (add_image image)))
    (save_image_epochs num_epochs epoch : nat)
  : M process (list (add_image image)) :=
  d ←ᵖ lift (due save_image_epochs num_epochs epoch) ;;
  logged ←ᵖ (if d : bool
             then on_training (evaluation_block use_ema (run_evaluate epoch))
             else ret []) ;;
  d' ←ᵖ lift (due save_image_epochs num_epochs epoch) ;;
  (if d' : bool then save_block use_ema else ret tt) ;;ᵖ
  ret logged.

End EpochEnd.

Arguments training {P O L} _.
Arguments saved_pipeline {P O L} _.
Arguments epoch_end {P O L image} _ _ _ _ _.
Arguments save_block {P O L} _.

End EpochEnd.

(** ** [utils/vt_utils.py]: nearest-point interpolation, [vt_obs.__call__] *)

Module VtObsInterp.
Import Py Tensor GridPoints VtObs.

(** [torch.linspace(0, n - 1, n)]: the [n] points 0, 1, ..., n - 1; a
    negative number of steps raises. *)
Definition linspace (n : Z) : outcome (list Z) :=
  if decide (n < 0)%Z
  then Exc (RuntimeError "number of steps must be non-negative")
  else Val (seqZ 0 n).

(** [torch.meshgrid(xs, ys, indexing='xy')]: two grids of [len(ys)] rows
    and [len(xs)] columns, [fst[i][j] = xs[j]] and [snd[i][j] = ys[i]]. *)
Definition meshgrid_xy (xs ys : list Z) : list (list Z) * list (list Z) :=
  ((λ _, xs) <$> ys, (λ y, (λ _, y) <$> xs) <$> ys).

(** A [vt_obs] object with the fields that interpolation reads: the pixel
    grids [grid_x], [grid_y] and [known_channels] ([None] stands for all
    channels). *)
Record observer : Type := {
  obs : vt_obs;
  grid_x : list (list Z);
  grid_y : list (list Z);
  known_channels : option (list nat)
}.

(** [vt_obs.__init__], with the pixel grids. *)
Definition init (x_dim y_dim x_spacing y_spacing : Z)
    (known_channels : option (list nat)) : outcome observer :=
  match VtObs.init x_dim y_dim x_spacing y_spacing with
  | Exc e => Exc e
  | Val o =>
      match linspace x_dim with
      | Exc e => Exc e
      | Val xs =>
          match linspace y_dim with
          | Exc e => Exc e
          | Val ys =>
              let '(grid_x, grid_y) := meshgrid_xy xs ys in
              Val {| obs := o; grid_x := grid_x; grid_y := grid_y;
                     known_channels := known_channels |}
          end
      end
  end.

(** [torch.column_stack((x_coords, y_coords))] on two vectors: one row
    [(x_i, y_i)] per entry; vectors of different lengths raise. *)
Definition column_stack (x_coords y_coords : list Z) : outcome (list (Z * Z)) :=
  if decide (length x_coords = length y_coords)
  then Val (zip x_coords y_coords)
  else Exc (RuntimeError "Sizes of tensors must match except in dimension 1").

(** The squared Euclidean distance of two points.  [torch.cdist] returns
    its square root, which is least where the square is least; rounding
    of the float32 distances is not modelled. *)
Definition dist2 (p q : Z * Z) : Z := ((p.1 - q.1) ^ 2 + (p.2 - q.2) ^ 2)%Z.

(** [torch.cdist(xi, points)], squared: one row per point of [xi]. *)
Definition cdist (xi points : list (Z * Z)) : list (list Z) :=
  (λ p, dist2 p <$> points) <$> xi.

(** The index of the first least entry behind position [i], [best] at
    [best_i] being the least so far. *)
Fixpoint argmin_from (i best_i : nat) (best : Z) (row : list Z) : nat :=
  match row with
  | [] => best_i
  | v :: row' =>
      if decide (v < best)%Z then argmin_from (S i) i v row'
      else argmin_from (S i) best_i best row'
  end.

Definition argmin_row (row : list Z) : nat :=
  match row with
  | [] => 0%nat
  | v :: row' => argmin_from 1 0 v row'
  end.

(** [torch.argmin(distances, dim=1)] on a matrix with [cols] columns: for
    every row the index of its first least entry; a reduction over no
    column raises. *)
Definition argmin (cols : nat) (distances : list (list Z)) : outcome (list nat) :=
  if decide (cols = 0%nat) then Exc IndexError
  else Val (argmin_row <$> distances).

(** Rows of length [cols] cut from a flat list. *)
Fixpoint chunks (rows cols : nat) (l : list Qc) : tensor2 :=
  match rows with
  | O => []
  | S rows' => take cols l :: chunks rows' cols (drop cols l)
  end.

(** [v.reshape(rows, cols)] for sizes that are not negative: the number
    of entries must be [rows * cols]. *)
Definition reshape (rows cols : Z) (v : list Qc) : outcome tensor2 :=
  if decide (0 ≤ rows ∧ 0 ≤ cols ∧ Z.of_nat (length v) = rows * cols)%Z
  then Val (chunks (Z.to_nat rows) (Z.to_nat cols) v)
  else Exc (RuntimeError "shape is invalid for input size").

(** [vt_obs._torch_griddata_nearest] *)
Definition _torch_griddata_nearest (self : observer)
    (points : list (Z * Z)) (values : list Qc) (xi : list (Z * Z))
  : outcome tensor2 :=
  let distances := cdist xi points in
  match argmin (length points) distances with
  | Exc e => Exc e
  | Val nearest_indices =>
      match select_list values nearest_indices with
      | Exc e => Exc e
      | Val interpolated_values =>
          reshape (y_dim (obs self)) (x_dim (obs self)) interpolated_values
      end
  end.

(** [torch.stack((grid_x.flatten(), grid_y.flatten()), dim=1)] *)
Definition stack_flat (gx gy : list (list Z)) : list (Z * Z) :=
  zip (mjoin gx) (mjoin gy).

(** [vt_obs.interpolate] *)
Definition interpolate (self : observer) (grid_points : list (Z * Z))
    (field : list Qc) : outcome tensor2 :=
  _torch_griddata_nearest self grid_points field
    (stack_flat (grid_x self) (grid_y self)).

(** [l[i]] for a Python integer: a negative index counts from the end. *)
Definition index {A} (l : list A) (i : Z) : outcome A :=
  let n := Z.of_nat (length l) in
  let j := if decide (i < 0)%Z then (n + i)%Z else i in
  if decide (0 ≤ j < n)%Z
  then match l !! Z.to_nat j with
       | Some a => Val a
       | None => Exc IndexError
       end
  else Exc IndexError.

(** [plane[grid_points[:,1], grid_points[:,0]].flatten()]: the entry of
    the plane at every point, a point being (x, y). *)
Fixpoint gather (plane : tensor2) (grid_points : list (Z * Z))
  : outcome (list Qc) :=
  match grid_points with
  | [] => Val []
  | (x, y) :: rest =>
      match index plane y with
      | Exc e => Exc e
      | Val row =>
          match index row x with
          | Exc e => Exc e
          | Val v =>
              match gather plane rest with
              | Exc e => Exc e
              | Val r => Val (v :: r)
              end
          end
      end
  end.

(** The points of a mask as integer coordinates. *)
Definition to_Z_points (pts : list (nat * nat)) : list (Z * Z) :=
  (λ '(x, y), (Z.of_nat x, Z.of_nat y)) <$> pts.

Section Call.
Context {G : Type}.
Variable next_raw : G → Z * G.

(** [vt_obs._get_grid_points].  The coordinates are given together or not
    at all; a call with one of them only ends in a [TypeError] of
    [column_stack] and is left out. *)
Definition _get_grid_points (self : observer)
    (coords : option (list Z * list Z)) : M G (list (Z * Z)) :=
  match coords with
  | None =>
      xy ←ᵖ structure_obs next_raw (obs self) ;;
      lift (column_stack xy.1 xy.2)
  | Some (x_coords, y_coords) => lift (column_stack x_coords y_coords)
  end.

(** The body of the loop over the known channels, for sample [b] with
    fields [t3]: with a mask the points are those of the mask at that
    sample and channel, otherwise those of the sample. *)
Definition channel_body (self : observer) (b : nat) (t3 : tensor3)
    (mask : option mask_arg) (grid_points : list (Z * Z))
    (known_channel : nat) : outcome tensor2 :=
  let grid_points :=
    match mask with
    | Some m => to_Z_points (get_grid_points_from_mask b known_channel m)
    | None => grid_points
    end in
  match select_one t3 known_channel with
  | Exc e => Exc e
  | Val plane =>
      match gather plane grid_points with
      | Exc e => Exc e
      | Val field => interpolate self grid_points field
      end
  end.

(** [for idx, known_channel in enumerate(...)]: the interpolated planes,
    in the order of the channels. *)
Fixpoint channel_loop (self : observer) (b : nat) (t3 : tensor3)
    (mask : option mask_arg) (grid_points : list (Z * Z))
    (channels : list nat) : outcome tensor3 :=
  match channels with
  | [] => Val []
  | known_channel :: rest =>
      match channel_body self b t3 mask grid_points known_channel with
      | Exc e => Exc e
      | Val interpolated_values =>
          match channel_loop self b t3 mask grid_points rest with
          | Exc e => Exc e
          | Val r => Val (interpolated_values :: r)
          end
      end
  end.

(** The loop over the samples: without a mask every sample gets points of
    its own from [_get_grid_points]; with a mask [grid_points] is not
    assigned before the channel loop, which then does not read it. *)
Fixpoint batch_loop (self : observer) (b : nat) (known_fields : tensor4)
    (mask : option mask_arg) (coords : option (list Z * list Z))
    (channels : list nat) : M G tensor4 :=
  match known_fields with
  | [] => ret []
  | t3 :: rest =>
      grid_points ←ᵖ (match mask with
                      | None => _get_grid_points self coords
                      | Some _ => ret []
                      end) ;;
      r ←ᵖ lift (channel_loop self b t3 mask grid_points channels) ;;
      rs ←ᵖ batch_loop self (S b) rest mask coords channels ;;
      ret (r :: rs)
  end.

(** [vt_obs.__call__] on known fields of rank 4. *)
Definition __call__ (self : observer) (known_fields : tensor4)
    (mask : option mask_arg) (coords : option (list Z * list Z))
  : M G tensor4 :=
  let '(_, C, _, _) := TrainStep.shape4 known_fields in
  let channels := match known_channels self with
                  | None => seq 0 C
                  | Some kc => kc
                  end in
  batch_loop self 0 known_fields mask coords channels.

End Call.

(** The value at the first of the points nearest to [p]. *)
Definition nearest_value (points : list (Z * Z)) (values : list Qc)
    (p : Z * Z) : Qc :=
  default 0 (values !! argmin_row (dist2 p <$> points)).

(** [plane[y, x]] for indices that are not negative. *)
Definition at2Z (plane : tensor2) (y x : Z) : option Qc :=
  if decide (0 ≤ y ∧ 0 ≤ x)%Z then at2 plane (Z.to_nat y) (Z.to_nat x) else None.

End VtObsInterp.

(** ** [utils/vt_utils.py]: the layout of [diffuserUNet2D] *)

Module UNet.
Import Py VtObsInterp.

(** The arguments of [diffuserUNet2D.__init__] that decide the layout.
    Arguments that are handed on to the blocks unchanged ([dropout],
    [act_fn], [norm_eps] and the like) are left out. *)
Record config : Type := {
  in_channels : Z;
  out_channels : Z;
  down_block_types : list string;
  up_block_types : list string;
  block_out_channels : list Z;
  layers_per_block : Z;
  attention_head_dim : option Z;
  norm_num_groups : option Z;
  class_embed_type : option string;
  num_class_embeds : option Z
}.

(** A call of [get_down_block], by its arguments. *)
Record down_block : Type := {
  down_block_type : string;
  d_num_layers : Z;
  d_in_channels : Z;
  d_out_channels : Z;
  d_temb_channels : option Z;
  add_downsample : bool;
  d_attention_head_dim : Z
}.

(** The call of [UNetMidBlock2D]. *)
Record mid_block : Type := {
  m_in_channels : Z;
  m_temb_channels : option Z;
  m_attention_head_dim : Z
}.

(** A call of [get_up_block]. *)
Record up_block : Type := {
  up_block_type : string;
  u_num_layers : Z;
  u_in_channels : Z;
  u_out_channels : Z;
  prev_output_channel : Z;
  u_temb_channels : option Z;
  add_upsample : bool;
  u_attention_head_dim : Z
}.

Inductive class_embedding : Type :=
| Embedding (num_embeddings : Z) (embedding_dim : option Z)
| Identity.

(** The modules that [__init__] assigns: [conv_in] and [conv_out] by
    their input and output channels, [conv_norm_out] by its number of
    groups and of channels.  The constructors of torch and diffusers are
    recorded by their arguments; failures inside them are not
    modelled. *)
Record model : Type := {
  conv_in : Z * Z;
  class_emb : option class_embedding;
  down_blocks : list down_block;
  mid : mid_block;
  up_blocks : list up_block;
  conv_norm_out : Z * Z;
  conv_out : Z * Z
}.

(** [for i, down_block_type in enumerate(down_block_types)], from index
    [i] on, [output_channel] being the variable of that name. *)
Fixpoint down_loop (cfg : config) (time_embed_dim : option Z) (i : nat)
    (types : list string) (output_channel : Z) : outcome (list down_block) :=
  match types with
  | [] => Val []
  | ty :: rest =>
      let input_channel := output_channel in
      match index (block_out_channels cfg) (Z.of_nat i) with
      | Exc e => Exc e
      | Val output_channel =>
          let is_final_block :=
            bool_decide (Z.of_nat i = Z.of_nat (length (block_out_channels cfg)) - 1)%Z in
          let b := {| down_block_type := ty;
                      d_num_layers := layers_per_block cfg;
                      d_in_channels := input_channel;
                      d_out_channels := output_channel;
                      d_temb_channels := time_embed_dim;
                      add_downsample := negb is_final_block;
                      d_attention_head_dim :=
                        default output_channel (attention_head_dim cfg) |} in
          match down_loop cfg time_embed_dim (S i) rest output_channel with
          | Exc e => Exc e
          | Val bs => Val (b :: bs)
          end
      end
  end.

(** [for i, up_block_type in enumerate(up_block_types)] *)
Fixpoint up_loop (cfg : config) (time_embed_dim : option Z)
    (reversed_block_out_channels : list Z) (i : nat)
    (types : list string) (output_channel : Z) : outcome (list up_block) :=
  match types with
  | [] => Val []
  | ty :: rest =>
      let prev := output_channel in
      match index reversed_block_out_channels (Z.of_nat i) with
      | Exc e => Exc e
      | Val output_channel =>
          match index reversed_block_out_channels
                  (Z.min (Z.of_nat i + 1)
                         (Z.of_nat (length (block_out_channels cfg)) - 1)) with
          | Exc e => Exc e
          | Val input_channel =>
              let is_final_block :=
                bool_decide (Z.of_nat i = Z.of_nat (length (block_out_channels cfg)) - 1)%Z in
              let b := {| up_block_type := ty;
                          u_num_layers := (layers_per_block cfg + 1)%Z;
                          u_in_channels := input_channel;
                          u_out_channels := output_channel;
                          prev_output_channel := prev;
                          u_temb_channels := time_embed_dim;
                          add_upsample := negb is_final_block;
                          u_attention_head_dim :=
                            default output_channel (attention_head_dim cfg) |} in
              match up_loop cfg time_embed_dim reversed_block_out_channels
                      (S i) rest output_channel with
              | Exc e => Exc e
              | Val bs => Val (b :: bs)
              end
          end
      end
  end.

(** The parts of [__init__] behind the checks. *)
Definition build (cfg : config) (time_embed_dim : option Z) : outcome model :=
  match index (block_out_channels cfg) 0 with
  | Exc e => Exc e
  | Val c0 =>
      let conv_in := (in_channels cfg, c0) in
      let class_embedding :=
        match class_embed_type cfg, num_class_embeds cfg with
        | None, Some n => Some (Embedding n time_embed_dim)
        | Some ty, _ => if decide (ty = "identity") then Some Identity else None
        | None, None => None
        end in
      match down_loop cfg time_embed_dim 0 (down_block_types cfg) c0 with
      | Exc e => Exc e
      | Val downs =>
          match index (block_out_channels cfg) (-1) with
          | Exc e => Exc e
          | Val c_last =>
              let mid := {| m_in_channels := c_last;
                            m_temb_channels := time_embed_dim;
                            m_attention_head_dim :=
                              default c_last (attention_head_dim cfg) |} in
              let reversed_block_out_channels := reverse (block_out_channels cfg) in
              match index reversed_block_out_channels 0 with
              | Exc e => Exc e
              | Val r0 =>
                  match up_loop cfg time_embed_dim reversed_block_out_channels 0
                          (up_block_types cfg) r0 with
                  | Exc e => Exc e
                  | Val ups =>
                      let num_groups_out :=
                        match norm_num_groups cfg with
                        | Some groups => groups
                        | None => Z.min (c0 `div` 4) 32
                        end in
                      Val {| conv_in := conv_in;
                             class_emb := class_embedding;
                             down_blocks := downs;
                             mid := mid;
                             up_blocks := ups;
                             conv_norm_out := (num_groups_out, c0);
                             conv_out := (c0, out_channels cfg) |}
                  end
              end
          end
      end
  end.

(** [diffuserUNet2D.__init__] *)
Definition __init__ (cfg : config) : outcome model :=
  match (match num_class_embeds cfg with
         | Some _ =>
             match index (block_out_channels cfg) 0 with
             | Exc e => Exc e
             | Val c0 => Val (Some (c0 * 4)%Z)
             end
         | None => Val None
         end) with
  | Exc e => Exc e
  | Val time_embed_dim =>
      if decide (length (down_block_types cfg) ≠ length (up_block_types cfg))
      then Exc ValueError
      else if decide (length (block_out_channels cfg) ≠ length (down_block_types cfg))
      then Exc ValueError
      else build cfg time_embed_dim
  end.

(** The configuration of the signature's defaults. *)
Definition default_config : config :=
  {| in_channels := 3; out_channels := 3;
     down_block_types := ["DownBlock2D"; "AttnDownBlock2D"; "AttnDownBlock2D"; "AttnDownBlock2D"];
     up_block_types := ["AttnUpBlock2D"; "AttnUpBlock2D"; "AttnUpBlock2D"; "UpBlock2D"];
     block_out_channels := [224; 448; 672; 896]%Z;
     layers_per_block := 2;
     attention_head_dim := Some 8%Z;
     norm_num_groups := Some 32%Z;
     class_embed_type := None;
     num_class_embeds := None |}.

End UNet.

(** ** Lists: filters that keep all or nothing *)

Module ListFacts.

Lemma filter_none {A} (P : A → Prop) `{!∀ x, Decision (P x)} (l : list A) :
  Forall (λ x, ¬ P x) l → filter P l = [].
Proof.
  induction 1 as [|x l Hx _ IH]; [done|].
  rewrite filter_cons_False; done.
Qed.

Lemma filter_all {A} (P : A → Prop) `{!∀ x, Decision (P x)} (l : list A) :
  Forall P l → filter P l = l.
Proof.
  induction 1 as [|x l Hx _ IH]; [done|].
  rewrite filter_cons_True; [by rewrite IH | done].
Qed.

Lemma filter_fmap_comm {A B} (P : B → Prop) `{!∀ x, Decision (P x)}
    (f : A → B) (l : list A) :
  filter P (f <$> l) = f <$> filter (P ∘ f) l.
Proof.
  induction l as [|a l IH]; [done|].
  rewrite fmap_cons, !filter_cons. cbn.
  destruct (decide (P (f a))); cbn; by rewrite IH.
Qed.

Lemma filter_ext_Forall {A} (P Q : A → Prop) `{!∀ x, Decision (P x)}
    `{!∀ x, Decision (Q x)} (l : list A) :
  Forall (λ x, P x ↔ Q x) l → filter P l = filter Q l.
Proof.
  induction 1 as [|x l Hx _ IH]; [done|].
  rewrite !filter_cons, IH.
  destruct (decide (P x)), (decide (Q x)); tauto.
Qed.

End ListFacts.

Module GridPointsFacts.
Import Tensor GridPoints ListFacts.

(** Rows of [imap]-built index lists carry their position: selecting one
    position by its key returns exactly the row built there. *)
Lemma filter_key_imap {A B} (key : B → nat) (F : nat → A → list B)
    (l : list A) (n k : nat) :
  (∀ i a, Forall (λ x, key x = n + i)%nat (F i a)) →
  filter (λ x, key x = (n + k)%nat) (mjoin (imap F l)) =
    match l !! k with Some a => F k a | None => [] end.
Proof.
  revert F n k. induction l as [|a l IH]; intros F n k HF; [done|].
  change (mjoin (imap F (a :: l))) with (F 0%nat a ++ mjoin (imap (F ∘ S) l)).
  rewrite filter_app.
  destruct k as [|k]; cbn [lookup list_lookup].
  - rewrite filter_all by apply HF.
    rewrite filter_none; [by rewrite app_nil_r|].
    apply Forall_forall. intros x Hx.
    apply list_elem_of_join in Hx as (r & Hxr & Hr).
    apply elem_of_lookup_imap in Hr as (i & a' & -> & _).
    pose proof (HF (S i) a') as Hall.
    rewrite Forall_forall in Hall. specialize (Hall x Hxr). cbn in *. lia.
  - rewrite filter_none.
    + replace (n + S k)%nat with (S n + k)%nat by lia.
      rewrite (IH (F ∘ S) (S n) k); [done|].
      intros i a'. eapply Forall_impl; [apply (HF (S i) a')|].
      cbn. intros; lia.
    + eapply Forall_impl; [apply (HF 0%nat a)|]. cbn. intros; lia.
Qed.


(** The boolean-mask selection of the source is a filter on the index rows. *)
Lemma select_rows (b c : nat) (ix : list (nat * nat * nat * nat)) :
  (let '(fb, fc, fy, fx) := as_tuple ix in
   let target := logical_and (eq_scalar fb b) (eq_scalar fc c) in
   column_stack (bool_index fx target) (bool_index fy target)) =
  (λ '(_, _, y, x), (x, y)) <$>
    filter (λ i, key_c4 i = c ∧ key_b i = b) ix.
Proof.
  cbn. induction ix as [|[[[b' c'] y] x] ix IH]; [done|].
  cbn [fmap list_fmap zip_with bool_index logical_and eq_scalar] in *.
  unfold eq_scalar, logical_and, column_stack in *. cbn.
  destruct (decide (c' = c ∧ b' = b)) as [[-> ->]|Hne].
  - rewrite !bool_decide_eq_true_2 by done. cbn. by rewrite IH.
  - destruct (bool_decide (b' = b)) eqn:Eb, (bool_decide (c' = c)) eqn:Ec;
      cbn; try apply IH.
    apply bool_decide_eq_true in Eb, Ec. tauto.
Qed.

(** Row-major listing of the rows of batch [b] and channel [c]. *)
Lemma nonzero4_select (b c : nat) (m : tensor4) :
  filter (λ i, key_c4 i = c ∧ key_b i = b) (nonzero4 m) =
    match t3 ← m !! b; t3 !! c with
    | Some plane => (λ '(y, x), (b, c, y, x)) <$> nonzero2 plane
    | None => []
    end.
Proof.
  rewrite <- list_filter_filter. unfold nonzero4.
  rewrite (filter_key_imap key_b _ m 0 b).
  2:{ intros i a. apply Forall_fmap, Forall_forall. by intros [[c' y] x] _. }
  destruct (m !! b) as [t3|]; [|done]. cbn [mbind option_bind].
  rewrite filter_fmap_comm. unfold nonzero3.
  rewrite (list_filter_iff _ (λ i, key_c i = (0 + c)%nat)).
  2:{ by intros [[c' y] x]. }
  rewrite (filter_key_imap key_c _ t3 0 c).
  2:{ intros i a. apply Forall_fmap, Forall_forall. by intros [y x] _. }
  destruct (t3 !! c) as [plane|]; [|done].
  rewrite <- list_fmap_compose. apply list_fmap_ext. by intros _ [y x] _.
Qed.

Lemma elem_of_nonzero1 (row : tensor1) (x : nat) :
  x ∈ nonzero1 row ↔ ∃ q, row !! x = Some q ∧ q ≠ 0.
Proof.
  unfold nonzero1. rewrite list_elem_of_join. split.
  - intros (r & Hx & Hr).
    apply elem_of_lookup_imap in Hr as (i & q & -> & Hq).
    destruct (decide (q = 0)); [by apply elem_of_nil in Hx|].
    apply list_elem_of_singleton in Hx as ->. eauto.
  - intros (q & Hq & Hne). exists [x]. split; [apply list_elem_of_singleton; done|].
    apply elem_of_lookup_imap. exists x, q. by rewrite decide_False.
Qed.

Lemma elem_of_nonzero2 (plane : tensor2) (y x : nat) :
  (y, x) ∈ nonzero2 plane ↔ ∃ q, at2 plane y x = Some q ∧ q ≠ 0.
Proof.
  unfold nonzero2, at2. rewrite list_elem_of_join. split.
  - intros (r & Hx & Hr).
    apply elem_of_lookup_imap in Hr as (i & row & -> & Hrow).
    apply list_elem_of_fmap in Hx as (x' & [= -> ->] & Hx).
    apply elem_of_nonzero1 in Hx as (q & Hq & Hne).
    exists q. by rewrite Hrow.
  - intros (q & Hq & Hne).
    destruct (plane !! y) as [row|] eqn:Hrow; [|done]. cbn in Hq.
    exists ((λ x, (y, x)) <$> nonzero1 row). split.
    + apply list_elem_of_fmap. exists x. split; [done|].
      apply elem_of_nonzero1. eauto.
    + apply elem_of_lookup_imap. eauto.
Qed.

Lemma elem_of_plane_points (plane : tensor2) (x y : nat) :
  (x, y) ∈ plane_points plane ↔ ∃ q, at2 plane y x = Some q ∧ q ≠ 0.
Proof.
  unfold plane_points. rewrite <- elem_of_nonzero2, list_elem_of_fmap. split.
  - by intros ([y' x'] & [= -> ->] & H).
  - intros H. by exists (y, x).
Qed.

Lemma grid_points_rank4 (b c : nat) (m : tensor4) :
  get_grid_points_from_mask b c (Rank4 m) =
    match t3 ← m !! b; t3 !! c with
    | Some plane => plane_points plane
    | None => []
    end.
Proof.
  unfold get_grid_points_from_mask.
  etrans; [apply (select_rows b c (nonzero4 m))|].
  rewrite nonzero4_select.
  destruct (t3 ← m !! b; t3 !! c) as [plane|]; [|done].
  unfold plane_points. rewrite <- list_fmap_compose.
  apply list_fmap_ext. by intros _ [y x] _.
Qed.

(** A 2 x 3 mask with two batches and two channels: the points of
    [mask[1, 0]] are listed row by row, as (x, y). *)
Example grid_points_example :
  get_grid_points_from_mask 1 0
    (Rank4 [ [ [[1; 1; 1]; [1; 1; 1]]; [[0; 0; 0]; [0; 0; 0]] ];
             [ [[0; 1; 0]; [1; 0; 1]]; [[1; 1; 1]; [1; 1; 1]] ] ])
  = [(1, 0); (0, 1); (2, 1)]%nat.
Proof. reflexivity. Qed.

(** C10.  [get_grid_points_from_mask batch_idx channel_idx mask] is exactly
    the list of (x, y) coordinates of the nonzero entries of
    [mask[batch_idx, channel_idx]], in row-major order of that plane: a pair
    (x, y) is listed if and only if the mask holds a nonzero entry at
    (batch_idx, channel_idx, y, x), so entries of other batches or channels
    never contribute; a mask of rank 3 is read as the single batch 0. *)
Theorem get_grid_points_from_mask_exact
    (batch_idx channel_idx : nat) (mask4 : tensor4) (mask3 : tensor3) :
  get_grid_points_from_mask batch_idx channel_idx (Rank4 mask4) =
    match t3 ← mask4 !! batch_idx; t3 !! channel_idx with
    | Some plane => plane_points plane
    | None => []
    end
  ∧ (∀ x y : nat,
       (x, y) ∈ get_grid_points_from_mask batch_idx channel_idx (Rank4 mask4)
       ↔ ∃ q, at4 mask4 batch_idx channel_idx y x = Some q ∧ q ≠ 0)
  ∧ get_grid_points_from_mask batch_idx channel_idx (Rank3 mask3) =
      get_grid_points_from_mask batch_idx channel_idx (Rank4 [mask3])
  ∧ (∀ x y : nat,
       (x, y) ∈ get_grid_points_from_mask batch_idx channel_idx (Rank3 mask3)
       ↔ batch_idx = 0%nat ∧
         ∃ q, (plane ← mask3 !! channel_idx; at2 plane y x) = Some q ∧ q ≠ 0).
Proof.
  split; [apply grid_points_rank4|]. split; [|split; [done|]].
  - intros x y. rewrite grid_points_rank4. unfold at4.
    destruct (mask4 !! batch_idx) as [t3|]; cbn [mbind option_bind].
    + destruct (t3 !! channel_idx) as [plane|]; cbn [mbind option_bind].
      * apply elem_of_plane_points.
      * split; [by intros ?%elem_of_nil | by intros (? & ? & ?)].
    + split; [by intros ?%elem_of_nil | by intros (? & ? & ?)].
  - intros x y.
    change (get_grid_points_from_mask batch_idx channel_idx (Rank3 mask3))
      with (get_grid_points_from_mask batch_idx channel_idx (Rank4 [mask3])).
    rewrite grid_points_rank4.
    destruct batch_idx as [|b]; cbn [lookup list_lookup mbind option_bind].
    + destruct (mask3 !! channel_idx) as [plane|]; cbn [mbind option_bind].
      * rewrite elem_of_plane_points. split; [by intros H | by intros [_ H]].
      * split; [by intros ?%elem_of_nil | by intros (_ & ? & ? & ?)].
    + split; [by intros ?%elem_of_nil | by intros [? _]].
Qed.

End GridPointsFacts.

Module VtObsFacts.
Import VtObs.

Lemma arange_forward (stop step : Z) :
  (0 < step)%Z → (0 ≤ stop)%Z →
  ∃ l, arange 0 stop step = Py.Val l ∧ Forall (λ x, 0 ≤ x < stop)%Z l.
Proof.
  intros Hstep Hstop. unfold arange.
  rewrite decide_False by lia. rewrite decide_False by lia.
  eexists; split; [done|].
  apply Forall_fmap, Forall_forall. intros k Hk%elem_of_seqZ. cbn.
  rewrite Z.sgn_pos in Hk by done.
  assert (step * ((stop - 0 + step - 1) `div` step) ≤ stop - 0 + step - 1)%Z
    by (apply Z.mul_div_le; lia).
  nia.
Qed.

Lemma meshgrid_ij_bounds (P Q : Z → Prop) (xs ys : list Z) :
  Forall P xs → Forall Q ys →
  Forall (Forall P) (meshgrid_ij xs ys).1 ∧
  Forall (Forall Q) (meshgrid_ij xs ys).2.
Proof.
  intros Hx Hy. unfold meshgrid_ij. cbn. split.
  - apply Forall_fmap. eapply Forall_impl; [exact Hx|].
    intros x Px. cbn. apply Forall_fmap, Forall_forall. by intros.
  - apply Forall_fmap, Forall_forall. by intros.
Qed.

Section GeneratorFacts.
Variable G : Type.
Variable next_raw : G → Z * G.

Lemma reshape_Forall (P : Z → Prop) (rows cols : nat) (l : list Z) :
  Forall P l → Forall (Forall P) (reshape rows cols l).
Proof.
  revert l. induction rows as [|rows IH]; intros l Hl; cbn; [done|].
  constructor; [by apply Forall_take | by apply IH, Forall_drop].
Qed.

(** Whatever the generator's state, [randint] returns, and its entries lie
    in the half-open range. *)
Lemma randint_range (low high : Z) (rows cols : nat) (g : G) :
  (low < high)%Z →
  ∃ t g', randint G next_raw low high rows cols g = (Py.Val t, g') ∧
          Forall (Forall (λ o, low ≤ o < high)%Z) t.
Proof.
  intros Hlt. unfold randint. rewrite decide_True by done.
  destruct (draws G next_raw (rows * cols) g) as [rs g'].
  eexists _, _. split; [done|].
  apply reshape_Forall, Forall_fmap, Forall_forall. intros r _. cbn.
  pose proof (Z.mod_pos_bound r (high - low)). lia.
Qed.

End GeneratorFacts.

Lemma add2_Forall (P Q R : Z → Prop) (s t : list (list Z)) :
  (∀ a b, P a → Q b → R (a + b)%Z) →
  Forall (Forall P) s → Forall (Forall Q) t →
  Forall R (flatten2 (add2 s t)).
Proof.
  intros HR Hs. revert t. unfold flatten2, add2.
  induction Hs as [|r s Hr _ IH]; intros t Ht; [done|].
  destruct Ht as [|r' t Hr' Ht]; [done|].
  cbn. apply Forall_app. split; [|by apply IH].
  clear IH. revert r' Hr'.
  induction Hr as [|a r Ha _ IHr]; intros r' Hr'; [done|].
  destruct Hr' as [|b r' Hb Hr']; [done|].
  cbn. constructor; [by apply HR | by apply IHr].
Qed.

(** C9.  On an instance built with integer spacings
    [1 ≤ x_spacing ≤ x_dim] and [1 ≤ y_spacing ≤ y_dim], the constructor
    and [structure_obs] return for every generator state, and every
    returned coordinate lies inside the grid: [0 ≤ x ≤ x_dim - 1] and
    [0 ≤ y ≤ y_dim - 1].  Each coordinate is a start-grid point, at most
    [dim - spacing], plus an offset below the spacing. *)
Theorem structure_obs_in_grid (G : Type) (next_raw : G → Z * G)
    (x_dim y_dim x_spacing y_spacing : Z) (g : G) :
  (1 ≤ x_spacing ≤ x_dim)%Z →
  (1 ≤ y_spacing ≤ y_dim)%Z →
  ∃ self x_coords y_coords g',
    init x_dim y_dim x_spacing y_spacing = Py.Val self ∧
    structure_obs next_raw self g = (Py.Val (x_coords, y_coords), g') ∧
    Forall (λ x, 0 ≤ x ≤ x_dim - 1)%Z x_coords ∧
    Forall (λ y, 0 ≤ y ≤ y_dim - 1)%Z y_coords.
Proof.
  intros Hx Hy. unfold init.
  destruct (arange_forward (x_dim - x_spacing + 1) x_spacing)
    as (xl & -> & Hxl); [lia..|].
  destruct (arange_forward (y_dim - y_spacing + 1) y_spacing)
    as (yl & -> & Hyl); [lia..|].
  destruct (meshgrid_ij_bounds _ _ xl yl Hxl Hyl) as [Hgx Hgy].
  destruct (meshgrid_ij xl yl) as [gx gy] eqn:Hmesh. cbn [fst snd] in Hgx, Hgy.
  exists (Build_vt_obs x_dim y_dim x_spacing y_spacing xl yl gx gy).
  unfold structure_obs, Py.bind, Py.ret. cbn [VtObs.x_start_grid
    VtObs.y_start_grid VtObs.x_spacing VtObs.y_spacing].
  destruct (randint_range G next_raw 0 x_spacing (shape2 gx).1 (shape2 gx).2 g)
    as (xo & g1 & -> & Hxo); [lia|].
  destruct (randint_range G next_raw 0 y_spacing (shape2 gy).1 (shape2 gy).2 g1)
    as (yo & g2 & -> & Hyo); [lia|].
  eexists _, _, _. split; [done|]. split; [done|]. split.
  - eapply add2_Forall; [|exact Hgx|exact Hxo]. cbn. intros; lia.
  - eapply add2_Forall; [|exact Hgy|exact Hyo]. cbn. intros; lia.
Qed.

(** A 5 x 4 grid observed every 2 cells, under the generator [lcg]. *)
Lemma structure_obs_in_grid_witness :
  ∃ self x_coords y_coords g',
    init 5 4 2 2 = Py.Val self ∧
    structure_obs lcg self 1%Z = (Py.Val (x_coords, y_coords), g') ∧
    Forall (λ x, 0 ≤ x ≤ 5 - 1)%Z x_coords ∧
    Forall (λ y, 0 ≤ y ≤ 4 - 1)%Z y_coords.
Proof. apply (structure_obs_in_grid Z lcg 5 4 2 2 1%Z); lia. Defined.

Example structure_obs_run :
  (init 5 4 2 2 = Py.Val {| x_dim := 5; y_dim := 4; x_spacing := 2; y_spacing := 2;
                            x_list := [0; 2]%Z; y_list := [0; 2]%Z;
                            x_start_grid := [[0; 0]; [2; 2]]%Z;
                            y_start_grid := [[0; 2]; [0; 2]]%Z |}) ∧
  ∀ self, init 5 4 2 2 = Py.Val self →
    (structure_obs lcg self 1%Z).1 = Py.Val ([0; 0; 3; 3]%Z, [1; 3; 0; 3]%Z).
Proof. split; [reflexivity|]. intros self [= <-]. vm_compute. reflexivity. Qed.

(** *** The start grids *)

Lemma arange_starts (dim s : Z) :
  (1 ≤ s ≤ dim + 1)%Z →
  arange 0 (dim - s + 1) s = Py.Val ((λ k, k * s)%Z <$> seqZ 0 (dim `div` s)).
Proof.
  intros Hs. unfold arange.
  rewrite decide_False by lia. rewrite decide_False by lia.
  rewrite Z.sgn_pos by lia.
  replace (dim - s + 1 - 0 + s - 1)%Z with dim by lia.
  reflexivity.
Qed.

(** *** Raw draws *)

Section DrawFacts.
Variable G : Type.
Variable next_raw : G → Z * G.

Lemma length_draws (n : nat) (g : G) : length (draws G next_raw n g).1 = n.
Proof.
  revert g. induction n as [|n IH]; intros g; [done|].
  cbn. destruct (next_raw g) as [r g1]. specialize (IH g1).
  destruct (draws G next_raw n g1) as [rs g2]. cbn in *. lia.
Qed.

Lemma draws_app (a b : nat) (g : G) :
  draws G next_raw (a + b) g =
    ((draws G next_raw a g).1 ++ (draws G next_raw b (draws G next_raw a g).2).1,
     (draws G next_raw b (draws G next_raw a g).2).2).
Proof.
  revert g. induction a as [|a IH]; intros g.
  - cbn. by destruct (draws G next_raw b g).
  - cbn. destruct (next_raw g) as [r g1]. rewrite IH.
    by destruct (draws G next_raw a g1).
Qed.

Lemma randint_draws (s : Z) (rows cols : nat) (g : G) :
  (0 < s)%Z →
  randint G next_raw 0 s rows cols g =
    (Py.Val (reshape rows cols
               ((λ r, r `mod` s)%Z <$> (draws G next_raw (rows * cols) g).1)),
     (draws G next_raw (rows * cols) g).2).
Proof.
  intros Hs. unfold randint. rewrite decide_True by done.
  destruct (draws G next_raw (rows * cols) g) as [rs g']. cbn.
  do 3 f_equal. apply list_fmap_ext. intros _ r _.
  rewrite Z.sub_0_r. lia.
Qed.

End DrawFacts.

Lemma reshape_rows (rows cols : nat) (l : list Z) :
  length l = (rows * cols)%nat →
  length (reshape rows cols l) = rows ∧
  Forall (λ r, length r = cols) (reshape rows cols l).
Proof.
  revert l. induction rows as [|rows IH]; intros l Hl; [done|].
  cbn [reshape]. destruct (IH (drop cols l)) as [Hlen Hrows].
  { rewrite length_drop. lia. }
  split; [cbn; lia|]. constructor; [|done].
  rewrite length_take. lia.
Qed.


(** *** Adding offsets to the start grids *)

Lemma add_const_row (x : Z) (yl row : list Z) :
  length row = length yl →
  zip_with Z.add ((λ _, x) <$> yl) row = Z.add x <$> row.
Proof.
  revert row. induction yl as [|y yl IH]; intros [|o row] Hlen;
    try done. cbn. f_equal. apply IH. cbn in Hlen. lia.
Qed.

Lemma add2_x_grid (xl yl : list Z) (xo : list (list Z)) :
  Forall (λ r, length r = length yl) xo →
  add2 (meshgrid_ij xl yl).1 xo = zip_with (λ x row, Z.add x <$> row) xl xo.
Proof.
  unfold add2, meshgrid_ij. cbn [fst]. intros Hxo. revert xl.
  induction Hxo as [|row xo Hrow _ IH]; intros [|x xl]; try done.
  cbn. f_equal; [by apply add_const_row | apply IH].
Qed.

Lemma add2_y_grid (xl yl : list Z) (yo : list (list Z)) :
  length yo = length xl →
  add2 (meshgrid_ij xl yl).2 yo = (λ row, zip_with Z.add yl row) <$> yo.
Proof.
  unfold add2, meshgrid_ij. cbn [snd]. revert yo.
  induction xl as [|x xl IH]; intros [|row yo] Hlen; try done.
  cbn. f_equal. apply IH. cbn in Hlen. lia.
Qed.

Lemma cell_of_x_row (s k : Z) (row : list Z) :
  Forall (λ o, 0 ≤ o < s)%Z row →
  (λ v, v `div` s)%Z <$> (Z.add (k * s) <$> row) = replicate (length row) k.
Proof.
  induction 1 as [|o row Ho _ IH]; [done|]. cbn. f_equal; [|done].
  rewrite Z.div_add_l by lia. rewrite Z.div_small by lia. lia.
Qed.

Lemma cell_of_y_row (s : Z) (js row : list Z) :
  Forall (λ o, 0 ≤ o < s)%Z row → length row = length js →
  (λ v, v `div` s)%Z <$> zip_with Z.add ((λ j, j * s)%Z <$> js) row = js.
Proof.
  intros Hrow. revert js.
  induction Hrow as [|o row Ho _ IH]; intros [|j js] Hlen; try done.
  cbn. f_equal; [|apply IH; cbn in Hlen; lia].
  rewrite Z.div_add_l by lia. rewrite Z.div_small by lia. lia.
Qed.

Lemma cells_of_x (s : Z) (ny : nat) (ks : list Z) (xo : list (list Z)) :
  length xo = length ks →
  Forall (λ r, length r = ny ∧ Forall (λ o, 0 ≤ o < s)%Z r) xo →
  (λ v, v `div` s)%Z <$>
    mjoin (zip_with (λ x row, Z.add x <$> row) ((λ k, k * s)%Z <$> ks) xo) =
  mjoin ((λ k, replicate ny k) <$> ks).
Proof.
  intros Hlen Hxo. revert ks Hlen.
  induction Hxo as [|row xo [Hrow Ho] _ IH]; intros [|k ks] Hlen; try done.
  cbn. rewrite fmap_app, cell_of_x_row, Hrow by done. f_equal.
  apply IH. cbn in Hlen. lia.
Qed.

Lemma cells_of_y (s : Z) (js : list Z) (yo : list (list Z)) :
  Forall (λ r, length r = length js ∧ Forall (λ o, 0 ≤ o < s)%Z r) yo →
  (λ v, v `div` s)%Z <$>
    mjoin ((λ row, zip_with Z.add ((λ j, j * s)%Z <$> js) row) <$> yo) =
  mjoin (replicate (length yo) js).
Proof.
  induction 1 as [|row yo [Hrow Ho] _ IH]; [done|].
  rewrite fmap_cons. cbn [length replicate mjoin list_join].
  rewrite fmap_app, cell_of_y_row by done. by f_equal.
Qed.

Section OffsetFacts.
Variable G : Type.
Variable next_raw : G → Z * G.

(** [structure_obs] on start grids made by [meshgrid_ij]: both offset
    tensors have the shape of the grids, and the generator advances by one
    raw draw per entry. *)
Lemma structure_obs_offsets (self : vt_obs) (xl yl : list Z) (g : G) :
  (0 < x_spacing self)%Z → (0 < y_spacing self)%Z →
  x_start_grid self = (meshgrid_ij xl yl).1 →
  y_start_grid self = (meshgrid_ij xl yl).2 →
  ∃ xo yo,
    structure_obs next_raw self g =
      (Py.Val (flatten2 (add2 (x_start_grid self) xo),
               flatten2 (add2 (y_start_grid self) yo)),
       (draws G next_raw (length xl * length yl + length xl * length yl) g).2) ∧
    length xo = length xl ∧ length yo = length xl ∧
    Forall (λ r, length r = length yl ∧
                 Forall (λ o, 0 ≤ o < x_spacing self)%Z r) xo ∧
    Forall (λ r, length r = length yl ∧
                 Forall (λ o, 0 ≤ o < y_spacing self)%Z r) yo.
Proof.
  intros Hsx Hsy Hgx Hgy. unfold structure_obs, Py.bind, Py.ret.
  rewrite !randint_draws by done. rewrite Hgx, Hgy.
  assert (Hshape : ∀ s (rs : list Z) (rows cols : nat),
            (0 < s)%Z → length rs = (rows * cols)%nat →
            length (reshape rows cols ((λ r, r `mod` s)%Z <$> rs)) = rows ∧
            Forall (λ r, length r = cols ∧ Forall (λ o, 0 ≤ o < s)%Z r)
              (reshape rows cols ((λ r, r `mod` s)%Z <$> rs))).
  { intros s rs rows cols Hs Hrs.
    destruct (reshape_rows rows cols ((λ r, r `mod` s)%Z <$> rs)) as [Hl Hr].
    { by rewrite length_fmap. }
    split; [done|]. apply Forall_and. split; [done|].
    apply reshape_Forall, Forall_fmap, Forall_forall. intros r _. cbn.
    apply Z.mod_pos_bound. lia. }
  destruct xl as [|x xl].
  - cbn. eexists [], []. done.
  - unfold meshgrid_ij. cbn [fst snd fmap list_fmap shape2 length].
    rewrite !length_fmap.
    set (n := (S (length xl) * length yl)%nat).
    rewrite draws_app.
    destruct (Hshape (x_spacing self) (draws G next_raw n g).1 (S (length xl)) (length yl))
      as [Hxl Hxr]; [done | apply length_draws |].
    destruct (Hshape (y_spacing self)
                (draws G next_raw n (draws G next_raw n g).2).1
                (S (length xl)) (length yl))
      as [Hyl Hyr]; [done | apply length_draws |].
    eexists _, _. split; [reflexivity|]. done.
Qed.

End OffsetFacts.

Lemma length_cells_x (ny : nat) (ks : list Z) :
  length (mjoin ((λ k, replicate ny k) <$> ks)) = (length ks * ny)%nat.
Proof.
  induction ks as [|k ks IH]; [done|].
  rewrite fmap_cons.
  change (mjoin (?l :: ?ls)) with (l ++ mjoin ls).
  rewrite length_app, length_replicate, IH. cbn [length]. lia.
Qed.

Lemma length_cells_y (nx : nat) (js : list Z) :
  length (mjoin (replicate nx js)) = (nx * length js)%nat.
Proof.
  induction nx as [|nx IH]; [done|].
  cbn [replicate]. change (mjoin (?l :: ?ls)) with (l ++ mjoin ls).
  rewrite length_app, IH. lia.
Qed.

(** On an instance built by [__init__], [structure_obs] returns after
    [2 * nx * ny] raw draws, and the coordinates, divided by the spacings,
    enumerate the cells row by row. *)
Lemma structure_obs_cells (G : Type) (next_raw : G → Z * G)
    (x_dim y_dim x_spacing y_spacing : Z) (g : G) :
  (1 ≤ x_spacing ≤ x_dim + 1)%Z →
  (1 ≤ y_spacing ≤ y_dim + 1)%Z →
  let nx := Z.to_nat (x_dim `div` x_spacing) in
  let ny := Z.to_nat (y_dim `div` y_spacing) in
  ∃ self x_coords y_coords,
    init x_dim y_dim x_spacing y_spacing = Py.Val self ∧
    structure_obs next_raw self g =
      (Py.Val (x_coords, y_coords),
       (draws G next_raw (nx * ny + nx * ny) g).2) ∧
    (λ x, x `div` x_spacing)%Z <$> x_coords =
      mjoin ((λ i, replicate ny i) <$> seqZ 0 (x_dim `div` x_spacing)) ∧
    (λ y, y `div` y_spacing)%Z <$> y_coords =
      mjoin (replicate nx (seqZ 0 (y_dim `div` y_spacing))).
Proof.
  intros Hx Hy nx ny. unfold init.
  rewrite !arange_starts by done.
  set (xl := (λ k, k * x_spacing)%Z <$> seqZ 0 (x_dim `div` x_spacing)).
  set (yl := (λ k, k * y_spacing)%Z <$> seqZ 0 (y_dim `div` y_spacing)).
  assert (Hnx : length xl = nx) by (unfold xl; by rewrite length_fmap, length_seqZ).
  assert (Hny : length yl = ny) by (unfold yl; by rewrite length_fmap, length_seqZ).
  destruct (meshgrid_ij xl yl) as [gx gy] eqn:Hmesh.
  set (self := Build_vt_obs x_dim y_dim x_spacing y_spacing xl yl gx gy).
  destruct (structure_obs_offsets G next_raw self xl yl g)
    as (xo & yo & Hrun & Hxo & Hyo & Hxr & Hyr);
    [cbn; lia | cbn; lia | by rewrite Hmesh | by rewrite Hmesh |].
  rewrite Hnx, Hny in Hrun.
  cbn [VtObs.x_start_grid VtObs.y_start_grid self] in Hrun.
  cbn [VtObs.x_spacing VtObs.y_spacing self] in Hxr, Hyr.
  exists self. eexists _, _. split; [done|]. split; [exact Hrun|].
  replace gx with (meshgrid_ij xl yl).1 by (by rewrite Hmesh).
  replace gy with (meshgrid_ij xl yl).2 by (by rewrite Hmesh).
  unfold flatten2. split.
  - rewrite add2_x_grid by (eapply Forall_impl; [exact Hxr|]; by intros ? [? _]).
    unfold xl. apply cells_of_x.
    + rewrite Hxo. unfold xl. by rewrite length_fmap.
    + by rewrite <- Hny.
  - rewrite add2_y_grid by done. unfold yl. rewrite cells_of_y.
    + by rewrite Hyo, Hnx.
    + unfold yl in Hyr. by rewrite length_fmap in Hyr.
Qed.

(** X24.  [vt_obs.structure_obs] on an instance built by [__init__] with
    spacings [1 ≤ x_spacing ≤ x_dim + 1] and [1 ≤ y_spacing ≤ y_dim + 1]:
    the start grids hold [nx = x_dim // x_spacing] by
    [ny = y_dim // y_spacing] cells, the call consumes [2 * nx * ny] raw
    draws of the generator, and it returns [nx * ny] points, exactly one
    in each cell of [x_spacing] by [y_spacing] pixels, the cells taken
    row by row: the k-th x coordinate lies in cell column [k // ny] and
    the k-th y coordinate in cell row [k % ny]. *)
Theorem structure_obs_one_point_per_cell (G : Type) (next_raw : G → Z * G)
    (x_dim y_dim x_spacing y_spacing : Z) (g : G) :
  (1 ≤ x_spacing ≤ x_dim + 1)%Z →
  (1 ≤ y_spacing ≤ y_dim + 1)%Z →
  let nx := Z.to_nat (x_dim `div` x_spacing) in
  let ny := Z.to_nat (y_dim `div` y_spacing) in
  ∃ self x_coords y_coords,
    init x_dim y_dim x_spacing y_spacing = Py.Val self ∧
    structure_obs next_raw self g =
      (Py.Val (x_coords, y_coords),
       (draws G next_raw (nx * ny + nx * ny) g).2) ∧
    length x_coords = (nx * ny)%nat ∧
    length y_coords = (nx * ny)%nat ∧
    (λ x, x `div` x_spacing)%Z <$> x_coords =
      mjoin ((λ i, replicate ny i) <$> seqZ 0 (x_dim `div` x_spacing)) ∧
    (λ y, y `div` y_spacing)%Z <$> y_coords =
      mjoin (replicate nx (seqZ 0 (y_dim `div` y_spacing))).
Proof.
  intros Hx Hy nx ny.
  destruct (structure_obs_cells G next_raw x_dim y_dim x_spacing y_spacing g Hx Hy)
    as (self & xc & yc & Hinit & Hrun & Hxc & Hyc).
  exists self, xc, yc. split; [done|]. split; [done|].
  split; [|split; [|done]].
  - rewrite <- (length_fmap (λ x, x `div` x_spacing)%Z), Hxc, length_cells_x.
    by rewrite length_seqZ.
  - rewrite <- (length_fmap (λ y, y `div` y_spacing)%Z), Hyc, length_cells_y.
    by rewrite length_seqZ.
Qed.

Lemma structure_obs_one_point_per_cell_witness :
  ∃ self x_coords y_coords,
    init 5 4 2 2 = Py.Val self ∧
    structure_obs lcg self 1%Z =
      (Py.Val (x_coords, y_coords), (draws Z lcg (2 * 2 + 2 * 2) 1%Z).2) ∧
    length x_coords = (2 * 2)%nat ∧
    length y_coords = (2 * 2)%nat ∧
    (λ x, x `div` 2)%Z <$> x_coords = [0; 0; 1; 1]%Z ∧
    (λ y, y `div` 2)%Z <$> y_coords = [0; 1; 0; 1]%Z.
Proof. apply (structure_obs_one_point_per_cell Z lcg 5 4 2 2 1%Z); lia. Defined.

End VtObsFacts.

Module CheckpointsFacts.
Import Py Checkpoints ListFacts.

(** *** Names *)

Lemma split_no_sep (sep : ascii) (s : string) :
  (∀ c, c ∈ list_ascii_of_string s → c ≠ sep) → split sep s = [s].
Proof.
  induction s as [|c s IH]; intros Hs; [done|].
  cbn. rewrite decide_False by (apply Hs; left).
  rewrite IH; [done|]. intros c' Hc'. apply Hs. by right.
Qed.


Lemma string_of_uint_digits (d : Decimal.uint) :
  Forall is_digit (list_ascii_of_string (NilEmpty.string_of_uint d)).
Proof.
  induction d; cbn;
    first [apply Forall_nil_2
          | apply Forall_cons_2; [unfold is_digit; vm_compute; lia | done]].
Qed.

Lemma str_digits (n : nat) : Forall is_digit (list_ascii_of_string (str n)).
Proof.
  unfold str, NilZero.string_of_uint.
  pose proof (string_of_uint_digits (Nat.to_uint n)) as H.
  destruct (Nat.to_uint n); try done.
  cbn. constructor; [unfold is_digit; vm_compute; lia | done].
Qed.

Lemma digit_is_digit (c : ascii) : digit c = true ↔ is_digit c.
Proof.
  unfold digit, is_digit. cbv zeta.
  rewrite andb_true_iff, !Nat.leb_le. done.
Qed.

Lemma is_digit_not_space (c : ascii) : is_digit c → is_space c = false.
Proof.
  unfold is_digit, is_space. cbv zeta. intros Hc.
  rewrite !orb_false_iff, andb_false_iff, !Nat.leb_gt, !Nat.eqb_neq. lia.
Qed.

Lemma is_digit_not_char (c c' : ascii) :
  is_digit c → ¬ is_digit c' → Ascii.eqb c c' = false.
Proof. intros Hc Hc'. apply Ascii.eqb_neq. by intros ->. Qed.

Lemma lstrip_digits (l : list ascii) : Forall is_digit l → lstrip l = l.
Proof.
  destruct 1 as [|c l Hc _]; [done|]. cbn. by rewrite is_digit_not_space.
Qed.

Lemma strip_digits (l : list ascii) : Forall is_digit l → strip l = l.
Proof.
  intros Hl. unfold strip. rewrite (lstrip_digits l Hl).
  rewrite lstrip_digits by (by apply Forall_reverse).
  apply reverse_involutive.
Qed.

Lemma numeral_digits (prev_digit : bool) (l : list ascii) :
  Forall is_digit l → prev_digit = true ∨ l ≠ [] →
  numeral prev_digit l = Some l.
Proof.
  intros Hl. revert prev_digit.
  induction Hl as [|c l Hc _ IH]; intros prev_digit Hne.
  - by destruct Hne as [->|].
  - cbn. rewrite (proj2 (digit_is_digit c) Hc), IH by (by left). done.
Qed.

(** On a string of digits alone [int] is the value of the decimal
    numeral. *)
Lemma int_digits (s : string) :
  s ≠ EmptyString → Forall is_digit (list_ascii_of_string s) →
  int s = match NilZero.uint_of_string s with
          | Some d => Val (Z.of_nat (Nat.of_uint d))
          | None => Exc ValueError
          end.
Proof.
  intros Hne Hs. unfold int. rewrite (strip_digits _ Hs).
  destruct (list_ascii_of_string s) as [|c l] eqn:El.
  { destruct s; done. }
  apply Forall_cons in Hs as Hc. destruct Hc as [Hc _].
  rewrite (is_digit_not_char c "-"), (is_digit_not_char c "+")
    by (done || (unfold is_digit; vm_compute; lia)).
  rewrite (numeral_digits false (c :: l) Hs) by (by right).
  by rewrite <- El, string_of_list_ascii_of_string.
Qed.

Lemma int_str (n : nat) : int (str n) = Val (Z.of_nat n).
Proof.
  rewrite int_digits; [| |apply str_digits].
  - unfold str. rewrite NilZero.usu.
    + by rewrite DecimalNat.Unsigned.of_to.
    + pose proof (DecimalNat.Unsigned.to_of (Nat.to_uint n)) as H.
      rewrite DecimalNat.Unsigned.of_to in H. rewrite H.
      apply DecimalFacts.unorm_nonnil.
  - unfold str, NilZero.string_of_uint. destruct (Nat.to_uint n); done.
Qed.

(** Signs, blanks and underscores, as Python's [int] reads them. *)
Example int_run :
  int " +1_0 " = Val 10%Z ∧ int "-5" = Val (-5)%Z ∧ int "007" = Val 7%Z ∧
  int "1__0" = Exc ValueError ∧ int "_1" = Exc ValueError ∧
  int "+ 5" = Exc ValueError ∧ int "" = Exc ValueError ∧
  step_key "checkpoint-+5" = Val 5%nat ∧
  step_key "checkpoint-1_0" = Val 10%nat ∧
  step_key "checkpoint--5" = Exc ValueError ∧
  step_key "checkpoint" = Exc IndexError.
Proof. repeat split; reflexivity. Qed.

Lemma elem_of_lstrip (c : ascii) (l : list ascii) : c ∈ lstrip l → c ∈ l.
Proof.
  induction l as [|c' l IH]; [done|]. cbn.
  destruct (is_space c'); [|done]. intros Hc. right. by apply IH.
Qed.

Lemma elem_of_strip (c : ascii) (l : list ascii) : c ∈ strip l → c ∈ l.
Proof.
  unfold strip. rewrite elem_of_reverse. intros Hc%elem_of_lstrip.
  rewrite elem_of_reverse in Hc. by apply elem_of_lstrip.
Qed.

(** Without a "-" in the string, [int] returns no negative number. *)
Lemma int_nonneg (s : string) (z : Z) :
  (∀ c, c ∈ list_ascii_of_string s → c ≠ "-"%char) →
  int s = Val z → (0 ≤ z)%Z.
Proof.
  intros Hs. unfold int.
  destruct (strip (list_ascii_of_string s)) as [|c l] eqn:El.
  - destruct (numeral false []) as [ds|]; [|done].
    destruct (NilZero.uint_of_string _); [|done]. intros [= <-]. lia.
  - destruct (Ascii.eqb_spec c "-") as [->|_].
    + exfalso. apply (Hs "-"%char); [|done].
      apply elem_of_strip. rewrite El. by left.
    + destruct (if Ascii.eqb c "+" then _ else _) as [negative body] eqn:Esign.
      assert (negative = false) as ->
        by (destruct (Ascii.eqb c "+"); by injection Esign).
      destruct (numeral false body) as [ds|]; [|done].
      destruct (NilZero.uint_of_string _); [|done]. intros [= <-]. lia.
Qed.

Lemma split_pieces (sep : ascii) (s piece : string) :
  piece ∈ split sep s → ∀ c, c ∈ list_ascii_of_string piece → c ≠ sep.
Proof.
  revert piece. induction s as [|ch s IH]; intros piece; cbn [split].
  - intros ->%list_elem_of_singleton c Hc. by apply elem_of_nil in Hc.
  - destruct (decide (ch = sep)) as [->|Hch].
    + intros [->|Hp]%elem_of_cons; [|by apply IH].
      intros c Hc. by apply elem_of_nil in Hc.
    + destruct (split sep s) as [|w ws] eqn:Esplit.
      * intros ->%list_elem_of_singleton c Hc. cbn in Hc.
        apply elem_of_cons in Hc as [->|Hc]; [done | by apply elem_of_nil in Hc].
      * intros [->|Hp]%elem_of_cons.
        -- intros c Hc. cbn in Hc. apply elem_of_cons in Hc as [->|Hc]; [done|].
           apply (IH w); [by left | done].
        -- apply IH. by right.
Qed.

(** The key as a natural number loses nothing: it is the integer that
    [int] returns for the piece behind the first "-". *)
Lemma step_key_int (x : string) (n : nat) :
  step_key x = Val n ↔
  ∃ piece, split "-" x !! 1%nat = Some piece ∧ int piece = Val (Z.of_nat n).
Proof.
  unfold step_key. split.
  - destruct (split "-" x !! 1%nat) as [piece|] eqn:Ep; [|done].
    destruct (int piece) as [z|] eqn:Ez; [|done]. intros [= <-].
    exists piece. split; [done|]. rewrite Z2Nat.id; [done|].
    apply (int_nonneg piece); [|done].
    apply (split_pieces "-" x). by eapply list_elem_of_lookup_2.
  - intros (piece & -> & ->). by rewrite Nat2Z.id.
Qed.

Lemma step_key_checkpoint_name (g : nat) : step_key (checkpoint_name g) = Val g.
Proof.
  unfold step_key, checkpoint_name.
  change ("checkpoint-" +:+ str g) with
    (String.append "checkpoint" (String "-" (str g))).
  cbv [String.append]. cbn [split].
  repeat (rewrite decide_False by done).
  rewrite decide_True by done.
  rewrite split_no_sep; [cbn; by rewrite int_str, Nat2Z.id|].
  intros c Hc ->. pose proof (str_digits g) as Hd.
  rewrite Forall_forall in Hd. specialize (Hd _ Hc).
  unfold is_digit in Hd. vm_compute in Hd. lia.
Qed.

Lemma startswith_checkpoint_name (g : nat) :
  startswith "checkpoint" (checkpoint_name g) = true.
Proof. reflexivity. Qed.

(** *** Sorting by step *)


Lemma keyed_well_formed (l : list string) :
  well_formed l → keyed l = Val ((λ x, (step_of x, x)) <$> l).
Proof.
  induction l as [|x l IH]; intros Hwf; [done|].
  cbn. unfold step_of at 1.
  destruct (Hwf x) as [n Hn]; [left|]. rewrite Hn.
  rewrite IH; [done|]. intros d Hd. apply Hwf. by right.
Qed.

Lemma insert_by_key_perm (x : nat * string) (l : list (nat * string)) :
  insert_by_key x l ≡ₚ x :: l.
Proof.
  induction l as [|y l IH]; [done|].
  cbn. destruct (decide (x.1 ≤ y.1)%nat); [done|].
  rewrite IH. apply Permutation_swap.
Qed.

Lemma sort_by_key_perm (l : list (nat * string)) : sort_by_key l ≡ₚ l.
Proof.
  induction l as [|x l IH]; [done|].
  cbn. rewrite insert_by_key_perm. by rewrite IH.
Qed.


Lemma insert_by_key_sorted (x : nat * string) (l : list (nat * string)) :
  StronglySorted key_le l → StronglySorted key_le (insert_by_key x l).
Proof.
  induction 1 as [|y l Hl IH Hy]; cbn.
  - repeat constructor.
  - destruct (decide (x.1 ≤ y.1)%nat) as [Hle|Hgt].
    + constructor; [by constructor|].
      constructor; [done|].
      eapply Forall_impl; [exact Hy|]. unfold key_le. intros; lia.
    + constructor; [done|].
      rewrite insert_by_key_perm. constructor; [unfold key_le; lia | done].
Qed.

Lemma sort_by_key_sorted (l : list (nat * string)) :
  StronglySorted key_le (sort_by_key l).
Proof.
  induction l as [|x l IH]; [constructor|].
  cbn. by apply insert_by_key_sorted.
Qed.


Lemma undecorate_sorted (kl : list (nat * string)) :
  Forall (λ p, p.1 = step_of p.2) kl →
  StronglySorted key_le kl → StronglySorted step_le (snd <$> kl).
Proof.
  intros Hk Hs. induction Hs as [|p kl Hs IH Hp]; [constructor|].
  apply Forall_cons in Hk as [Hp1 Hk].
  cbn. constructor; [by apply IH|].
  apply Forall_fmap, Forall_forall. intros q Hq.
  rewrite Forall_forall in Hp, Hk.
  specialize (Hp q Hq). specialize (Hk q Hq).
  unfold step_le, key_le in *. cbn. lia.
Qed.

(** On well-formed names the sort returns: an ascending rearrangement. *)
Lemma sorted_by_step_spec (l : list string) :
  well_formed l →
  ∃ s, sorted_by_step l = Val s ∧ s ≡ₚ l ∧ StronglySorted step_le s.
Proof.
  intros Hwf. unfold sorted_by_step. rewrite keyed_well_formed by done.
  set (kl := (λ x, (step_of x, x)) <$> l).
  assert (Hkl : Forall (λ p, p.1 = step_of p.2) kl).
  { apply Forall_fmap, Forall_forall. by intros. }
  eexists. split; [done|]. split.
  - rewrite sort_by_key_perm. unfold kl.
    rewrite <- list_fmap_compose. by rewrite list_fmap_id.
  - apply undecorate_sorted; [|apply sort_by_key_sorted].
    by rewrite sort_by_key_perm.
Qed.

(** *** The directory *)

Lemma rmtree_all (rem : list string) (fs : directory) :
  foldl (λ fs name, rmtree name fs) fs rem = filter (λ d, d ∉ rem) fs.
Proof.
  revert fs. induction rem as [|r rem IH]; intros fs; cbn.
  - symmetry. induction fs as [|d fs IHfs]; [done|].
    rewrite filter_cons_True; [by rewrite IHfs | apply not_elem_of_nil].
  - rewrite IH. unfold rmtree. rewrite list_filter_filter.
    apply list_filter_iff. intros d. rewrite not_elem_of_cons. tauto.
Qed.

Lemma filter_out_prefix (l a b : list string) :
  NoDup l → l ≡ₚ a ++ b → filter (λ d, d ∉ a) l ≡ₚ b.
Proof.
  intros Hnd Hp. rewrite Hp, filter_app.
  rewrite Hp in Hnd. apply NoDup_app in Hnd as (_ & Hab & _).
  rewrite filter_none, filter_all; [done|..].
  - apply Forall_forall. intros d Hd Hda. by apply (Hab d).
  - apply Forall_forall. by intros d Hd Hnd.
Qed.


Lemma save_checkpoint_run (limit : Z) (g : nat) (fs : directory) (s : list string) :
  (1 ≤ limit)%Z →
  sorted_by_step (checkpoints_of fs) = Val s →
  save_checkpoint (Some limit) g fs =
    (Val tt, save_state (checkpoint_name g)
               (filter (λ d, d ∉ take (evicted limit (length s)) s) fs)).
Proof.
  intros Hl Hs. unfold save_checkpoint, bind, get, lift, modify, ret, evicted.
  rewrite Hs. destruct (decide (limit ≤ Z.of_nat (length s))%Z) as [Hle|Hgt].
  - rewrite rmtree_all.
    by replace (Z.to_nat (Z.of_nat (length s) - limit + 1))
      with (length s + 1 - Z.to_nat limit)%nat by lia.
  - replace (length s + 1 - Z.to_nat limit)%nat with 0%nat by lia.
    rewrite take_0. rewrite filter_all; [done|].
    apply Forall_forall. intros d _. apply not_elem_of_nil.
Qed.

Lemma checkpoints_of_filter (P : string → Prop) `{!∀ x, Decision (P x)}
    (fs : directory) :
  checkpoints_of (filter P fs) = filter P (checkpoints_of fs).
Proof.
  unfold checkpoints_of. rewrite !list_filter_filter.
  apply list_filter_iff. tauto.
Qed.

Lemma save_one (limit : Z) (fs : directory) (g : nat) :
  (1 ≤ limit)%Z →
  NoDup fs →
  (∀ d, d ∈ checkpoints_of fs → ∃ n, step_key d = Val n ∧ (n < g)%nat) →
  ∃ sorted fs',
    sorted_by_step (checkpoints_of fs) = Val sorted ∧
    save_checkpoint (Some limit) g fs = (Val tt, fs') ∧
    StronglySorted step_le (sorted ++ [checkpoint_name g]) ∧
    checkpoints_of fs' ≡ₚ
      drop (evicted limit (length sorted)) (sorted ++ [checkpoint_name g]) ∧
    (Z.of_nat (length (checkpoints_of fs')) ≤ limit)%Z ∧
    filter (λ d, startswith "checkpoint" d ≠ true) fs' =
      filter (λ d, startswith "checkpoint" d ≠ true) fs ∧
    NoDup fs'.
Proof.
  intros Hl Hnd Hwf.
  destruct (sorted_by_step_spec (checkpoints_of fs)) as (s & Hs & Hperm & Hsorted).
  { intros d Hd. destruct (Hwf d Hd) as (n & Hn & _). eauto. }
  exists s. eexists. split; [done|].
  split; [by apply save_checkpoint_run|].
  set (k := evicted limit (length s)).
  set (new := checkpoint_name g).
  assert (Hk : (k ≤ length s)%nat) by (unfold k, evicted; lia).
  assert (Hold : ∀ d, d ∈ s → (step_of d < g)%nat).
  { intros d Hd. rewrite Hperm in Hd. destruct (Hwf d Hd) as (n & Hn & Hlt).
    unfold step_of. by rewrite Hn. }
  assert (Hnew : new ∉ fs).
  { intros Hin. assert (new ∈ s) as Hin'.
    { rewrite Hperm. apply list_elem_of_filter. split; [|done].
      apply startswith_checkpoint_name. }
    apply Hold in Hin'. unfold step_of, new in Hin'.
    rewrite step_key_checkpoint_name in Hin'. lia. }
  assert (Hnew' : new ∉ filter (λ d, d ∉ take k s) fs).
  { intros [_ ?]%list_elem_of_filter. done. }
  unfold save_state. rewrite decide_False by done.
  assert (Hkept : filter (λ d, d ∉ take k s) (checkpoints_of fs) ≡ₚ drop k s).
  { apply filter_out_prefix.
    - by apply NoDup_filter.
    - by rewrite take_drop. }
  split; [|split; [|split; [|split]]].
  - apply StronglySorted_app_2; [|done|repeat constructor].
    intros x y Hx ->%list_elem_of_singleton. unfold step_le.
    apply Hold in Hx. unfold step_of at 2, new.
    rewrite step_key_checkpoint_name. lia.
  - unfold checkpoints_of at 1. rewrite filter_app.
    fold (checkpoints_of (filter (λ d, d ∉ take k s) fs)).
    rewrite checkpoints_of_filter, Hkept.
    rewrite filter_cons_True by apply startswith_checkpoint_name.
    by rewrite drop_app_le.
  - unfold checkpoints_of at 1. rewrite filter_app.
    fold (checkpoints_of (filter (λ d, d ∉ take k s) fs)).
    rewrite checkpoints_of_filter, Hkept.
    rewrite filter_cons_True by apply startswith_checkpoint_name.
    rewrite length_app, length_drop. cbn. unfold k, evicted. lia.
  - rewrite filter_app. rewrite filter_cons_False.
    2:{ intros H. apply H. apply startswith_checkpoint_name. }
    rewrite filter_nil, app_nil_r, list_filter_filter.
    apply list_filter_iff. intros d. split; [tauto|]. intros Hd. split; [done|].
    intros Hin%subseteq_take. rewrite Hperm in Hin.
    by apply list_elem_of_filter in Hin as [? _].
  - apply NoDup_app. split; [by apply NoDup_filter|]. split; [|apply NoDup_singleton].
    by intros d Hd ->%list_elem_of_singleton.
Qed.

(** Under a limit that leaves no room the eviction removes every
    checkpoint, and the save then writes the new one. *)
Lemma save_without_room (limit : Z) (fs : directory) (g : nat) :
  (limit ≤ 0)%Z →
  well_formed (checkpoints_of fs) →
  ∃ fs', save_checkpoint (Some limit) g fs = (Val tt, fs') ∧
         checkpoints_of fs' = [checkpoint_name g].
Proof.
  intros Hl Hwf.
  destruct (sorted_by_step_spec (checkpoints_of fs) Hwf) as (s & Hs & Hperm & _).
  unfold save_checkpoint, bind, get, lift, modify, ret. rewrite Hs.
  rewrite decide_True by lia. rewrite rmtree_all.
  rewrite take_ge by lia.
  set (new := checkpoint_name g).
  assert (Hnew : new ∉ filter (λ d, d ∉ s) fs).
  { intros [Hns Hin]%list_elem_of_filter. apply Hns. rewrite Hperm.
    apply list_elem_of_filter. split; [apply startswith_checkpoint_name | done]. }
  eexists. split; [done|].
  unfold save_state. rewrite decide_False by done.
  unfold checkpoints_of at 1. rewrite filter_app.
  fold (checkpoints_of (filter (λ d, d ∉ s) fs)).
  rewrite checkpoints_of_filter, filter_none.
  - by rewrite filter_cons_True by apply startswith_checkpoint_name.
  - apply Forall_forall. intros d Hd Hnd. apply Hnd. by rewrite Hperm.
Qed.

(** Five saves at increasing steps under a limit of three, in an output
    directory that also holds the log directory. *)
Example five_saves_keep_three :
  save_all (Some 3%Z) [100; 200; 300; 400; 500]%nat ["logs"] =
    (Val tt, ["logs"; "checkpoint-300"; "checkpoint-400"; "checkpoint-500"]).
Proof. vm_compute. reflexivity. Qed.

(** Retention where the eviction has room.  A save under
    [--checkpoints_total_limit L] with [L ≥ 1], into a directory whose
    checkpoint names are well formed and carry steps below the new one:
    the sort and the save return; the checkpoints left after the save are,
    up to their order in the listing, the last entries of the ascending
    sequence "old checkpoints by step, then the new one" once its first
    [n + 1 - L] entries (the oldest) are dropped; so at most [L] remain;
    every other entry of the directory is untouched.  Five saves at steps
    100, ..., 500 under [L = 3] leave exactly the checkpoints of steps
    300, 400 and 500.  Under [L ≤ 0] every old checkpoint is evicted and
    the new one is the only checkpoint left. *)
Lemma checkpoint_retention :
  (∀ (limit : Z) (fs : directory) (g : nat),
     (1 ≤ limit)%Z →
     NoDup fs →
     (∀ d, d ∈ checkpoints_of fs → ∃ n, step_key d = Val n ∧ (n < g)%nat) →
     ∃ sorted fs',
       sorted_by_step (checkpoints_of fs) = Val sorted ∧
       save_checkpoint (Some limit) g fs = (Val tt, fs') ∧
       StronglySorted step_le (sorted ++ [checkpoint_name g]) ∧
       checkpoints_of fs' ≡ₚ
         drop (evicted limit (length sorted)) (sorted ++ [checkpoint_name g]) ∧
       (Z.of_nat (length (checkpoints_of fs')) ≤ limit)%Z ∧
       filter (λ d, startswith "checkpoint" d ≠ true) fs' =
         filter (λ d, startswith "checkpoint" d ≠ true) fs ∧
       NoDup fs')
  ∧ save_all (Some 3%Z) [100; 200; 300; 400; 500]%nat [] =
      (Val tt, ["checkpoint-300"; "checkpoint-400"; "checkpoint-500"])
  ∧ (∀ (limit : Z) (fs : directory) (g : nat),
       (limit ≤ 0)%Z →
       well_formed (checkpoints_of fs) →
       ∃ fs', save_checkpoint (Some limit) g fs = (Val tt, fs') ∧
              checkpoints_of fs' = [checkpoint_name g]).
Proof.
  split; [|split; [vm_compute; reflexivity|]].
  - intros limit fs g. apply save_one.
  - intros limit fs g. apply save_without_room.
Qed.

Lemma checkpoint_retention_witness :
  ∃ sorted fs',
    sorted_by_step
      (checkpoints_of ["checkpoint-200"; "logs"; "checkpoint-100"; "checkpoint-300"])
      = Val sorted ∧
    save_checkpoint (Some 3%Z) 400
      ["checkpoint-200"; "logs"; "checkpoint-100"; "checkpoint-300"] = (Val tt, fs') ∧
    StronglySorted step_le (sorted ++ [checkpoint_name 400]) ∧
    checkpoints_of fs' ≡ₚ
      drop (evicted 3 (length sorted)) (sorted ++ [checkpoint_name 400]) ∧
    (Z.of_nat (length (checkpoints_of fs')) ≤ 3)%Z ∧
    filter (λ d, startswith "checkpoint" d ≠ true) fs' =
      filter (λ d, startswith "checkpoint" d ≠ true)
        ["checkpoint-200"; "logs"; "checkpoint-100"; "checkpoint-300"] ∧
    NoDup fs'.
Proof.
  apply (proj1 checkpoint_retention 3%Z
           ["checkpoint-200"; "logs"; "checkpoint-100"; "checkpoint-300"] 400%nat).
  - lia.
  - compute_done.
  - intros d Hd. apply list_elem_of_In in Hd. vm_compute in Hd.
    destruct Hd as [<-|[<-|[<-|[]]]]; eexists; (split; [vm_compute; reflexivity | lia]).
Defined.

(** C3 on the code.  Under [--checkpoints_total_limit 0] the test of
    line 446 holds for every listing, the eviction removes every
    checkpoint, and the save of lines 459-460, which no test guards,
    still writes its checkpoint: launched on an output directory without
    checkpoints, the save at step 100 returns and leaves one checkpoint
    directory, more than the limit that the help text of the option
    ("Max number of checkpoints to store.") and the claim state. *)
Lemma checkpoint_limit_zero :
  save_checkpoint (Some 0%Z) 100 [] = (Val tt, ["checkpoint-100"]) ∧
  checkpoints_of ["checkpoint-100"] = ["checkpoint-100"] ∧
  ¬ (Z.of_nat (length (checkpoints_of ["checkpoint-100"])) ≤ 0)%Z.
Proof. split; [|split]; [vm_compute; reflexivity..|]. vm_compute. by intros H. Qed.

(** The eviction orders the checkpoints that are present and takes no
    account of the step of the save: a save at step 200 under a limit of
    two, into a directory that holds the checkpoints of the later steps
    300 and 500 (a run resumed from an earlier checkpoint by its path),
    removes the checkpoint of step 300 and leaves those of steps 500 and
    200. *)
Example save_below_present_steps :
  save_checkpoint (Some 2%Z) 200 ["checkpoint-300"; "checkpoint-500"] =
    (Val tt, ["checkpoint-500"; "checkpoint-200"]).
Proof. vm_compute. reflexivity. Qed.

(** *** Resume *)

(** C8.  Launched with [--resume_from_checkpoint latest] on an output
    directory none of whose entries starts with "checkpoint", the resume
    block returns normally: it prints the notice, clears the argument,
    loads nothing and leaves the global step, the initial global step and
    the first epoch at 0. *)
Theorem resume_latest_without_checkpoint
    (fs : directory) (num_update_steps_per_epoch : nat) :
  (∀ d, d ∈ fs → startswith "checkpoint" d = false) →
  resume (Some "latest") fs num_update_steps_per_epoch =
    Val {| printed :=
             ["Checkpoint 'latest' does not exist. Starting a new training run."];
           loaded := None;
           resume_from_checkpoint := None;
           global_step := 0;
           initial_global_step := 0;
           first_epoch := 0 |}.
Proof.
  intros Hfs. unfold resume.
  assert (checkpoints_of fs = []) as ->.
  { apply filter_none, Forall_forall. intros d Hd. rewrite (Hfs d Hd). done. }
  reflexivity.
Qed.

Lemma resume_latest_without_checkpoint_witness :
  resume (Some "latest") ["logs"; "unet"] 10 =
    Val {| printed :=
             ["Checkpoint 'latest' does not exist. Starting a new training run."];
           loaded := None;
           resume_from_checkpoint := None;
           global_step := 0;
           initial_global_step := 0;
           first_epoch := 0 |}.
Proof.
  apply (resume_latest_without_checkpoint ["logs"; "unet"] 10).
  intros d Hd. apply list_elem_of_In in Hd.
  destruct Hd as [<-|[<-|[]]]; reflexivity.
Defined.

(** *** Names that cannot be sorted *)

Lemma int_raises (s : string) (e : exn) : int s = Exc e → e = ValueError.
Proof.
  unfold int.
  destruct (match strip (list_ascii_of_string s) with
            | [] => _ | _ :: _ => _ end) as [negative body].
  destruct (numeral false body); [|by intros [= <-]].
  destruct (NilZero.uint_of_string _); [done | by intros [= <-]].
Qed.

Lemma step_key_raises (x : string) (e : exn) :
  step_key x = Exc e → e = IndexError ∨ e = ValueError.
Proof.
  unfold step_key. destruct (split "-" x !! 1%nat) as [piece|].
  - destruct (int piece) eqn:Hint; [done|]. intros [= <-].
    right. by eapply int_raises.
  - intros [= <-]. by left.
Qed.

Lemma keyed_raises (l : list string) (e : exn) :
  keyed l = Exc e → ∃ d, d ∈ l ∧ step_key d = Exc e.
Proof.
  induction l as [|x l IH]; [done|]. cbn.
  destruct (step_key x) as [k|e'] eqn:Hx.
  - destruct (keyed l) as [r|e'']; [done|]. intros [= <-].
    destruct IH as (d & Hd & He); [done|]. exists d. split; [by right | done].
  - intros [= <-]. exists x. split; [by left | done].
Qed.

Lemma keyed_returns (l : list string) (kl : list (nat * string)) :
  keyed l = Val kl → well_formed l.
Proof.
  revert kl. induction l as [|x l IH]; intros kl; cbn.
  - intros _ d Hd. by apply elem_of_nil in Hd.
  - destruct (step_key x) as [k|e'] eqn:Hx; [|done].
    destruct (keyed l) as [r|e'']; [|done]. intros _ d Hd.
    apply elem_of_cons in Hd as [->|Hd]; [eauto | by eapply IH].
Qed.

Lemma malformed_raises (l : list string) (d : string) (e0 : exn) :
  d ∈ l → step_key d = Exc e0 →
  ∃ e, sorted_by_step l = Exc e ∧ (e = IndexError ∨ e = ValueError).
Proof.
  intros Hd He. unfold sorted_by_step.
  destruct (keyed l) as [kl|e] eqn:Hk.
  - apply keyed_returns in Hk. destruct (Hk d Hd) as [n Hn]. congruence.
  - exists e. split; [done|].
    apply keyed_raises in Hk as (d' & _ & Hd'). by eapply step_key_raises.
Qed.

Lemma checkpoint_name_inj (g h : nat) :
  checkpoint_name g = checkpoint_name h → g = h.
Proof.
  intros Heq. pose proof (step_key_checkpoint_name g) as Hg.
  rewrite Heq, step_key_checkpoint_name in Hg. by injection Hg.
Qed.

(** *** Stability *)

Lemma insert_by_key_filter (n : nat) (x : nat * string) (l : list (nat * string)) :
  filter (λ p, p.1 = n) (insert_by_key x l) = filter (λ p, p.1 = n) (x :: l).
Proof.
  induction l as [|y l IH]; [done|]. cbn [insert_by_key].
  destruct (decide (x.1 ≤ y.1)%nat) as [|Hgt]; [done|].
  rewrite filter_cons, IH, !filter_cons.
  destruct (decide (y.1 = n)), (decide (x.1 = n)); try done. lia.
Qed.

Lemma sort_by_key_filter (n : nat) (l : list (nat * string)) :
  filter (λ p, p.1 = n) (sort_by_key l) = filter (λ p, p.1 = n) l.
Proof.
  induction l as [|x l IH]; [done|].
  cbn [sort_by_key foldr]. rewrite insert_by_key_filter.
  rewrite !filter_cons. fold (sort_by_key l). by rewrite IH.
Qed.

Lemma sorted_by_step_stable (l s : list string) (n : nat) :
  sorted_by_step l = Val s →
  filter (λ d, step_of d = n) s = filter (λ d, step_of d = n) l.
Proof.
  unfold sorted_by_step. destruct (keyed l) as [kl|] eqn:Hk; [|done].
  intros [= <-]. rewrite keyed_well_formed in Hk by (by eapply keyed_returns).
  injection Hk as <-.
  rewrite filter_fmap_comm.
  rewrite (filter_ext_Forall ((λ d, step_of d = n) ∘ snd) (λ p, p.1 = n)).
  - rewrite sort_by_key_filter, filter_fmap_comm, <- list_fmap_compose.
    by rewrite list_fmap_id.
  - rewrite sort_by_key_perm. apply Forall_fmap, Forall_forall. by intros.
Qed.

(** X2.  [sorted(dirs, key=lambda x: int(x.split("-")[1]))] on names whose
    key can be computed returns a rearrangement of the names in ascending
    order of their steps, and the sort is stable: for every step, the
    names that carry it come out in the order in which they were
    listed. *)
Theorem sorted_by_step_stable_sort (l : list string) :
  well_formed l →
  ∃ s, sorted_by_step l = Val s ∧ s ≡ₚ l ∧ StronglySorted step_le s ∧
       ∀ n, filter (λ d, step_of d = n) s = filter (λ d, step_of d = n) l.
Proof.
  intros Hwf. destruct (sorted_by_step_spec l Hwf) as (s & Hs & Hp & Hsorted).
  exists s. repeat split; try done. intros n. by apply sorted_by_step_stable.
Qed.


(** X3.  An entry of the output directory that starts with "checkpoint"
    and whose key [int(x.split("-")[1])] cannot be computed (no "-", or no
    numeral behind it) makes the sort raise, with [IndexError] or
    [ValueError]: a save under [--checkpoints_total_limit] raises before
    anything is removed or written, whatever the limit, and so does
    [--resume_from_checkpoint latest]; a save without a limit never sorts
    and writes its checkpoint. *)
Theorem malformed_name_blocks_limited_save
    (limit : Z) (g p : nat) (fs : directory) (d : string) (e0 : exn) :
  d ∈ fs → startswith "checkpoint" d = true → step_key d = Exc e0 →
  ∃ e, (e = IndexError ∨ e = ValueError) ∧
       save_checkpoint (Some limit) g fs = (Exc e, fs) ∧
       resume (Some "latest") fs p = Exc e ∧
       save_checkpoint None g fs = (Val tt, save_state (checkpoint_name g) fs).
Proof.
  intros Hd Hpre He.
  destruct (malformed_raises (checkpoints_of fs) d e0) as (e & Hs & Hcase);
    [by apply list_elem_of_filter | done |].
  exists e. split; [done|]. split; [|split; [|done]].
  - unfold save_checkpoint, bind, get, lift. by rewrite Hs.
  - unfold resume. by rewrite Hs.
Qed.

Lemma malformed_name_blocks_limited_save_witness :
  ∃ e, (e = IndexError ∨ e = ValueError) ∧
       save_checkpoint (Some 3%Z) 200 ["checkpoint-100"; "checkpoints"]
         = (Exc e, ["checkpoint-100"; "checkpoints"]) ∧
       resume (Some "latest") ["checkpoint-100"; "checkpoints"] 10 = Exc e ∧
       save_checkpoint None 200 ["checkpoint-100"; "checkpoints"]
         = (Val tt, save_state (checkpoint_name 200)
                      ["checkpoint-100"; "checkpoints"]).
Proof.
  apply (malformed_name_blocks_limited_save 3 200 10
           ["checkpoint-100"; "checkpoints"] "checkpoints" IndexError).
  - apply list_elem_of_In. simpl. tauto.
  - reflexivity.
  - reflexivity.
Defined.

(** *** Saves without a limit *)

(** X4.  Without [--checkpoints_total_limit] no entry is ever removed:
    after any sequence of saves the directory holds exactly its old
    entries and the saved checkpoints, the old entries in their old order
    in front, whatever the entries are named; a listing without
    duplicates stays so. *)
Theorem unlimited_saves_keep_everything (steps : list nat) (fs : directory) :
  ∃ fs', save_all None steps fs = (Val tt, fs') ∧
         (∀ d, d ∈ fs' ↔ d ∈ fs ∨ ∃ g, g ∈ steps ∧ d = checkpoint_name g) ∧
         fs `prefix_of` fs' ∧
         (NoDup fs → NoDup fs').
Proof.
  revert fs. induction steps as [|g steps IH]; intros fs.
  - exists fs. split; [done|]. split; [|done].
    intros d. split; [by left|]. intros [?|(g & Hg & _)]; [done|].
    by apply elem_of_nil in Hg.
  - destruct (IH (save_state (checkpoint_name g) fs))
      as (fs' & Hrun & Hmem & Hpre & Hnd).
    exists fs'. split; [exact Hrun|].
    assert (Hin : ∀ d, d ∈ save_state (checkpoint_name g) fs ↔
                       d ∈ fs ∨ d = checkpoint_name g).
    { intros d. unfold save_state. destruct (decide (checkpoint_name g ∈ fs)).
      - split; [by left|]. by intros [?| ->].
      - rewrite elem_of_app, list_elem_of_singleton. done. }
    split; [|split].
    + intros d. rewrite Hmem, Hin. split.
      * intros [[?| ->]|(h & Hh & ->)]; [by left| |].
        -- right. exists g. split; [left | done].
        -- right. exists h. split; [by right | done].
      * intros [?|(h & Hh & ->)]; [by left; left|].
        apply elem_of_cons in Hh as [->|Hh]; [by left; right|].
        right. by exists h.
    + etrans; [|exact Hpre]. unfold save_state.
      destruct (decide (checkpoint_name g ∈ fs)); [done|]. by apply prefix_app_r.
    + intros Hfs. apply Hnd. unfold save_state.
      destruct (decide (checkpoint_name g ∈ fs)) as [|Hnew]; [done|].
      apply NoDup_app. split; [done|]. split; [|apply NoDup_singleton].
      by intros d Hd ->%list_elem_of_singleton.
Qed.


(** *** Successive saves under a limit *)

Lemma sort_by_key_sorted_id (l : list (nat * string)) :
  StronglySorted key_le l → sort_by_key l = l.
Proof.
  induction 1 as [|x l Hl IH Hx]; [done|].
  cbn [sort_by_key foldr]. fold (sort_by_key l). rewrite IH.
  destruct Hx as [|y l' Hy _]; [done|].
  cbn. by rewrite decide_True.
Qed.

Lemma keyed_names (ks : list nat) :
  keyed (checkpoint_name <$> ks) = Val ((λ k, (k, checkpoint_name k)) <$> ks).
Proof.
  induction ks as [|k ks IH]; [done|].
  cbn [fmap list_fmap keyed]. fold (fmap (M := list) checkpoint_name ks).
  by rewrite step_key_checkpoint_name, IH.
Qed.

Lemma sorted_names (ks : list nat) :
  StronglySorted lt ks →
  sorted_by_step (checkpoint_name <$> ks) = Val (checkpoint_name <$> ks).
Proof.
  intros Hks. unfold sorted_by_step. rewrite keyed_names.
  rewrite sort_by_key_sorted_id.
  - by rewrite <- list_fmap_compose.
  - induction Hks as [|k ks _ IH Hk]; [constructor|].
    cbn. constructor; [done|].
    apply Forall_fmap. eapply Forall_impl; [exact Hk|].
    unfold key_le. cbn. intros; lia.
Qed.

Lemma checkpoints_of_names (others : list string) (ks : list nat) :
  Forall (λ d, startswith "checkpoint" d = false) others →
  checkpoints_of (others ++ (checkpoint_name <$> ks)) = checkpoint_name <$> ks.
Proof.
  intros Ho. unfold checkpoints_of. rewrite filter_app.
  rewrite filter_none, filter_all; [done|..].
  - apply Forall_fmap, Forall_forall. intros k _. apply startswith_checkpoint_name.
  - eapply Forall_impl; [exact Ho|]. cbn. intros d ->. done.
Qed.

Lemma sorted_lt_NoDup (ks : list nat) : StronglySorted lt ks → NoDup ks.
Proof.
  induction 1 as [|k ks _ IH Hk]; [constructor|].
  constructor; [|done]. intros Hin.
  rewrite Forall_forall in Hk. specialize (Hk k Hin). lia.
Qed.

(** One save into a directory whose checkpoints are the names of an
    increasing list of steps, listed in that order behind the other
    entries. *)
Lemma save_sorted (limit : Z) (others : list string) (ks : list nat) (g : nat) :
  (1 ≤ limit)%Z →
  Forall (λ d, startswith "checkpoint" d = false) others →
  StronglySorted lt (ks ++ [g]) →
  save_checkpoint (Some limit) g (others ++ (checkpoint_name <$> ks)) =
    (Val tt, others ++ (checkpoint_name <$>
                          drop (evicted limit (length ks)) (ks ++ [g]))).
Proof.
  intros Hl Ho Hs.
  assert (Hks : StronglySorted lt ks).
  { by apply StronglySorted_app_1_l in Hs. }
  assert (Hg : Forall (λ k, k < g)%nat ks).
  { apply Forall_forall. intros k Hk.
    apply (StronglySorted_app_1_elem_of _ _ _ k g) in Hs; [done|done|by left]. }
  rewrite (save_checkpoint_run limit g _ (checkpoint_name <$> ks)); [|done|].
  2:{ rewrite checkpoints_of_names by done. by apply sorted_names. }
  f_equal. rewrite length_fmap.
  set (k := evicted limit (length ks)).
  assert (Hk : (k ≤ length ks)%nat) by (unfold k, evicted; lia).
  rewrite filter_app.
  rewrite filter_all.
  2:{ eapply Forall_impl; [exact Ho|]. cbn. intros d Hd Hin%subseteq_take.
      apply list_elem_of_fmap in Hin as (h & -> & _).
      by rewrite startswith_checkpoint_name in Hd. }
  rewrite <- fmap_take.
  assert (filter (λ d, d ∉ checkpoint_name <$> take k ks) (checkpoint_name <$> ks)
          = checkpoint_name <$> drop k ks) as ->.
  { replace (checkpoint_name <$> ks)
      with ((checkpoint_name <$> take k ks) ++ (checkpoint_name <$> drop k ks))
      by (by rewrite <- fmap_app, take_drop).
    rewrite filter_app.
    rewrite filter_none, filter_all; [done|..].
    - apply Forall_fmap, Forall_forall. intros h Hh. cbn.
      intros (h' & Heq & Hh')%list_elem_of_fmap.
      apply checkpoint_name_inj in Heq as <-.
      pose proof (sorted_lt_NoDup ks Hks) as Hnd.
      rewrite <- (take_drop k ks) in Hnd.
      apply NoDup_app in Hnd as (_ & Hdis & _). by apply (Hdis h).
    - apply Forall_fmap, Forall_forall. intros h Hh. cbn. intros Hn. apply Hn.
      apply list_elem_of_fmap. eauto. }
  unfold save_state. rewrite decide_False.
  - rewrite drop_app_le by done. by rewrite fmap_app, app_assoc.
  - rewrite elem_of_app. intros [Hin|Hin].
    + rewrite Forall_forall in Ho. specialize (Ho _ Hin).
      by rewrite startswith_checkpoint_name in Ho.
    + apply list_elem_of_fmap in Hin as (h & Heq & Hh).
      apply checkpoint_name_inj in Heq as <-.
      apply subseteq_drop in Hh. rewrite Forall_forall in Hg.
      specialize (Hg _ Hh). lia.
Qed.

Lemma save_all_sorted (limit : Z) (others : list string) (steps ks : list nat) :
  (1 ≤ limit)%Z →
  Forall (λ d, startswith "checkpoint" d = false) others →
  StronglySorted lt (ks ++ steps) →
  (length ks ≤ Z.to_nat limit)%nat →
  save_all (Some limit) steps (others ++ (checkpoint_name <$> ks)) =
    (Val tt, others ++ (checkpoint_name <$>
                          drop (length (ks ++ steps) - Z.to_nat limit) (ks ++ steps))).
Proof.
  intros Hl Ho. revert ks. induction steps as [|g steps IH]; intros ks Hs Hlen.
  - cbn [save_all]. unfold ret. rewrite app_nil_r.
    by replace (length ks - Z.to_nat limit)%nat with 0%nat by lia.
  - cbn [save_all]. unfold bind.
    assert (Hs' : StronglySorted lt ((ks ++ [g]) ++ steps))
      by (by rewrite <- (assoc_L (++))).
    rewrite save_sorted; [|done|done|by apply StronglySorted_app_1_l in Hs'].
    set (k := evicted limit (length ks)).
    assert (Hk : (k ≤ length ks)%nat) by (unfold k, evicted; lia).
    rewrite drop_app_le by done.
    assert (Hsplit : ks ++ g :: steps = take k ks ++ (drop k ks ++ [g]) ++ steps).
    { rewrite <- (take_drop k ks) at 1. by rewrite <- !(assoc_L (++)). }
    rewrite IH.
    + do 3 f_equal. rewrite Hsplit.
      symmetry. rewrite drop_app_ge.
      * f_equal. rewrite !length_app, length_take, length_drop. cbn.
        unfold k, evicted in *. lia.
      * rewrite !length_app, length_take, length_drop. cbn.
        unfold k, evicted in *. lia.
    + rewrite Hsplit in Hs. by apply StronglySorted_app_1_r in Hs.
    + rewrite length_app, length_drop. cbn. unfold k, evicted. lia.
Qed.

(** X5.  Successive saves at increasing steps under a limit [L ≥ 1], into
    a directory that holds no checkpoint yet: whatever the number of
    saves, the directory ends with its other entries untouched, followed
    by the checkpoints of the last [L] steps in ascending order (of all
    the steps when there are fewer than [L]). *)
Theorem successive_saves_keep_latest
    (limit : Z) (others : list string) (steps : list nat) :
  (1 ≤ limit)%Z →
  Forall (λ d, startswith "checkpoint" d = false) others →
  StronglySorted lt steps →
  save_all (Some limit) steps others =
    (Val tt, others ++ (checkpoint_name <$>
                          drop (length steps - Z.to_nat limit) steps)).
Proof.
  intros Hl Ho Hs.
  pose proof (save_all_sorted limit others steps [] Hl Ho Hs) as H.
  rewrite app_nil_r in H. apply H. cbn. lia.
Qed.


Lemma successive_saves_keep_latest_witness :
  save_all (Some 2%Z) [10; 20; 30]%nat ["logs"] =
    (Val tt, ["logs"] ++ (checkpoint_name <$>
                            drop (length [10; 20; 30]%nat - Z.to_nat 2)
                                 [10; 20; 30]%nat)).
Proof.
  apply (successive_saves_keep_latest 2 ["logs"] [10; 20; 30]%nat).
  - lia.
  - repeat constructor.
  - repeat (apply SSorted_cons || apply SSorted_nil
            || apply Forall_cons_2 || apply Forall_nil_2 || lia).
Defined.

(** *** Resume from the latest checkpoint *)

Lemma last_sorted_max {A} (R : relation A) `{!Reflexive R} (s : list A) (m : A) :
  StronglySorted R s → last s = Some m → Forall (λ d, R d m) s.
Proof.
  induction 1 as [|x l Hl IH Hx]; [done|].
  rewrite last_cons. destruct (last l) as [y|] eqn:Hlast.
  - intros [= ->]. constructor; [|by apply IH].
    rewrite Forall_forall in Hx. apply Hx. by apply last_Some_elem_of.
  - intros [= ->]. apply last_None in Hlast as ->. by repeat constructor.
Qed.

Lemma resume_latest_loads (fs : directory) (p : nat) :
  well_formed (checkpoints_of fs) → checkpoints_of fs ≠ [] → p ≠ 0%nat →
  ∃ path,
    resume (Some "latest") fs p =
      Val {| printed := ["Resuming from checkpoint " +:+ path];
             loaded := Some path;
             resume_from_checkpoint := Some "latest";
             global_step := step_of path;
             initial_global_step := step_of path;
             first_epoch := (step_of path / p)%nat |} ∧
    path ∈ checkpoints_of fs ∧
    ∀ d, d ∈ checkpoints_of fs → (step_of d ≤ step_of path)%nat.
Proof.
  intros Hwf Hne Hp.
  destruct (sorted_by_step_spec _ Hwf) as (s & Hs & Hperm & Hsorted).
  destruct (last s) as [path|] eqn:Hlast.
  2:{ apply last_None in Hlast as ->. apply Permutation_nil_l in Hperm. done. }
  assert (Hin : path ∈ checkpoints_of fs).
  { rewrite <- Hperm. by apply last_Some_elem_of. }
  exists path. split; [|split; [done|]].
  - unfold resume. rewrite Hs, Hlast.
    destruct (decide ("latest" ≠ "latest")) as [?|_]; [done|].
    unfold load_state. rewrite decide_True.
    2:{ by apply list_elem_of_filter in Hin as [_ ?]. }
    destruct (Hwf path Hin) as [n Hn]. unfold step_of. rewrite Hn.
    unfold floordiv. by rewrite decide_False.
  - intros d Hd. rewrite <- Hperm in Hd.
    assert (Hrefl : Reflexive step_le) by (intros x; unfold step_le; lia).
    pose proof (last_sorted_max step_le s path Hsorted Hlast) as Hmax.
    rewrite Forall_forall in Hmax. by apply Hmax.
Qed.

(** X6.  [--resume_from_checkpoint latest] on a directory that holds
    checkpoints with well-formed names, with at least one update step per
    epoch: the block loads a checkpoint whose step is the greatest among
    those in the directory, sets the global step and the initial global
    step to it, and the first epoch to [step // num_update_steps_per_epoch];
    the argument is kept. *)
Theorem resume_latest_picks_greatest_step (fs : directory) (p : nat) :
  well_formed (checkpoints_of fs) → checkpoints_of fs ≠ [] → p ≠ 0%nat →
  ∃ path,
    resume (Some "latest") fs p =
      Val {| printed := ["Resuming from checkpoint " +:+ path];
             loaded := Some path;
             resume_from_checkpoint := Some "latest";
             global_step := step_of path;
             initial_global_step := step_of path;
             first_epoch := (step_of path / p)%nat |} ∧
    path ∈ checkpoints_of fs ∧
    ∀ d, d ∈ checkpoints_of fs → (step_of d ≤ step_of path)%nat.
Proof. apply resume_latest_loads. Qed.

Lemma resume_latest_picks_greatest_step_witness :
  ∃ path,
    resume (Some "latest") ["checkpoint-900"; "logs"; "checkpoint-1000"; "checkpoint-80"] 30 =
      Val {| printed := ["Resuming from checkpoint " +:+ path];
             loaded := Some path;
             resume_from_checkpoint := Some "latest";
             global_step := step_of path;
             initial_global_step := step_of path;
             first_epoch := (step_of path / 30)%nat |} ∧
    path ∈ checkpoints_of ["checkpoint-900"; "logs"; "checkpoint-1000"; "checkpoint-80"] ∧
    ∀ d, d ∈ checkpoints_of ["checkpoint-900"; "logs"; "checkpoint-1000"; "checkpoint-80"] →
         (step_of d ≤ step_of path)%nat.
Proof.
  apply (resume_latest_picks_greatest_step
           ["checkpoint-900"; "logs"; "checkpoint-1000"; "checkpoint-80"] 30).
  - intros d Hd. apply list_elem_of_In in Hd. vm_compute in Hd.
    destruct Hd as [<-|[<-|[<-|[]]]]; eexists; vm_compute; reflexivity.
  - vm_compute. discriminate.
  - lia.
Defined.

Example resume_latest_run :
  resume (Some "latest") ["checkpoint-900"; "logs"; "checkpoint-1000"; "checkpoint-80"] 30 =
    Val {| printed := ["Resuming from checkpoint checkpoint-1000"];
           loaded := Some "checkpoint-1000";
           resume_from_checkpoint := Some "latest";
           global_step := 1000; initial_global_step := 1000; first_epoch := 33 |}.
Proof. vm_compute. reflexivity. Qed.


(** *** Resume from a given path *)

Lemma split_nonempty (sep : ascii) (s : string) : split sep s ≠ [].
Proof.
  destruct s as [|c s]; [done|]. cbn.
  destruct (decide (c = sep)); [done|]. by destruct (split sep s).
Qed.

Lemma split_app (sep : ascii) (a b : string) :
  split sep (a +:+ String sep b) = split sep a ++ split sep b.
Proof.
  induction a as [|c a IH].
  - change ("" +:+ String sep b) with (String sep b).
    cbn [split]. by rewrite decide_True.
  - change (String c a +:+ String sep b) with (String c (a +:+ String sep b)).
    cbn [split]. rewrite IH.
    destruct (decide (c = sep)); [done|].
    pose proof (split_nonempty sep a). by destruct (split sep a).
Qed.

Lemma checkpoint_name_no_slash (g : nat) :
  ∀ c, c ∈ list_ascii_of_string (checkpoint_name g) → c ≠ "/"%char.
Proof.
  intros c Hc ->. unfold checkpoint_name in Hc.
  cbv [String.append] in Hc. cbn [list_ascii_of_string] in Hc.
  repeat (apply elem_of_cons in Hc as [Hc|Hc]; [done|]).
  pose proof (str_digits g) as Hd. rewrite Forall_forall in Hd.
  specialize (Hd _ Hc). unfold is_digit in Hd. vm_compute in Hd. lia.
Qed.

Lemma basename_checkpoint_name (g : nat) :
  basename (checkpoint_name g) = checkpoint_name g.
Proof.
  unfold basename. rewrite split_no_sep; [done|]. apply checkpoint_name_no_slash.
Qed.

Lemma basename_join (dir : string) (g : nat) :
  basename (dir +:+ "/" +:+ checkpoint_name g) = checkpoint_name g.
Proof.
  unfold basename.
  change ("/" +:+ checkpoint_name g) with (String "/" (checkpoint_name g)).
  rewrite split_app, (split_no_sep "/" (checkpoint_name g))
    by apply checkpoint_name_no_slash.
  by rewrite last_snoc.
Qed.

(** The resume block on an argument that is neither empty nor "latest". *)
Lemma resume_path (a : string) (fs : directory) (p : nat) :
  a ≠ "" → a ≠ "latest" →
  resume (Some a) fs p =
    match load_state fs (basename a) with
    | Exc e => Exc e
    | Val _ =>
        match step_key (basename a) with
        | Exc e => Exc e
        | Val g =>
            match floordiv g p with
            | Exc e => Exc e
            | Val fe =>
                Val {| printed := ["Resuming from checkpoint " +:+ basename a];
                       loaded := Some (basename a);
                       resume_from_checkpoint := Some a;
                       global_step := g;
                       initial_global_step := g;
                       first_epoch := fe |}
            end
        end
    end.
Proof.
  intros Hne Hlatest. destruct a as [|c a]; [done|].
  unfold resume. by rewrite decide_True.
Qed.

Lemma resume_checkpoint_path (a : string) (g p : nat) (fs : directory) :
  basename a = checkpoint_name g → p ≠ 0%nat →
  (checkpoint_name g ∈ fs →
   resume (Some a) fs p =
     Val {| printed := ["Resuming from checkpoint " +:+ checkpoint_name g];
            loaded := Some (checkpoint_name g);
            resume_from_checkpoint := Some a;
            global_step := g;
            initial_global_step := g;
            first_epoch := (g / p)%nat |}) ∧
  (checkpoint_name g ∉ fs → resume (Some a) fs p = Exc ValueError).
Proof.
  intros Hbase Hp.
  assert (Hc : checkpoint_name g = String "c" ("heckpoint-" +:+ str g)) by done.
  assert (a ≠ "") as Hne.
  { intros ->. rewrite Hc in Hbase. done. }
  assert (a ≠ "latest") as Hlatest.
  { intros ->. rewrite Hc in Hbase. done. }
  rewrite (resume_path a fs p Hne Hlatest), Hbase.
  unfold load_state. split; intros Hin.
  - rewrite decide_True by done. rewrite step_key_checkpoint_name.
    unfold floordiv. by rewrite decide_False.
  - by rewrite decide_False.
Qed.

(** X7.  A path given to [--resume_from_checkpoint] is reduced to its
    base name and looked up in the output directory: the directory part
    of the argument is not read.  When the output directory holds
    [checkpoint-g], resuming from [dir/checkpoint-g] (any [dir]) or from
    the bare name loads that checkpoint with global step [g] and first
    epoch [g // num_update_steps_per_epoch]; when it does not,
    [load_state] raises [ValueError]. *)
Theorem resume_explicit_path_uses_basename
    (dir : string) (g p : nat) (fs : directory) :
  p ≠ 0%nat →
  (checkpoint_name g ∈ fs →
   resume (Some (dir +:+ "/" +:+ checkpoint_name g)) fs p =
     Val {| printed := ["Resuming from checkpoint " +:+ checkpoint_name g];
            loaded := Some (checkpoint_name g);
            resume_from_checkpoint := Some (dir +:+ "/" +:+ checkpoint_name g);
            global_step := g;
            initial_global_step := g;
            first_epoch := (g / p)%nat |}) ∧
  (checkpoint_name g ∉ fs →
   resume (Some (dir +:+ "/" +:+ checkpoint_name g)) fs p = Exc ValueError) ∧
  (checkpoint_name g ∈ fs →
   resume (Some (checkpoint_name g)) fs p =
     Val {| printed := ["Resuming from checkpoint " +:+ checkpoint_name g];
            loaded := Some (checkpoint_name g);
            resume_from_checkpoint := Some (checkpoint_name g);
            global_step := g;
            initial_global_step := g;
            first_epoch := (g / p)%nat |}).
Proof.
  intros Hp.
  destruct (resume_checkpoint_path _ g p fs (basename_join dir g) Hp) as [H1 H2].
  destruct (resume_checkpoint_path _ g p fs (basename_checkpoint_name g) Hp)
    as [H3 _].
  done.
Qed.

Lemma resume_explicit_path_uses_basename_witness :
  (checkpoint_name 500 ∈ ["logs"; "checkpoint-500"] →
   resume (Some ("runs/old" +:+ "/" +:+ checkpoint_name 500))
          ["logs"; "checkpoint-500"] 40 =
     Val {| printed := ["Resuming from checkpoint " +:+ checkpoint_name 500];
            loaded := Some (checkpoint_name 500);
            resume_from_checkpoint := Some ("runs/old" +:+ "/" +:+ checkpoint_name 500);
            global_step := 500;
            initial_global_step := 500;
            first_epoch := (500 / 40)%nat |}) ∧
  (checkpoint_name 500 ∉ ["logs"; "checkpoint-500"] →
   resume (Some ("runs/old" +:+ "/" +:+ checkpoint_name 500))
          ["logs"; "checkpoint-500"] 40 = Exc ValueError) ∧
  (checkpoint_name 500 ∈ ["logs"; "checkpoint-500"] →
   resume (Some (checkpoint_name 500)) ["logs"; "checkpoint-500"] 40 =
     Val {| printed := ["Resuming from checkpoint " +:+ checkpoint_name 500];
            loaded := Some (checkpoint_name 500);
            resume_from_checkpoint := Some (checkpoint_name 500);
            global_step := 500;
            initial_global_step := 500;
            first_epoch := (500 / 40)%nat |}).
Proof.
  apply (resume_explicit_path_uses_basename "runs/old" 500 40
           ["logs"; "checkpoint-500"]).
  lia.
Defined.

Example resume_explicit_path_run :
  resume (Some "runs/old/checkpoint-500") ["logs"; "checkpoint-500"] 40 =
    Val {| printed := ["Resuming from checkpoint checkpoint-500"];
           loaded := Some "checkpoint-500";
           resume_from_checkpoint := Some "runs/old/checkpoint-500";
           global_step := 500; initial_global_step := 500; first_epoch := 12 |}
  ∧ resume (Some "runs/old/checkpoint-500") ["logs"; "checkpoint-400"] 40 =
      Exc ValueError.
Proof. split; vm_compute; reflexivity. Qed.


(** *** A save followed by a resume *)

(** Whatever the limit, a save into a directory whose checkpoints carry
    smaller steps returns, and the checkpoints left are the new one and
    some of the old ones. *)
Lemma save_checkpoint_members (limit : option Z) (fs : directory) (g : nat) :
  NoDup fs →
  (∀ d, d ∈ checkpoints_of fs → ∃ n, step_key d = Val n ∧ (n < g)%nat) →
  ∃ fs', save_checkpoint limit g fs = (Val tt, fs') ∧
         checkpoint_name g ∈ checkpoints_of fs' ∧
         ∀ d, d ∈ checkpoints_of fs' →
              d = checkpoint_name g ∨ d ∈ checkpoints_of fs.
Proof.
  intros Hnd Hold.
  assert (Hwf : well_formed (checkpoints_of fs)).
  { intros d Hd. destruct (Hold d Hd) as (n & Hn & _). eauto. }
  destruct limit as [limit|].
  - destruct (decide (1 ≤ limit)%Z) as [Hl|Hl].
    + destruct (save_one limit fs g Hl Hnd Hold)
        as (s & fs' & Hs & Hrun & _ & Hperm & _).
      destruct (sorted_by_step_spec _ Hwf) as (s' & Hs' & Hp' & _).
      assert (s' = s) as -> by congruence.
      exists fs'. split; [done|].
      assert (Hk : (evicted limit (length s) ≤ length s)%nat)
        by (unfold evicted; lia).
      split.
      * rewrite Hperm, drop_app_le by done. rewrite elem_of_app. right. by left.
      * intros d Hd. rewrite Hperm in Hd. apply subseteq_drop in Hd.
        apply elem_of_app in Hd as [Hd|Hd%list_elem_of_singleton];
          [right; by rewrite <- Hp' | by left].
    + destruct (save_without_room limit fs g ltac:(lia) Hwf) as (fs' & Hrun & Hc).
      exists fs'. split; [done|]. rewrite Hc. split; [by left|].
      intros d Hd%list_elem_of_singleton. by left.
  - eexists. split; [reflexivity|].
    unfold save_state. destruct (decide (checkpoint_name g ∈ fs)) as [Hin|Hnew].
    + split; [|by right]. apply list_elem_of_filter.
      split; [apply startswith_checkpoint_name | done].
    + unfold checkpoints_of at 1 2. rewrite filter_app.
      fold (checkpoints_of fs).
      rewrite filter_cons_True by apply startswith_checkpoint_name.
      split.
      * rewrite elem_of_app. right. by left.
      * intros d [Hd|Hd%list_elem_of_singleton]%elem_of_app; [by right | by left].
Qed.

(** X8.  A save at step [g] into a directory whose checkpoints carry
    smaller steps, followed by [--resume_from_checkpoint latest]: whatever
    the limit ([None], positive or not), the save returns and the resume
    block loads [checkpoint-g], with global step [g] and first epoch
    [g // num_update_steps_per_epoch]. *)
Theorem resume_after_save
    (limit : option Z) (fs : directory) (g p : nat) :
  NoDup fs →
  (∀ d, d ∈ checkpoints_of fs → ∃ n, step_key d = Val n ∧ (n < g)%nat) →
  p ≠ 0%nat →
  ∃ fs',
    save_checkpoint limit g fs = (Val tt, fs') ∧
    resume (Some "latest") fs' p =
      Val {| printed := ["Resuming from checkpoint " +:+ checkpoint_name g];
             loaded := Some (checkpoint_name g);
             resume_from_checkpoint := Some "latest";
             global_step := g;
             initial_global_step := g;
             first_epoch := (g / p)%nat |}.
Proof.
  intros Hnd Hold Hp.
  destruct (save_checkpoint_members limit fs g Hnd Hold)
    as (fs' & Hrun & Hnew & Hmem).
  exists fs'. split; [done|].
  assert (Hstep : step_of (checkpoint_name g) = g).
  { unfold step_of. by rewrite step_key_checkpoint_name. }
  destruct (resume_latest_loads fs' p) as (path & Hres & Hin & Hmax).
  - intros d Hd. destruct (Hmem d Hd) as [->|Hd'].
    + exists g. apply step_key_checkpoint_name.
    + destruct (Hold d Hd') as (n & Hn & _). eauto.
  - intros Hnil. rewrite Hnil in Hnew. by apply elem_of_nil in Hnew.
  - done.
  - assert (path = checkpoint_name g) as ->.
    { destruct (Hmem path Hin) as [->|Hin']; [done|].
      destruct (Hold path Hin') as (n & Hn & Hlt).
      specialize (Hmax _ Hnew). rewrite Hstep in Hmax.
      unfold step_of in Hmax. rewrite Hn in Hmax. lia. }
    by rewrite Hstep in Hres.
Qed.

Lemma resume_after_save_witness :
  ∃ fs',
    save_checkpoint (Some 2%Z) 300 ["checkpoint-100"; "logs"; "checkpoint-200"]
      = (Val tt, fs') ∧
    resume (Some "latest") fs' 7 =
      Val {| printed := ["Resuming from checkpoint " +:+ checkpoint_name 300];
             loaded := Some (checkpoint_name 300);
             resume_from_checkpoint := Some "latest";
             global_step := 300;
             initial_global_step := 300;
             first_epoch := (300 / 7)%nat |}.
Proof.
  apply (resume_after_save (Some 2%Z)
           ["checkpoint-100"; "logs"; "checkpoint-200"] 300 7).
  - compute_done.
  - intros d Hd. apply list_elem_of_In in Hd. vm_compute in Hd.
    destruct Hd as [<-|[<-|[]]]; eexists; (split; [vm_compute; reflexivity | lia]).
  - lia.
Defined.

(** X1.  The name [f"checkpoint-{global_step}"] under which a state is
    saved and the key [int(x.split("-")[1])] by which the saved states are
    sorted and resumed are inverse to each other: the key of the name of
    step [g] is [g]; the name passes the ["checkpoint"] filter, is its own
    base name, and names of different steps differ. *)
Theorem checkpoint_name_round_trip (g h : nat) :
  step_key (checkpoint_name g) = Val g ∧
  step_of (checkpoint_name g) = g ∧
  startswith "checkpoint" (checkpoint_name g) = true ∧
  basename (checkpoint_name g) = checkpoint_name g ∧
  (checkpoint_name g = checkpoint_name h ↔ g = h).
Proof.
  split; [apply step_key_checkpoint_name|].
  split; [unfold step_of; by rewrite step_key_checkpoint_name|].
  split; [apply startswith_checkpoint_name|].
  split; [apply basename_checkpoint_name|].
  split; [apply checkpoint_name_inj | by intros ->].
Qed.

Lemma sorted_by_step_stable_sort_witness :
  ∃ s, sorted_by_step ["checkpoint-20"; "checkpoint-3"; "checkpoint-03"] = Val s ∧
       s ≡ₚ ["checkpoint-20"; "checkpoint-3"; "checkpoint-03"] ∧
       StronglySorted step_le s ∧
       ∀ n, filter (λ d, step_of d = n) s =
            filter (λ d, step_of d = n)
              ["checkpoint-20"; "checkpoint-3"; "checkpoint-03"].
Proof.
  apply (sorted_by_step_stable_sort ["checkpoint-20"; "checkpoint-3"; "checkpoint-03"]).
  intros d Hd. apply list_elem_of_In in Hd.
  destruct Hd as [<-|[<-|[<-|[]]]]; eexists; vm_compute; reflexivity.
Defined.

Example sorted_by_step_run :
  sorted_by_step ["checkpoint-20"; "checkpoint-3"; "checkpoint-03"] =
    Val ["checkpoint-3"; "checkpoint-03"; "checkpoint-20"].
Proof. vm_compute. reflexivity. Qed.

End CheckpointsFacts.

Module TrainLoopFacts.
Import Py TrainLoop.


(** An epoch entered with the budget used up still runs its first batch:
    the check of line 468 sits at the end of the loop body. *)
Lemma epoch_after_budget (cfg : config) (budget epoch : nat) (st : loop_state) :
  (budget ≤ global_step st)%nat →
  (0 < num_batches cfg)%nat →
  ∃ sync,
    executed (inner cfg budget epoch (seq 0 (num_batches cfg)) st) =
      executed st ++ [{| at_epoch := epoch; at_step := 0;
                         global_step_before := global_step st;
                         synced := sync |}] ∧
    global_step (inner cfg budget epoch (seq 0 (num_batches cfg)) st) =
      if sync then S (global_step st) else global_step st.
Proof.
  intros Hb Hn. destruct (num_batches cfg) as [|n] eqn:En; [lia|].
  cbn [seq inner]. unfold pass.
  destruct (do_sync cfg 0 st) as [sync acc]. exists sync.
  rewrite bool_decide_eq_true_2 by (destruct sync; lia).
  done.
Qed.

(** *** A run that starts at step 0 stays within the budget *)


Lemma div_succ_exact (i k : nat) :
  k ≠ 0%nat → (S i `mod` k = 0)%nat → (S i / k = S (i / k))%nat.
Proof.
  intros Hk Hm.
  pose proof (Nat.div_mod_eq (S i) k) as H1.
  pose proof (Nat.div_mod_eq i k) as H2.
  pose proof (Nat.mod_upper_bound i k Hk) as H3.
  rewrite Hm in H1. nia.
Qed.

Lemma div_succ_le (i k : nat) : (i / k ≤ S i / k)%nat.
Proof.
  destruct k as [|k]; [done|].
  apply Nat.Div0.div_le_mono. lia.
Qed.

Lemma ceil_as_last (n k : nat) :
  k ≠ 0%nat → (0 < n)%nat → ((n + k - 1) / k = S ((n - 1) / k))%nat.
Proof.
  intros Hk Hn. replace (n + k - 1)%nat with ((n - 1) + 1 * k)%nat by lia.
  rewrite Nat.div_add by done. lia.
Qed.

(** The rest of an epoch, from batch [i] on, entered below the budget with
    the accelerator's counter at [i]: every pass begins below the budget,
    at most [ceil(n / k)] synchronisations happen in the whole epoch, and
    an epoch that ends below the budget has reset the counter. *)
Lemma inner_within (cfg : config) (budget epoch g0 : nat) (m i : nat)
    (st : loop_state) :
  gradient_accumulation_steps cfg ≠ 0%nat →
  (i + S m = num_batches cfg)%nat →
  accumulated st = i →
  (global_step st ≤ g0 + i / gradient_accumulation_steps cfg)%nat →
  (global_step st < budget)%nat →
  within budget st →
  let st' := inner cfg budget epoch (seq i (S m)) st in
  within budget st' ∧
  (global_step st' ≤
     g0 + S ((num_batches cfg - 1) / gradient_accumulation_steps cfg))%nat ∧
  ((global_step st' < budget)%nat → accumulated st' = 0%nat).
Proof.
  intros Hk. revert i st.
  induction m as [|m IH]; intros i st Hn Hacc Hg Hlt Hin; cbn zeta.
  - cbn [seq inner]. unfold pass, do_sync.
    rewrite decide_True by lia.
    assert (i = num_batches cfg - 1)%nat as Hi by lia. rewrite <- Hi.
    destruct (bool_decide _); cbn; (split; [|split; [lia|done]]);
      (apply Forall_app; split; [done|]; by repeat constructor).
  - cbn [seq inner]. unfold pass, do_sync.
    rewrite decide_False by lia. rewrite Hacc.
    set (k := gradient_accumulation_steps cfg) in *.
    destruct (bool_decide (S i `mod` k = 0)%nat) eqn:Hsync.
    + apply bool_decide_eq_true in Hsync.
      pose proof (div_succ_exact i k Hk Hsync) as Hdiv.
      assert (S i / k ≤ (num_batches cfg - 1) / k)%nat as Hmono
        by (apply Nat.Div0.div_le_mono; lia).
      destruct (bool_decide (budget ≤ S (global_step st))%nat) eqn:Hstop.
      * apply bool_decide_eq_true in Hstop. cbn.
        split; [|split; [lia|lia]].
        apply Forall_app; split; [done|]; by repeat constructor.
      * apply bool_decide_eq_false in Hstop.
        apply IH; cbn; try lia.
        apply Forall_app; split; [done|]; by repeat constructor.
    + pose proof (div_succ_le i k) as Hdiv.
      rewrite bool_decide_eq_false_2 by lia.
      apply IH; cbn; try lia.
      apply Forall_app; split; [done|]; by repeat constructor.
Qed.

Lemma outer_within (cfg : config) (budget per_epoch : nat) (m e : nat)
    (st : loop_state) :
  gradient_accumulation_steps cfg ≠ 0%nat →
  (0 < num_batches cfg)%nat →
  per_epoch = S ((num_batches cfg - 1) / gradient_accumulation_steps cfg) →
  ((e + m - 1) * per_epoch < budget)%nat →
  accumulated st = 0%nat →
  (global_step st ≤ e * per_epoch)%nat →
  within budget st →
  within budget (outer cfg budget (seq e m) st).
Proof.
  intros Hk Hn Hper. revert e st.
  induction m as [|m IH]; intros e st Hlast Hacc Hg Hin; [done|].
  cbn [seq outer].
  replace (num_batches cfg) with (S (num_batches cfg - 1)) at 1 by lia.
  destruct (inner_within cfg budget e (global_step st)
              (num_batches cfg - 1) 0 st)
    as (Hin' & Hg' & Hacc'); try done; try lia.
  { nia. }
  destruct m as [|m]; [done|].
  rewrite <- Hper in Hg'.
  set (st' := inner cfg budget e (seq 0 (S (num_batches cfg - 1))) st) in *.
  assert (global_step st' < budget)%nat by nia.
  apply IH; [nia | by apply Hacc' | lia | done].
Qed.

(** A run entered at global step 0 and epoch 0 (no resume): no pass begins
    with the budget used up. *)
Lemma fresh_run_within_budget (cfg : config) (sch : schedule) (st : loop_state) :
  plan cfg = Val sch →
  train cfg 0 0 = Val st →
  over_budget (total_steps sch) st = [].
Proof.
  unfold train. intros Hplan. rewrite Hplan. intros [= <-].
  unfold plan, ceil_div in Hplan.
  destruct (decide (gradient_accumulation_steps cfg = 0%nat)) as [|Hk]; [done|].
  set (per_epoch := ((num_batches cfg + gradient_accumulation_steps cfg - 1)
                      / gradient_accumulation_steps cfg)%nat) in *.
  destruct (decide (per_epoch = 0%nat)) as [|Hper]; [done|].
  injection Hplan as <-. cbn [total_steps total_epochs].
  set (budget := match num_training_steps cfg with
                 | Some t => t
                 | None => (num_epochs cfg * per_epoch)%nat
                 end).
  assert (Hn : (0 < num_batches cfg)%nat).
  { destruct (num_batches cfg) eqn:En; [|lia]. exfalso. apply Hper.
    unfold per_epoch. apply Nat.div_small. lia. }
  apply ListFacts.filter_none.
  unfold range. rewrite Nat.sub_0_r.
  pose proof (Nat.div_mod_eq (budget + per_epoch - 1) per_epoch) as Hdm.
  pose proof (Nat.mod_upper_bound (budget + per_epoch - 1) per_epoch Hper) as Hmod.
  destruct ((budget + per_epoch - 1) / per_epoch)%nat as [|E] eqn:HE; [done|].
  eapply Forall_impl.
  - apply (outer_within cfg budget per_epoch); try done.
    + unfold per_epoch. by apply ceil_as_last.
    + clearbody per_epoch budget. cbn. nia.
    + apply Forall_nil_2.
  - cbn. intros; lia.
Qed.

(** C5 on the code.  A run in the configuration [small_run] resumed from
    [checkpoint-1] (the resume block sets the global step to 1 and the
    first epoch to 1 // 2 = 0) reaches global step 3, the budget, at the
    end of epoch 0, and epoch 1 then runs one more optimization step: the
    pass at epoch 1, step 0 begins with the global step already at the
    budget, and the run ends at global step 4.  In general every epoch
    entered with the budget used up runs one pass. *)
Theorem resumed_run_steps_past_budget :
  (∃ r st,
     Checkpoints.resume (Some "latest") ["checkpoint-1"] 2 = Val r ∧
     Checkpoints.global_step r = 1%nat ∧ Checkpoints.first_epoch r = 0%nat ∧
     train small_run (Checkpoints.global_step r) (Checkpoints.first_epoch r) = Val st ∧
     global_step st = 4%nat ∧
     over_budget 3 st = [{| at_epoch := 1; at_step := 0;
                            global_step_before := 3; synced := true |}])
  ∧ (∀ cfg budget epoch st,
       (budget ≤ global_step st)%nat → (0 < num_batches cfg)%nat →
       length (executed (inner cfg budget epoch (seq 0 (num_batches cfg)) st)) =
         S (length (executed st))).
Proof.
  split.
  - eexists _, _. split; [vm_compute; reflexivity|].
    split; [reflexivity|]. split; [reflexivity|].
    split; [vm_compute; reflexivity|]. split; reflexivity.
  - intros cfg budget epoch st Hb Hn.
    destruct (epoch_after_budget cfg budget epoch st Hb Hn) as (sync & -> & _).
    rewrite length_app. cbn. lia.
Qed.

(** *** The plan of lines 238-266 *)









(** *** Runs that start at an epoch boundary *)

Lemma div_succ_same (i k : nat) :
  k ≠ 0%nat → (S i `mod` k ≠ 0)%nat → (S i / k = i / k)%nat.
Proof.
  intros Hk Hm.
  pose proof (Nat.div_mod_eq (S i) k) as H1.
  pose proof (Nat.div_mod_eq i k) as H2.
  pose proof (Nat.mod_upper_bound i k Hk) as H3.
  pose proof (Nat.mod_upper_bound (S i) k Hk) as H4.
  nia.
Qed.

(** The rest of an epoch, from batch [i] on, entered below the budget with
    [i / k] synchronisations behind it: the epoch ends at the budget or
    after its [ceil(n / k)]-th synchronisation, whichever comes first. *)
Lemma inner_exact (cfg : config) (budget epoch g0 : nat) (m i : nat)
    (st : loop_state) :
  gradient_accumulation_steps cfg ≠ 0%nat →
  (i + S m = num_batches cfg)%nat →
  accumulated st = i →
  global_step st = (g0 + i / gradient_accumulation_steps cfg)%nat →
  (global_step st < budget)%nat →
  let st' := inner cfg budget epoch (seq i (S m)) st in
  global_step st' =
    (budget `min`
       (g0 + S ((num_batches cfg - 1) / gradient_accumulation_steps cfg)))%nat ∧
  ((global_step st' < budget)%nat → accumulated st' = 0%nat).
Proof.
  intros Hk. revert i st.
  induction m as [|m IH]; intros i st Hn Hacc Hg Hlt; cbn zeta.
  - cbn [seq inner]. unfold pass, do_sync.
    rewrite decide_True by lia.
    assert (i = num_batches cfg - 1)%nat as Hi by lia. rewrite <- Hi.
    destruct (bool_decide _); cbn; (split; [lia|done]).
  - cbn [seq inner]. unfold pass, do_sync.
    rewrite decide_False by lia. rewrite Hacc.
    set (k := gradient_accumulation_steps cfg) in *.
    assert (S i / k ≤ (num_batches cfg - 1) / k)%nat as Hmono
      by (apply Nat.Div0.div_le_mono; lia).
    destruct (bool_decide (S i `mod` k = 0)%nat) eqn:Hsync.
    + apply bool_decide_eq_true in Hsync.
      pose proof (div_succ_exact i k Hk Hsync) as Hdiv.
      destruct (bool_decide (budget ≤ S (global_step st))%nat) eqn:Hstop.
      * apply bool_decide_eq_true in Hstop. cbn. split; lia.
      * apply bool_decide_eq_false in Hstop. apply IH; cbn; lia.
    + apply bool_decide_eq_false in Hsync.
      pose proof (div_succ_same i k Hk Hsync) as Hdiv.
      rewrite bool_decide_eq_false_2 by lia.
      apply IH; cbn; lia.
Qed.







Example aligned_run :
  ∃ st, train {| num_batches := 5; gradient_accumulation_steps := 2;
                 num_training_steps := None; num_epochs := 2 |} 0 0 = Val st ∧
        global_step st = 6%nat ∧ length (executed st) = 10%nat ∧
        synced <$> executed st =
          [false; true; false; true; true; false; true; false; true; true].
Proof. eexists. split; [reflexivity|]. vm_compute. done. Qed.

(** An epoch entered at its first batch that cannot reach the budget
    before its last batch runs every batch once. *)
Lemma inner_full (cfg : config) (budget epoch g0 : nat) (m i : nat)
    (st : loop_state) :
  gradient_accumulation_steps cfg ≠ 0%nat →
  (i + S m = num_batches cfg)%nat →
  accumulated st = i →
  global_step st = (g0 + i / gradient_accumulation_steps cfg)%nat →
  (g0 + S ((num_batches cfg - 1) / gradient_accumulation_steps cfg) ≤ budget)%nat →
  ∃ passes,
    executed (inner cfg budget epoch (seq i (S m)) st) = executed st ++ passes ∧
    at_step <$> passes = seq i (S m) ∧
    Forall (λ r, at_epoch r = epoch) passes.
Proof.
  intros Hk. revert i st.
  induction m as [|m IH]; intros i st Hn Hacc Hg Hroom.
  - cbn [seq inner]. unfold pass. destruct (do_sync cfg i st) as [sync acc].
    eexists [_]. split; [by destruct (bool_decide _)|]. by repeat constructor.
  - change (seq i (S (S m))) with (i :: seq (S i) (S m)).
    cbn [inner]. unfold pass, do_sync.
    rewrite decide_False by lia. rewrite Hacc.
    set (k := gradient_accumulation_steps cfg) in *.
    assert (S i / k ≤ (num_batches cfg - 1) / k)%nat as Hmono
      by (apply Nat.Div0.div_le_mono; lia).
    set (sync := bool_decide (S i `mod` k = 0)%nat).
    set (ran := {| at_epoch := epoch; at_step := i;
                   global_step_before := global_step st; synced := sync |}).
    set (st' := {| global_step := if sync then S (global_step st) else global_step st;
                   accumulated := S i; executed := executed st ++ [ran] |}).
    assert (Hg' : global_step st' = (g0 + S i / k)%nat).
    { unfold st', sync. cbn. destruct (bool_decide (S i `mod` k = 0)%nat) eqn:Hs.
      - apply bool_decide_eq_true in Hs. rewrite (div_succ_exact i k Hk Hs). lia.
      - apply bool_decide_eq_false in Hs. rewrite (div_succ_same i k Hk Hs). lia. }
    change (if sync then S (global_step st) else global_step st)
      with (global_step st').
    rewrite bool_decide_eq_false_2 by lia.
    change {| global_step := global_step st'; accumulated := S i;
              executed := executed st ++ [ran] |} with st'.
    destruct (IH (S i) st') as (passes & Hex & Hsteps & Hep); try done; try lia.
    exists (ran :: passes). split; [|split].
    + rewrite Hex. unfold st'. cbn. by rewrite <- (assoc_L (++)).
    + cbn. by rewrite Hsteps.
    + by constructor.
Qed.

(** X13.  An epoch entered at its first batch with the accelerator's
    counter at 0, and with room in the budget for a whole epoch, runs
    every batch of the data loader once, in order, and advances the
    global step by [ceil(len(train_dataloader) /
    gradient_accumulation_steps)]: the [num_update_steps_per_epoch] that
    line 239 computes is the number of updates an epoch performs. *)
Theorem full_epoch_performs_planned_updates
    (cfg : config) (budget epoch : nat) (st : loop_state) :
  gradient_accumulation_steps cfg ≠ 0%nat →
  num_batches cfg ≠ 0%nat →
  accumulated st = 0%nat →
  (global_step st + S ((num_batches cfg - 1) / gradient_accumulation_steps cfg)
     ≤ budget)%nat →
  ∃ passes,
    executed (inner cfg budget epoch (seq 0 (num_batches cfg)) st) =
      executed st ++ passes ∧
    at_step <$> passes = seq 0 (num_batches cfg) ∧
    Forall (λ r, at_epoch r = epoch) passes ∧
    global_step (inner cfg budget epoch (seq 0 (num_batches cfg)) st) =
      (global_step st +
         S ((num_batches cfg - 1) / gradient_accumulation_steps cfg))%nat ∧
    ceil_div (num_batches cfg) (gradient_accumulation_steps cfg) =
      Val (S ((num_batches cfg - 1) / gradient_accumulation_steps cfg)).
Proof.
  intros Hk Hn Hacc Hroom.
  pose proof (inner_full cfg budget epoch (global_step st)
                (num_batches cfg - 1) 0 st Hk ltac:(lia) Hacc) as Hfull.
  pose proof (inner_exact cfg budget epoch (global_step st)
                (num_batches cfg - 1) 0 st Hk ltac:(lia) Hacc) as Hexact.
  rewrite Nat.Div0.div_0_l in Hfull, Hexact.
  replace (S (num_batches cfg - 1)) with (num_batches cfg) in * by lia.
  destruct Hfull as (passes & Hex & Hsteps & Hep); [lia | done |].
  destruct Hexact as [Hg _]; [lia | lia |].
  exists passes. repeat split; try done.
  - rewrite Hg. lia.
  - unfold ceil_div. rewrite decide_False by done.
    by rewrite ceil_as_last by (done || lia).
Qed.

Lemma full_epoch_performs_planned_updates_witness :
  ∃ passes,
    executed (inner {| num_batches := 5; gradient_accumulation_steps := 2;
                       num_training_steps := None; num_epochs := 2 |} 100 3
                (seq 0 5) {| global_step := 9; accumulated := 0; executed := [] |}) =
      [] ++ passes ∧
    at_step <$> passes = seq 0 5 ∧
    Forall (λ r, at_epoch r = 3%nat) passes ∧
    global_step (inner {| num_batches := 5; gradient_accumulation_steps := 2;
                          num_training_steps := None; num_epochs := 2 |} 100 3
                   (seq 0 5) {| global_step := 9; accumulated := 0; executed := [] |}) =
      (9 + S ((5 - 1) / 2))%nat ∧
    ceil_div 5 2 = Val (S ((5 - 1) / 2)).
Proof.
  apply (full_epoch_performs_planned_updates
           {| num_batches := 5; gradient_accumulation_steps := 2;
              num_training_steps := None; num_epochs := 2 |} 100 3
           {| global_step := 9; accumulated := 0; executed := [] |});
    cbn; (done || lia).
Defined.

End TrainLoopFacts.

Module EmaEvalFacts.
Import Py EmaEval.

Example evaluate_logs_two_channels :
  evaluate (λ w : nat, Val [w; S w]) "train" (Some ["p"; "k"]) 3 10 [7; 8]%nat true =
    Val [ {| tag := "train sample p"; img := 10; img_step := 3 |};
          {| tag := "train GT p"; img := 7; img_step := 3 |};
          {| tag := "train sample k"; img := 11; img_step := 3 |};
          {| tag := "train GT k"; img := 8; img_step := 3 |} ]%nat.
Proof. reflexivity. Qed.

(** C4, as the code has it.  With EMA enabled [evaluate] runs on the
    shadow average.  When it returns, the live parameters are the ones
    from before the evaluation and the EMA model holds no stored copy.
    When it raises, the exception leaves the block at once: [restore] is
    not run, the live parameters stay overwritten by the shadow average
    and the original ones stay in the EMA model's store.  In both cases
    the optimizer, the learning-rate scheduler and the shadow average are
    the ones from before.  Without EMA the state is not touched. *)
Theorem evaluation_block_states {P O L image : Type} (use_ema : bool)
    (run_evaluate : P → outcome (list (add_image image)))
    (st : train_state P O L) :
  evaluation_block use_ema run_evaluate st =
    match run_evaluate (if use_ema then shadow st else live st) with
    | Val logged => (Val logged, if use_ema then after_return st else st)
    | Exc e => (Exc e, if use_ema then after_raise st else st)
    end
  ∧ optimizer (evaluation_block use_ema run_evaluate st).2 = optimizer st
  ∧ lr_scheduler (evaluation_block use_ema run_evaluate st).2 = lr_scheduler st
  ∧ shadow (evaluation_block use_ema run_evaluate st).2 = shadow st.
Proof.
  assert (Heq : evaluation_block use_ema run_evaluate st =
    match run_evaluate (if use_ema then shadow st else live st) with
    | Val logged => (Val logged, if use_ema then after_return st else st)
    | Exc e => (Exc e, if use_ema then after_raise st else st)
    end).
  { unfold evaluation_block, bind, modify, get, lift, ret, restore.
    destruct use_ema; cbn; destruct (run_evaluate _); reflexivity. }
  split; [exact Heq|]. rewrite Heq.
  destruct use_ema, (run_evaluate _); done.
Qed.

(** An evaluation interrupted while sampling, with live parameters 1 and
    shadow average 2: the interrupt propagates and the live parameters
    are left at 2. *)
Lemma evaluation_interrupted_keeps_shadow :
  evaluation_block true
    (λ w, evaluate (λ _ : nat, Exc KeyboardInterrupt) "train" None 0 w [5%nat] true)
    {| live := 1%nat; shadow := 2%nat; stored := None;
       optimizer := tt; lr_scheduler := tt |}
  = (Exc KeyboardInterrupt,
     {| live := 2%nat; shadow := 2%nat; stored := Some 1%nat;
        optimizer := tt; lr_scheduler := tt |}).
Proof. reflexivity. Qed.

(** *** The images [evaluate] logs *)

Section EvaluateFacts.
Context {image : Type}.

Lemma grids_returns (i : nat) (imgs known : list image) :
  (i + length imgs ≤ length known)%nat →
  ∃ pairs, grids image i imgs known = Val pairs ∧
           length pairs = length imgs ∧
           ∀ j s, imgs !! j = Some s →
                  ∃ gt, known !! (i + j)%nat = Some gt ∧ pairs !! j = Some (s, gt).
Proof.
  revert i. induction imgs as [|s imgs IH]; intros i Hlen; cbn [grids].
  - exists []. split; [done|]. split; [done|]. by intros j s.
  - cbn in Hlen.
    destruct (lookup_lt_is_Some_2 known i) as [gt Hgt]; [lia|]. rewrite Hgt.
    destruct (IH (S i)) as (pairs & -> & Hl & Hlook); [lia|].
    exists ((s, gt) :: pairs). split; [done|]. split; [cbn; lia|].
    intros [|j] s' Hs'; cbn in *.
    + injection Hs' as <-. exists gt. by rewrite Nat.add_0_r.
    + destruct (Hlook j s' Hs') as (gt' & Hgt' & Hp).
      exists gt'. split; [|done]. by replace (i + S j)%nat with (S i + j)%nat by lia.
Qed.

Lemma grids_raises (i : nat) (imgs known : list image) :
  (i ≤ length known < i + length imgs)%nat →
  grids image i imgs known = Exc IndexError.
Proof.
  revert i. induction imgs as [|s imgs IH]; intros i Hlen; cbn [grids].
  - cbn in Hlen. lia.
  - cbn in Hlen. destruct (known !! i) as [gt|] eqn:Hgt; [|done].
    apply lookup_lt_Some in Hgt. rewrite IH by lia. done.
Qed.

Lemma log_images_returns (phase : string) (names : list string) (epoch i : nat)
    (pairs : list (image * image)) :
  (i + length pairs ≤ length names)%nat →
  ∃ log, log_images image phase names epoch i pairs = Val log ∧
         length log = (2 * length pairs)%nat ∧
         ∀ j s gt, pairs !! j = Some (s, gt) →
           ∃ name, names !! (i + j)%nat = Some name ∧
             log !! (2 * j)%nat =
               Some {| tag := phase +:+ " sample " +:+ name;
                       img := s; img_step := epoch |} ∧
             log !! (2 * j + 1)%nat =
               Some {| tag := phase +:+ " GT " +:+ name;
                       img := gt; img_step := epoch |}.
Proof.
  revert i. induction pairs as [|[s gt] pairs IH]; intros i Hlen; cbn [log_images].
  - exists []. split; [done|]. split; [done|]. by intros j s gt.
  - cbn in Hlen.
    destruct (lookup_lt_is_Some_2 names i) as [name Hname]; [lia|]. rewrite Hname.
    destruct (IH (S i)) as (log & -> & Hl & Hlook); [lia|].
    eexists. split; [done|]. split; [cbn; lia|].
    intros [|j] s' gt' Hp; cbn in Hp.
    + injection Hp as <- <-. exists name. by rewrite Nat.add_0_r.
    + destruct (Hlook j s' gt' Hp) as (name' & Hn' & H1 & H2).
      exists name'. replace (i + S j)%nat with (S i + j)%nat by lia.
      split; [done|].
      replace (2 * S j)%nat with (S (S (2 * j))) by lia.
      replace (S (S (2 * j)) + 1)%nat with (S (S (2 * j + 1))) by lia.
      done.
Qed.

Lemma log_images_raises (phase : string) (names : list string) (epoch i : nat)
    (pairs : list (image * image)) :
  (i ≤ length names < i + length pairs)%nat →
  log_images image phase names epoch i pairs = Exc IndexError.
Proof.
  revert i. induction pairs as [|[s gt] pairs IH]; intros i Hlen; cbn [log_images].
  - cbn in Hlen. lia.
  - cbn in Hlen. destruct (names !! i) as [name|] eqn:Hname; [|done].
    apply lookup_lt_Some in Hname. rewrite IH by lia. done.
Qed.

End EvaluateFacts.

(** X16.  When the pipeline returns its samples, the known fields hold
    at least as many channels and the configured channel names, if any,
    are at least as many, [evaluate] writes to the tensorboard tracker two
    images per channel, all at the step [epoch]: for channel [i] the
    sample under the tag [phase_name + " sample " + name] and then the
    ground truth under [phase_name + " GT " + name], where [name] is the
    configured name of the channel, or empty when the configuration has
    no [channel_names]. *)
Theorem evaluate_logs_each_channel {P image : Type}
    (sample : P → outcome (list image)) (phase : string)
    (config_channel_names : option (list string)) (epoch : nat) (weights : P)
    (known_latents imgs : list image) :
  sample weights = Val imgs →
  (length imgs ≤ length known_latents)%nat →
  (∀ names, config_channel_names = Some names → (length imgs ≤ length names)%nat) →
  ∃ log,
    evaluate sample phase config_channel_names epoch weights known_latents true
      = Val log ∧
    length log = (2 * length imgs)%nat ∧
    ∀ i s, imgs !! i = Some s →
      ∃ gt name,
        known_latents !! i = Some gt ∧
        name = match config_channel_names with
               | Some names => default "" (names !! i)
               | None => ""
               end ∧
        log !! (2 * i)%nat =
          Some {| tag := phase +:+ " sample " +:+ name;
                  img := s; img_step := epoch |} ∧
        log !! (2 * i + 1)%nat =
          Some {| tag := phase +:+ " GT " +:+ name;
                  img := gt; img_step := epoch |}.
Proof.
  intros Hsample Hknown Hnames. unfold evaluate. rewrite Hsample.
  destruct (grids_returns 0 imgs known_latents Hknown)
    as (pairs & -> & Hl & Hpairs).
  set (names := match config_channel_names with
                | Some names => names
                | None => (λ _, EmptyString) <$> imgs
                end).
  assert (Hlen : (0 + length pairs ≤ length names)%nat).
  { rewrite Hl. unfold names. destruct config_channel_names as [l|].
    - by apply Hnames.
    - by rewrite length_fmap. }
  destruct (log_images_returns phase names epoch 0 pairs Hlen)
    as (log & -> & Hll & Hlog).
  exists log. split; [done|]. split; [lia|].
  intros i s Hs. destruct (Hpairs i s Hs) as (gt & Hgt & Hp).
  destruct (Hlog i s gt Hp) as (name & Hname & H1 & H2).
  exists gt, name. split; [done|]. split; [|done].
  cbn in Hname. unfold names in Hname. destruct config_channel_names as [l|].
  - by rewrite Hname.
  - rewrite list_lookup_fmap, Hs in Hname. by injection Hname.
Qed.

Lemma evaluate_logs_each_channel_witness :
  ∃ log,
    evaluate (λ w : nat, Val [w; S w]) "val" None 4 10 [7; 8; 9]%nat true
      = Val log ∧
    length log = (2 * length [10; 11]%nat)%nat ∧
    ∀ i s, [10; 11]%nat !! i = Some s →
      ∃ gt name,
        [7; 8; 9]%nat !! i = Some gt ∧
        name = match @None (list string) with
               | Some names => default "" (names !! i)
               | None => ""
               end ∧
        log !! (2 * i)%nat =
          Some {| tag := "val" +:+ " sample " +:+ name;
                  img := s; img_step := 4 |} ∧
        log !! (2 * i + 1)%nat =
          Some {| tag := "val" +:+ " GT " +:+ name;
                  img := gt; img_step := 4 |}.
Proof.
  apply (evaluate_logs_each_channel (λ w : nat, Val [w; S w]) "val" None 4 10
           [7; 8; 9]%nat [10; 11]%nat).
  - reflexivity.
  - simpl. lia.
  - intros names H. discriminate H.
Defined.

(** X17.  When the pipeline returns its samples: with fewer channels in
    the known fields than in the samples [evaluate] raises [IndexError]
    (at [known_latents[:, i]]), with any tracker; with enough of them but
    fewer configured channel names than channels it raises [IndexError]
    at [channel_names[i]], after the images were built; and without a
    tensorboard tracker nothing is logged. *)
Theorem evaluate_raises_on_missing_channel {P image : Type}
    (sample : P → outcome (list image)) (phase : string)
    (config_channel_names : option (list string)) (epoch : nat) (weights : P)
    (known_latents imgs : list image) (tensorboard : bool) :
  sample weights = Val imgs →
  ((length known_latents < length imgs)%nat →
   evaluate sample phase config_channel_names epoch weights known_latents
     tensorboard = Exc IndexError)
  ∧ ((length imgs ≤ length known_latents)%nat →
     (∀ names, config_channel_names = Some names →
               (length names < length imgs)%nat →
               evaluate sample phase config_channel_names epoch weights
                 known_latents true = Exc IndexError)
     ∧ evaluate sample phase config_channel_names epoch weights known_latents
         false = Val []).
Proof.
  intros Hsample. unfold evaluate. rewrite Hsample. split.
  - intros Hshort. by rewrite grids_raises by (cbn; lia).
  - intros Hknown.
    destruct (grids_returns 0 imgs known_latents Hknown) as (pairs & -> & Hl & _).
    split; [|done]. intros names -> Hshort.
    apply log_images_raises. cbn. lia.
Qed.

Lemma evaluate_raises_on_missing_channel_witness :
  ((length [7]%nat < length [10; 11]%nat)%nat →
   evaluate (λ w : nat, Val [w; S w]) "val" (Some ["p"]) 4 10 [7]%nat true
     = Exc IndexError)
  ∧ ((length [10; 11]%nat ≤ length [7]%nat)%nat →
     (∀ names, Some ["p"] = Some names →
               (length names < length [10; 11]%nat)%nat →
               evaluate (λ w : nat, Val [w; S w]) "val" (Some ["p"]) 4 10
                 [7]%nat true = Exc IndexError)
     ∧ evaluate (λ w : nat, Val [w; S w]) "val" (Some ["p"]) 4 10 [7]%nat
         false = Val []).
Proof.
  apply (evaluate_raises_on_missing_channel (λ w : nat, Val [w; S w]) "val"
           (Some ["p"]) 4 10 [7]%nat [10; 11]%nat true).
  reflexivity.
Defined.

Example evaluate_short_names :
  evaluate (λ w : nat, Val [w; S w]) "val" (Some ["p"]) 4 10 [7; 8]%nat true
    = Exc IndexError.
Proof. reflexivity. Qed.

End EmaEvalFacts.

(** ** The end of an epoch *)

Module EpochEndFacts.
Import Py EmaEval EpochEnd TrainLoopFacts.

Lemma due_true (s E epoch : nat) :
  s ≠ 0%nat →
  (due s E epoch = Val true ↔ ((epoch + 1) `mod` s = 0 ∨ S epoch = E)%nat).
Proof.
  intros Hs. unfold due. rewrite decide_False by done. split.
  - intros [= H]. apply orb_true_iff in H as [H|H];
      apply bool_decide_eq_true in H; [by left | right; lia].
  - intros H. f_equal. apply orb_true_iff.
    destruct H as [H|H]; [left | right]; apply bool_decide_eq_true; [done | lia].
Qed.

(** X14.  The end of an epoch (lines 472-506).  With
    [save_image_epochs = 0] the test of the epoch raises
    [ZeroDivisionError] and nothing else happens.  At an epoch that is
    not due nothing is evaluated or saved.  At an epoch that is due and
    whose evaluation returns, the pipeline written by [save_pretrained]
    holds the weights that were evaluated, the EMA average when EMA is in
    use and the live weights otherwise, and the live weights are restored
    afterwards; when the evaluation raises, nothing is saved. *)
Theorem epoch_end_saves_evaluated_weights {P O L image : Type}
    (use_ema : bool) (run_evaluate : nat → P → outcome (list (add_image image)))
    (s E epoch : nat) (w : process P O L) :
  (s = 0%nat → epoch_end use_ema run_evaluate s E epoch w = (Exc ZeroDivisionError, w))
  ∧ (s ≠ 0%nat → ((epoch + 1) `mod` s ≠ 0)%nat → S epoch ≠ E →
     epoch_end use_ema run_evaluate s E epoch w = (Val [], w))
  ∧ (s ≠ 0%nat → ((epoch + 1) `mod` s = 0 ∨ S epoch = E)%nat →
     epoch_end use_ema run_evaluate s E epoch w =
       match run_evaluate epoch (if use_ema then shadow (training w)
                                 else live (training w)) with
       | Val logged =>
           (Val logged,
            {| training := if use_ema then after_return (training w)
                           else training w;
               saved_pipeline := Some (if use_ema then shadow (training w)
                                       else live (training w)) |})
       | Exc e =>
           (Exc e,
            {| training := if use_ema then after_raise (training w)
                           else training w;
               saved_pipeline := saved_pipeline w |})
       end).
Proof.
  split; [|split].
  - intros ->. by destruct w.
  - intros Hs Hm HE. unfold epoch_end, bind, lift.
    assert (due s E epoch = Val false) as ->.
    { unfold due. rewrite decide_False by done. f_equal.
      apply orb_false_iff. split; apply bool_decide_eq_false; [done | lia]. }
    by destruct w.
  - intros Hs Hdue. unfold epoch_end, bind, lift.
    rewrite (proj2 (due_true s E epoch Hs) Hdue).
    unfold on_training, save_block, save_pretrained, evaluation_block,
      bind, modify, get, lift, ret, restore.
    destruct w as [st sp].
    destruct use_ema; cbn; destruct (run_evaluate epoch _); reflexivity.
Qed.


(** The steps of [1..n] that [s] divides. *)
Lemma count_multiples (s n : nat) :
  s ≠ 0%nat →
  length (filter (λ e, (e + 1) `mod` s = 0)%nat (seq 0 n)) = (n / s)%nat.
Proof.
  intros Hs. induction n as [|n IH].
  - by rewrite Nat.Div0.div_0_l.
  - rewrite seq_S, filter_app, length_app, IH. cbn [Nat.add].
    replace (n + 1)%nat with (S n) by lia.
    destruct (decide (S n `mod` s = 0)%nat) as [Hd|Hd].
    + rewrite filter_cons_True by (by replace (n + 1)%nat with (S n) by lia).
      rewrite (div_succ_exact n s Hs Hd). cbn. lia.
    + rewrite filter_cons_False by (by replace (n + 1)%nat with (S n) by lia).
      rewrite (div_succ_same n s Hs Hd). cbn. lia.
Qed.

(** X15.  With [save_image_epochs = s ≥ 1], the test
    [(epoch + 1) % s == 0 or epoch == num_epochs - 1] holds at the last
    epoch of every run, and over the epochs [0, ..., num_epochs - 1] of a
    run from scratch it holds exactly [ceil(num_epochs / s)] times: every
    [s]-th epoch, and the last one. *)
Theorem evaluations_in_a_run (s E : nat) :
  s ≠ 0%nat →
  (E ≠ 0%nat → due s E (E - 1) = Val true) ∧
  ∃ dues : list nat,
    (∀ e, e ∈ dues ↔ (e < E)%nat ∧ due s E e = Val true) ∧
    NoDup dues ∧
    TrainLoop.ceil_div E s = Val (length dues).
Proof.
  intros Hs. split.
  { intros HE. apply due_true; [done|]. right. lia. }
  exists (filter (λ e, (e + 1) `mod` s = 0 ∨ S e = E)%nat (seq 0 E)).
  split; [|split].
  - intros e. rewrite list_elem_of_filter, elem_of_seq, due_true by done.
    split; [intros [? ?] | intros [? ?]]; (split; [done || lia | done || lia]).
  - apply NoDup_filter, NoDup_seq.
  - unfold TrainLoop.ceil_div. rewrite decide_False by done. f_equal.
    destruct E as [|n].
    + cbn. rewrite Nat.div_small by lia. done.
    + rewrite ceil_as_last by (done || lia).
      rewrite seq_S, filter_app, length_app. cbn [Nat.add].
      rewrite filter_cons_True by (by right).
      rewrite (ListFacts.filter_ext_Forall _ (λ e, (e + 1) `mod` s = 0)%nat).
      * rewrite count_multiples by done. cbn.
        replace (n - 0)%nat with n by lia. lia.
      * apply Forall_forall. intros e He%elem_of_seq. split; [|by left].
        intros [?|?]; [done | lia].
Qed.

Lemma evaluations_in_a_run_witness :
  (7 ≠ 0 → due 3 7 (7 - 1) = Val true)%nat ∧
  ∃ dues : list nat,
    (∀ e, e ∈ dues ↔ (e < 7)%nat ∧ due 3 7 e = Val true) ∧
    NoDup dues ∧
    TrainLoop.ceil_div 7 3 = Val (length dues).
Proof. apply (evaluations_in_a_run 3 7). lia. Defined.

Example epoch_end_run :
  epoch_end (image := nat) true (λ epoch w, Val []) 3 7 5
    {| training := {| live := 1%nat; shadow := 2%nat; stored := None;
                      optimizer := tt; lr_scheduler := tt |};
       saved_pipeline := None |}
  = (Val [],
     {| training := {| live := 1%nat; shadow := 2%nat; stored := None;
                       optimizer := tt; lr_scheduler := tt |};
        saved_pipeline := Some 2%nat |}).
Proof. reflexivity. Qed.

End EpochEndFacts.

Module TensorFacts.
Import Py Tensor.

Lemma collect_fmap {A B} (f : A → outcome B) (g : A → B) (P : A → Prop)
    (l : list A) :
  (∀ a, P a → f a = Val (g a)) → Forall P l →
  collect (f <$> l) = Val (g <$> l).
Proof.
  intros Hfg. induction 1 as [|a l Ha _ IH]; [done|].
  cbn. by rewrite (Hfg a Ha), IH.
Qed.

Lemma collect_zip_with {A B C} (f : A → B → outcome C) (g : A → B → C)
    (P : A → Prop) (Q : B → Prop) (xs : list A) (ys : list B) :
  (∀ x y, P x → Q y → f x y = Val (g x y)) →
  Forall P xs → Forall Q ys →
  collect (zip_with f xs ys) = Val (zip_with g xs ys).
Proof.
  intros Hfg Hxs. revert ys.
  induction Hxs as [|x xs Hx _ IH]; intros ys Hys; [done|].
  destruct Hys as [|y ys Hy Hys]; [done|].
  cbn. by rewrite (Hfg x y Hx Hy), IH.
Qed.

Lemma collect_raises {A} (l : list (outcome A)) (e : exn) :
  collect l = Exc e → Exc e ∈ l.
Proof.
  induction l as [|[a|e'] l IH]; cbn; [done| |].
  - destruct (collect l); [done|]. intros [= <-]. right. by apply IH.
  - intros [= <-]. by left.
Qed.

(** Sizes that agree: the operation is done entry by entry. *)
Lemma bcast_same_length {A B C} (f : A → B → outcome C) (g : A → B → C)
    (P : A → Prop) (Q : B → Prop) (xs : list A) (ys : list B) :
  (∀ x y, P x → Q y → f x y = Val (g x y)) →
  Forall P xs → Forall Q ys → length xs = length ys →
  bcast f xs ys = Val (zip_with g xs ys).
Proof.
  intros Hfg Hxs Hys Hlen.
  pose proof (collect_zip_with f g P Q xs ys Hfg Hxs Hys) as Hzip.
  destruct xs as [|x [|x' xs]], ys as [|y [|y' ys]]; try done.
  unfold bcast. by rewrite decide_True.
Qed.

(** A size of one on the left is stretched. *)
Lemma bcast_singleton_l {A B C} (f : A → B → outcome C) (g : A → B → C)
    (Q : B → Prop) (x : A) (ys : list B) :
  (∀ y, Q y → f x y = Val (g x y)) → Forall Q ys →
  bcast f [x] ys = Val (g x <$> ys).
Proof. intros Hfg Hys. cbn. by apply (collect_fmap _ _ Q). Qed.

(** Broadcasting raises nothing but the [RuntimeError] of sizes that do
    not match. *)
Lemma bcast_raises {A B C} (f : A → B → outcome C) (xs : list A)
    (ys : list B) (e : exn) :
  (∀ x y e, f x y = Exc e → ∃ msg, e = RuntimeError msg) →
  bcast f xs ys = Exc e → ∃ msg, e = RuntimeError msg.
Proof.
  intros Hf.
  assert (Hmap : ∀ (l : list (outcome C)),
            (∀ o, o ∈ l → ∃ x y, o = f x y) →
            collect l = Exc e → ∃ msg, e = RuntimeError msg).
  { intros l Hl Hc. apply collect_raises in Hc.
    destruct (Hl _ Hc) as (x & y & Hxy). by eapply Hf. }
  unfold bcast.
  destruct xs as [|x [|x' xs]], ys as [|y [|y' ys]];
    try (destruct (decide _); [|intros [= <-]; by eexists]);
    apply Hmap; intros o Ho;
    first [ apply list_elem_of_fmap in Ho as (? & -> & _); by eexists _, _
          | apply elem_of_zip_with in Ho as (? & ? & -> & _ & _);
            by eexists _, _
          | by apply elem_of_nil in Ho ].
Qed.

Lemma bcast3_raises (f : Qc → Qc → Qc) (s t : tensor3) (e : exn) :
  bcast3 f s t = Exc e → ∃ msg, e = RuntimeError msg.
Proof.
  apply bcast_raises. intros s2 t2 e2. apply bcast_raises.
  intros s1 t1 e1. apply bcast_raises. done.
Qed.

Lemma bcast4_raises (f : Qc → Qc → Qc) (s t : tensor4) (e : exn) :
  bcast4 f s t = Exc e → ∃ msg, e = RuntimeError msg.
Proof. apply bcast_raises. intros s3 t3 e3. apply bcast3_raises. Qed.

Lemma zip_with_ext_Forall {A B C} (P : A → Prop) (Q : B → Prop)
    (f g : A → B → C) (l : list A) (k : list B) :
  (∀ x y, P x → Q y → f x y = g x y) →
  Forall P l → Forall Q k → zip_with f l k = zip_with g l k.
Proof.
  intros Hfg Hl. revert k. induction Hl as [|x l Hx _ IH]; intros k Hk; [done|].
  destruct Hk as [|y k Hy Hk]; [done|].
  cbn. by rewrite Hfg, IH.
Qed.

Lemma has_shape4_length (B C H W : nat) (t : tensor4) :
  has_shape4 B C H W t → length t = B.
Proof. by intros [? _]. Qed.

(** On operands of one shape broadcasting is the entrywise operation. *)
Lemma bcast3_same_shape (f : Qc → Qc → Qc) (C H W : nat) (s t : tensor3) :
  length s = C → length t = C →
  Forall (λ t2 : tensor2, length t2 = H ∧
            Forall (λ t1 : tensor1, length t1 = W) t2) s →
  Forall (λ t2 : tensor2, length t2 = H ∧
            Forall (λ t1 : tensor1, length t1 = W) t2) t →
  bcast3 f s t = Val (zip_with (zip_with (zip_with f)) s t).
Proof.
  intros Hs Ht Hs2 Ht2. unfold bcast3.
  eapply bcast_same_length; [|exact Hs2|exact Ht2|congruence].
  intros s2 t2 [Hh Hs1] [Hh' Ht1]. cbn beta in *.
  eapply bcast_same_length; [|exact Hs1|exact Ht1|congruence].
  intros s1 t1 Hw Hw'. cbn beta in *.
  eapply (bcast_same_length _ _ (λ _, True) (λ _, True));
    [done | by apply Forall_true | by apply Forall_true | congruence].
Qed.

Lemma bcast4_same_shape (f : Qc → Qc → Qc) (B C H W : nat) (s t : tensor4) :
  has_shape4 B C H W s → has_shape4 B C H W t →
  bcast4 f s t = Val (zip4 f s t).
Proof.
  intros [Hs Hs3] [Ht Ht3]. unfold bcast4, zip4.
  eapply bcast_same_length; [|exact Hs3|exact Ht3|congruence].
  intros s3 t3 [Hc Hs2] [Hc' Ht2]. cbn beta in *.
  by apply (bcast3_same_shape f C H W).
Qed.

Lemma at4_zip4 (f : Qc → Qc → Qc) (s t : tensor4) (b c y x : nat) (u v : Qc) :
  at4 s b c y x = Some u → at4 t b c y x = Some v →
  at4 (zip4 f s t) b c y x = Some (f u v).
Proof.
  unfold at4, zip4. intros Hs Ht.
  rewrite lookup_zip_with.
  destruct (s !! b) as [s3|]; [|done]. destruct (t !! b) as [t3|]; [|done].
  cbn in *. rewrite lookup_zip_with.
  destruct (s3 !! c) as [s2|]; [|done]. destruct (t3 !! c) as [t2|]; [|done].
  cbn in *. rewrite lookup_zip_with.
  destruct (s2 !! y) as [s1|]; [|done]. destruct (t2 !! y) as [t1|]; [|done].
  cbn in *. rewrite lookup_zip_with. by rewrite Hs, Ht.
Qed.

Lemma at4_map4 (f : Qc → Qc) (t : tensor4) (b c y x : nat) :
  at4 (map4 f t) b c y x = f <$> at4 t b c y x.
Proof.
  unfold at4, map4. rewrite list_lookup_fmap.
  destruct (t !! b) as [t3|]; [|done]. cbn. rewrite list_lookup_fmap.
  destruct (t3 !! c) as [t2|]; [|done]. cbn. rewrite list_lookup_fmap.
  destruct (t2 !! y) as [t1|]; [|done]. cbn. by rewrite list_lookup_fmap.
Qed.

Lemma map4_shape (f : Qc → Qc) (B C H W : nat) (t : tensor4) :
  has_shape4 B C H W t → has_shape4 B C H W (map4 f t).
Proof.
  intros [Hb H3]. split; [unfold map4; by rewrite length_fmap|].
  apply Forall_fmap. eapply Forall_impl; [exact H3|].
  intros t3 [Hc H2]. cbn. split; [by rewrite length_fmap|].
  apply Forall_fmap. eapply Forall_impl; [exact H2|].
  intros t2 [Hh H1]. cbn. split; [by rewrite length_fmap|].
  apply Forall_fmap. eapply Forall_impl; [exact H1|].
  intros t1 Hw. cbn. by rewrite length_fmap.
Qed.

(** Entries of a tensor of known shape. *)
Lemma at4_is_Some (B C H W : nat) (t : tensor4) (b c y x : nat) :
  has_shape4 B C H W t →
  (b < B)%nat → (c < C)%nat → (y < H)%nat → (x < W)%nat →
  is_Some (at4 t b c y x).
Proof.
  intros [Hb H3] Hbb Hcc Hyy Hxx. unfold at4.
  destruct (lookup_lt_is_Some_2 t b) as [t3 Ht3]; [lia|]. rewrite Ht3. cbn.
  rewrite Forall_forall in H3.
  destruct (H3 t3) as [Hc H2]; [by eapply list_elem_of_lookup_2|].
  destruct (lookup_lt_is_Some_2 t3 c) as [t2 Ht2]; [lia|]. rewrite Ht2. cbn.
  rewrite Forall_forall in H2.
  destruct (H2 t2) as [Hh H1]; [by eapply list_elem_of_lookup_2|].
  destruct (lookup_lt_is_Some_2 t2 y) as [t1 Ht1]; [lia|]. rewrite Ht1. cbn.
  rewrite Forall_forall in H1.
  pose proof (H1 t1 ltac:(by eapply list_elem_of_lookup_2)) as Hw.
  apply lookup_lt_is_Some_2. lia.
Qed.

Lemma select_list_ok {A} (l : list A) (idx : list nat) :
  Forall (λ i, i < length l)%nat idx →
  ∃ r, select_list l idx = Val r ∧ length r = length idx ∧
       ∀ j k, idx !! j = Some k → r !! j = l !! k.
Proof.
  induction 1 as [|i idx Hi _ (r & Hr & Hlen & Hlook)]; cbn.
  - exists []. split; [done|]. split; [done|]. by intros j k.
  - unfold select_one.
    destruct (lookup_lt_is_Some_2 l i Hi) as [a Ha]. rewrite Ha, Hr.
    exists (a :: r). split; [done|]. split; [cbn; by rewrite Hlen|].
    intros [|j] k; cbn; [by intros [= <-] | apply Hlook].
Qed.

Lemma select_channels_ok (B C H W : nat) (t : tensor4) (idx : list nat) :
  has_shape4 B C H W t →
  Forall (λ i, i < C)%nat idx →
  ∃ r, select_channels t idx = Val r ∧ length r = B ∧
       ∀ b j k y x, idx !! j = Some k →
         at4 r b j y x = at4 t b k y x.
Proof.
  intros [Hb H3] Hidx. revert B Hb.
  induction H3 as [|t3 t [Hc _] _ IH]; intros B Hb; cbn.
  - exists []. split; [done|]. split; [done|]. by intros.
  - destruct (select_list_ok t3 idx) as (r3 & Hr3 & _ & Hlook3).
    { eapply Forall_impl; [exact Hidx|]. cbn. intros; lia. }
    destruct (IH _ eq_refl) as (r & Hr & Hlen & Hlook).
    rewrite Hr3, Hr. exists (r3 :: r).
    split; [done|]. split; [cbn in *; lia|].
    intros [|b] j k y x Hj; unfold at4; cbn.
    + by rewrite (Hlook3 j k Hj).
    + apply (Hlook b j k y x Hj).
Qed.

Lemma plane_shape_of (H W : nat) (p : tensor2) :
  length p = H → Forall (λ t1 : tensor1, length t1 = W) p →
  plane_shape p = (H, if decide (H = 0%nat) then 0%nat else W).
Proof.
  intros <- Hp. unfold plane_shape. destruct Hp as [|r p Hr _]; [done|].
  cbn. by rewrite Hr.
Qed.

(** Tensors whose sizes agree but for the channels are concatenated. *)
Lemma cat_channels_returns (B C1 C2 H W : nat) (s t : tensor4) :
  has_shape4 B C1 H W s → has_shape4 B C2 H W t →
  cat_channels s t = Val (zip_with app s t).
Proof.
  intros [Hb Hs3] [Hb' Ht3]. unfold cat_channels.
  rewrite decide_True; [done|].
  apply Forall2_same_length_lookup_2; [congruence|].
  intros i s3 t3 Hi Hi'.
  rewrite Forall_forall in Hs3, Ht3.
  destruct (Hs3 s3) as [_ Hs2]; [by eapply list_elem_of_lookup_2|].
  destruct (Ht3 t3) as [_ Ht2]; [by eapply list_elem_of_lookup_2|].
  unfold same_planes. eapply Forall_impl; [exact Hs2|].
  intros p [Hp Hp1]. cbn beta. eapply Forall_impl; [exact Ht2|].
  intros q [Hq Hq1]. cbn beta.
  by rewrite (plane_shape_of H W p), (plane_shape_of H W q).
Qed.

Lemma cat_channels_inv (s t r : tensor4) :
  cat_channels s t = Val r → r = zip_with app s t ∧ length s = length t.
Proof.
  unfold cat_channels. destruct (decide _) as [H2|]; [|done].
  intros [= <-]. split; [done | by eapply Forall2_length].
Qed.

Lemma cat_channels_raises (s t : tensor4) (e : exn) :
  cat_channels s t = Exc e → ∃ msg, e = RuntimeError msg.
Proof.
  unfold cat_channels. destruct (decide _); [done|]. intros [= <-]. by eexists.
Qed.

Lemma at4_cat_channels_l (s t r : tensor4) (b c y x : nat) (v : Qc) :
  cat_channels s t = Val r →
  at4 s b c y x = Some v → at4 r b c y x = Some v.
Proof.
  intros [-> Hlen]%cat_channels_inv. unfold at4. intros Hs.
  rewrite lookup_zip_with.
  destruct (s !! b) as [s3|] eqn:Hs3; [|done]. cbn in *.
  destruct (lookup_lt_is_Some_2 t b) as [t3 ->].
  { rewrite <- Hlen. by eapply lookup_lt_Some. }
  cbn. rewrite lookup_app. by destruct (s3 !! c).
Qed.

Lemma at4_cat_channels_r (B C H W : nat) (s t r : tensor4) (b j y x : nat) :
  cat_channels s t = Val r →
  has_shape4 B C H W s → (b < B)%nat →
  at4 r b (C + j) y x = at4 t b j y x.
Proof.
  intros [-> _]%cat_channels_inv [Hb H3] Hlt. unfold at4.
  rewrite lookup_zip_with.
  destruct (lookup_lt_is_Some_2 s b) as [s3 Hs3]; [lia|]. rewrite Hs3. cbn.
  destruct (t !! b) as [t3|]; [|done]. cbn.
  rewrite Forall_forall in H3.
  destruct (H3 s3) as [Hc _]; [by eapply list_elem_of_lookup_2|].
  rewrite lookup_app_r by lia. by replace (C + j - length s3)%nat with j by lia.
Qed.

Lemma zip4_shape (f : Qc → Qc → Qc) (B C H W : nat) (s t : tensor4) :
  has_shape4 B C H W s → has_shape4 B C H W t →
  has_shape4 B C H W (zip4 f s t).
Proof.
  intros [Hb Hs3] [Hb' Ht3]. unfold zip4. split.
  { rewrite length_zip_with. lia. }
  clear Hb Hb'. revert t Ht3.
  induction Hs3 as [|s3 s [Hc Hs2] _ IH]; intros t Ht3; [done|].
  destruct Ht3 as [|t3 t [Hc' Ht2] Ht3]; [done|].
  cbn. constructor; [|by apply IH].
  split; [rewrite length_zip_with; lia|].
  clear Hc Hc'. revert t3 Ht2.
  induction Hs2 as [|s2 s3 [Hh Hs1] _ IH2]; intros t3 Ht2; [done|].
  destruct Ht2 as [|t2 t3 [Hh' Ht1] Ht2]; [done|].
  cbn. constructor; [|by apply IH2].
  split; [rewrite length_zip_with; lia|].
  clear Hh Hh'. revert t2 Ht1.
  induction Hs1 as [|s1 s2 Hw _ IH1]; intros t2 Ht1; [done|].
  destruct Ht1 as [|t1 t2 Hw' Ht1]; [done|].
  cbn. constructor; [|by apply IH1].
  rewrite length_zip_with. lia.
Qed.

(** *** Shapes of selections and concatenations *)

Lemma select_list_Forall {A} (P : A → Prop) (l r : list A) (idx : list nat) :
  Forall P l → select_list l idx = Val r → Forall P r ∧ length r = length idx.
Proof.
  intros Hl. revert r. induction idx as [|i idx IH]; intros r; cbn.
  - by intros [= <-].
  - unfold select_one. destruct (l !! i) as [a|] eqn:Ha.
    + destruct (select_list l idx) as [r'|]; [|done]. intros [= <-].
      destruct (IH r' eq_refl) as [Hr' Hlen].
      split; [|cbn; lia]. constructor; [|done].
      rewrite Forall_forall in Hl. apply Hl. by eapply list_elem_of_lookup_2.
    + by destruct (select_list l idx).
Qed.

Lemma select_channels_shape (B C H W : nat) (t r : tensor4) (idx : list nat) :
  has_shape4 B C H W t → select_channels t idx = Val r →
  has_shape4 B (length idx) H W r.
Proof.
  intros [Hb H3]. revert B Hb r.
  induction H3 as [|t3 t [Hc H2] _ IH]; intros B Hb r; cbn.
  - intros [= <-]. by split.
  - destruct (select_list t3 idx) as [r3|] eqn:E3.
    2:{ by destruct (select_channels t idx). }
    destruct (select_channels t idx) as [r'|]; [|done]. intros [= <-].
    destruct (IH _ eq_refl r' eq_refl) as [Hlen Hr'].
    destruct (select_list_Forall _ t3 r3 idx H2 E3) as [Hr3 Hl3].
    split; [cbn in *; lia|]. constructor; [by split | done].
Qed.



End TensorFacts.

(** ** The composed input (lines 373-380) *)

Module ComposeInputFacts.
Import Py Tensor TensorFacts TrainStep.


Section ComposeInput.
Variable add_noise_at : Qc → Qc → Qc → Qc.

(** What [add_noise] returns on operands of one shape, sample by sample
    with the timestep of the sample. *)
Local Abbreviation entries clean noise ts :=
  (zip_with (λ (cn : tensor3 * tensor3) (t : Qc),
               zip_with (zip_with (zip_with (λ x n, add_noise_at x n t)))
                 cn.1 cn.2)
            (zip clean noise) ts).

Lemma at4_entries (clean noise : tensor4) (ts : list Qc)
    (b c y x : nat) (v n t : Qc) :
  at4 clean b c y x = Some v → at4 noise b c y x = Some n → ts !! b = Some t →
  at4 (entries clean noise ts) b c y x = Some (add_noise_at v n t).
Proof.
  unfold at4. intros Hc Hn Ht.
  rewrite lookup_zip_with, lookup_zip_with, Ht.
  destruct (clean !! b) as [c3|]; [|done]. destruct (noise !! b) as [n3|]; [|done].
  cbn in *. rewrite lookup_zip_with.
  destruct (c3 !! c) as [c2|]; [|done]. destruct (n3 !! c) as [n2|]; [|done].
  cbn in *. rewrite lookup_zip_with.
  destruct (c2 !! y) as [c1|]; [|done]. destruct (n2 !! y) as [n1|]; [|done].
  cbn in *. rewrite lookup_zip_with. by rewrite Hc, Hn.
Qed.

Lemma entries_shape (B C H W : nat) (clean noise : tensor4) (ts : list Qc) :
  has_shape4 B C H W clean → has_shape4 B C H W noise → length ts = B →
  has_shape4 B C H W (entries clean noise ts).
Proof.
  intros [Hb Hc3] [Hb' Hn3] Hts. split.
  { rewrite length_zip_with, length_zip_with. lia. }
  clear Hb Hb' Hts. revert noise ts Hn3.
  induction Hc3 as [|c3 clean [Hc Hc2] _ IH]; intros noise ts Hn3; [done|].
  destruct Hn3 as [|n3 noise [Hn Hn2] Hn3]; [done|].
  destruct ts as [|t ts]; [done|].
  cbn. constructor; [|by apply IH].
  split; [rewrite length_zip_with; lia|].
  clear Hc Hn. revert n3 Hn2.
  induction Hc2 as [|c2 c3 [Hh Hc1] _ IH2]; intros n3 Hn2; [done|].
  destruct Hn2 as [|n2 n3 [Hh' Hn1] Hn2]; [done|].
  cbn. constructor; [|by apply IH2].
  split; [rewrite length_zip_with; lia|].
  clear Hh Hh'. revert n2 Hn1.
  induction Hc1 as [|c1 c2 Hw _ IH1]; intros n2 Hn1; [done|].
  destruct Hn1 as [|n1 n2 Hw' Hn1]; [done|].
  cbn. constructor; [|by apply IH1].
  rewrite length_zip_with. lia.
Qed.

Lemma zip_with_zip_assoc {X Y Z R} (f : X → Y → Z → R)
    (xs : list X) (ys : list Y) (zs : list Z) :
  zip_with (λ x (yz : Y * Z), f x yz.1 yz.2) xs (zip ys zs) =
  zip_with (λ (xy : X * Y) z, f xy.1 xy.2 z) (zip xs ys) zs.
Proof.
  revert ys zs. induction xs as [|x xs IH]; intros [|y ys] [|z zs]; try done.
  cbn. f_equal. apply IH.
Qed.

(** On clean images and noise of one shape with one timestep per sample
    [add_noise] returns, entry by entry. *)
Lemma add_noise_same_shape (B C H W : nat) (clean noise : tensor4)
    (ts : list Qc) :
  has_shape4 B C H W clean → has_shape4 B C H W noise → length ts = B →
  add_noise add_noise_at clean noise ts = Val (entries clean noise ts).
Proof.
  intros [Hb Hc3] [Hb' Hn3] Hts. unfold add_noise.
  rewrite (bcast_same_length _ pair (λ _, True) (λ _, True))
    by (done || by apply Forall_true || congruence).
  rewrite <- (zip_with_zip_assoc
                (λ c3 n3 t, zip_with (zip_with (zip_with
                   (λ x n, add_noise_at x n t))) c3 n3)).
  eapply (bcast_same_length _ _ _
            (λ nt : tensor3 * Qc,
               length nt.1 = C ∧
               Forall (λ t2 : tensor2, length t2 = H ∧
                         Forall (λ t1 : tensor1, length t1 = W) t2) nt.1));
    [|exact Hc3| |rewrite length_zip_with; lia].
  - intros c3 [n3 t] [Hc Hc2] [Hn Hn2]. cbn [fst snd] in *.
    by apply (bcast3_same_shape _ C H W).
  - apply Forall_forall. intros [n3 t] Hin. cbn [fst].
    apply elem_of_zip_l in Hin. rewrite Forall_forall in Hn3. by apply Hn3.
Qed.

Lemma add_noise_raises (clean noise : tensor4) (ts : list Qc) (e : exn) :
  add_noise add_noise_at clean noise ts = Exc e → ∃ msg, e = RuntimeError msg.
Proof.
  unfold add_noise.
  destruct (bcast _ noise ts) as [scaled|e'] eqn:Hs.
  - apply bcast_raises. intros c3 nt e'. apply bcast3_raises.
  - intros [= <-]. eapply bcast_raises; [|exact Hs]. done.
Qed.

Lemma mask_noise_same_shape (B C H W : nat) (noise mask : tensor4) :
  has_shape4 B C H W noise → has_shape4 B C H W mask →
  mask_noise noise mask = Val (zip4 Qcmult noise (map4 (λ m, 1 - m) mask)).
Proof.
  intros Hn Hm. unfold mask_noise.
  apply (bcast4_same_shape _ B C H W); [done | by apply map4_shape].
Qed.

Lemma at4_mask_noise (noise mask : tensor4) (b c y x : nat) (n m : Qc) :
  at4 noise b c y x = Some n → at4 mask b c y x = Some m →
  at4 (zip4 Qcmult noise (map4 (λ m, 1 - m) mask)) b c y x
    = Some (n * (1 - m)).
Proof.
  intros Hnv Hmv. apply at4_zip4; [done|]. by rewrite at4_map4, Hmv.
Qed.

Lemma mask_noise_shape (B C H W : nat) (noise mask : tensor4) :
  has_shape4 B C H W noise → has_shape4 B C H W mask →
  has_shape4 B C H W (zip4 Qcmult noise (map4 (λ m, 1 - m) mask)).
Proof.
  intros Hn Hm. apply zip4_shape; [done | by apply map4_shape].
Qed.

(** The composed input, entry by entry, for any scheduler. *)
Lemma compose_input_entries (cfg : general_config)
    (clean noise mask : tensor4) (timesteps : list Qc) (B C H W : nat) :
  has_shape4 B C H W clean →
  has_shape4 B C H W noise →
  has_shape4 B C H W mask →
  length timesteps = B →
  Forall (λ k, k < C)%nat (known_channels cfg) →
  (same_mask cfg = true → known_channels cfg ≠ []) →
  ∃ masked concat_mask noisy input,
    mask_noise noise mask = Val masked ∧
    select_channels mask (mask_channels cfg) = Val concat_mask ∧
    add_noise add_noise_at clean masked timesteps = Val noisy ∧
    cat_channels noisy concat_mask = Val input ∧
    compose_input add_noise_at cfg clean noise mask timesteps = Val input ∧
    (∀ b c y x v n m t,
       at4 clean b c y x = Some v → at4 noise b c y x = Some n →
       at4 mask b c y x = Some m → timesteps !! b = Some t →
       at4 input b c y x = Some (add_noise_at v (n * (1 - m)) t) ∧
       (m = 1 → at4 input b c y x = Some (add_noise_at v 0 t) ∧
                ((∀ v' t', add_noise_at v' 0 t' = v') →
                 at4 input b c y x = Some v)) ∧
       (m = 0 → at4 input b c y x = Some (add_noise_at v n t))) ∧
    (∀ b j k y x,
       (b < B)%nat → mask_channels cfg !! j = Some k →
       at4 input b (C + j) y x = at4 mask b k y x) ∧
    has_shape4 B (length (mask_channels cfg)) H W concat_mask ∧
    has_shape4 B C H W noisy ∧
    input = zip_with app noisy concat_mask.
Proof.
  intros Hclean Hnoise Hmask Hts Hkc Hsame.
  assert (Hmc : Forall (λ k, k < C)%nat (mask_channels cfg)).
  { unfold mask_channels. destruct (same_mask cfg); [by apply Forall_take | done]. }
  destruct (select_channels_ok B C H W mask (mask_channels cfg) Hmask Hmc)
    as (cm & Hcm & Hlen & Hlook).
  assert (Hcmo : concat_mask_of cfg mask = Val cm).
  { unfold concat_mask_of. unfold mask_channels in Hcm.
    destruct (same_mask cfg); [|done].
    destruct (known_channels cfg) as [|k kc]; [by destruct Hsame|].
    cbn in *. by destruct kc. }
  pose proof (mask_noise_same_shape B C H W noise mask Hnoise Hmask) as Hmn.
  pose proof (mask_noise_shape B C H W noise mask Hnoise Hmask) as Hmns.
  set (masked := zip4 Qcmult noise (map4 (λ m, 1 - m) mask)) in *.
  pose proof (add_noise_same_shape B C H W clean masked timesteps
                Hclean Hmns Hts) as Han.
  pose proof (entries_shape B C H W clean masked timesteps Hclean Hmns Hts)
    as Hnoisy.
  set (noisy := entries clean masked timesteps) in *.
  pose proof (select_channels_shape B C H W mask cm (mask_channels cfg)
                Hmask Hcm) as Hcms.
  pose proof (cat_channels_returns B C (length (mask_channels cfg)) H W
                noisy cm Hnoisy Hcms) as Hcat.
  exists masked, cm, noisy, (zip_with app noisy cm).
  split; [done|]. split; [done|]. split; [done|]. split; [done|].
  split; [unfold compose_input; by rewrite Hmn, Hcmo, Han|].
  split; [|split; [|done]].
  - intros b c y x v n m t Hv Hn Hm Ht.
    assert (Hin : at4 (zip_with app noisy cm) b c y x
                  = Some (add_noise_at v (n * (1 - m)) t)).
    { apply (at4_cat_channels_l noisy cm); [done|].
      apply at4_entries; [done| |done]. by apply at4_mask_noise. }
    split; [done|]. split.
    + intros ->. rewrite Hin.
      replace (n * (1 - 1)) with (Q2Qc 0) by ring.
      split; [done|]. intros Hzero. by rewrite Hzero.
    + intros ->. rewrite Hin. by replace (n * (1 - 0)) with n by ring.
  - intros b j k y x Hb Hj.
    rewrite (at4_cat_channels_r B C H W noisy cm) by done.
    by apply Hlook.
Qed.

End ComposeInput.

(** C1.  On a batch, a noise tensor and a mask of one shape (B, C, H, W),
    with one timestep per sample and known channels below C (and at least
    one under the same-mask policy), the input composed by lines 373-380
    is the scheduler's [add_noise] applied to the clean images, the noise
    multiplied by [1 - mask] and the timesteps, followed along the channel
    dimension by the mask channels of [mask_channels].  Entry by entry of
    the first C channels: the input is [add_noise_at] of the clean entry
    and [noise * (1 - mask)]; where the mask is 1 the noise handed to the
    scheduler is 0, and where the mask is 0 the scheduler is handed the
    whole noise entry.  Channel C + j of the input is channel
    [mask_channels !! j] of the mask.  Under the scheduler of the EDM
    formulation, which adds the noise scaled by the noise level of the
    timestep, the input retains the clean value wherever the mask is 1
    and is the clean value plus the scaled noise wherever the mask is 0. *)
Theorem compose_input_spec (add_noise_at : Qc → Qc → Qc → Qc)
    (sigma_at : Qc → Qc) (cfg : general_config)
    (clean noise mask : tensor4) (timesteps : list Qc) (B C H W : nat) :
  has_shape4 B C H W clean →
  has_shape4 B C H W noise →
  has_shape4 B C H W mask →
  length timesteps = B →
  Forall (λ k, k < C)%nat (known_channels cfg) →
  (same_mask cfg = true → known_channels cfg ≠ []) →
  (∃ masked concat_mask noisy input,
     mask_noise noise mask = Val masked ∧
     select_channels mask (mask_channels cfg) = Val concat_mask ∧
     add_noise add_noise_at clean masked timesteps = Val noisy ∧
     cat_channels noisy concat_mask = Val input ∧
     compose_input add_noise_at cfg clean noise mask timesteps = Val input ∧
     (∀ b c y x v n m t,
        at4 clean b c y x = Some v → at4 noise b c y x = Some n →
        at4 mask b c y x = Some m → timesteps !! b = Some t →
        at4 input b c y x = Some (add_noise_at v (n * (1 - m)) t) ∧
        (m = 1 → at4 input b c y x = Some (add_noise_at v 0 t) ∧
                 ((∀ v' t', add_noise_at v' 0 t' = v') →
                  at4 input b c y x = Some v)) ∧
        (m = 0 → at4 input b c y x = Some (add_noise_at v n t))) ∧
     (∀ b j k y x,
        (b < B)%nat → mask_channels cfg !! j = Some k →
        at4 input b (C + j) y x = at4 mask b k y x))
  ∧ (∃ input,
       compose_input (edm_add_noise_at sigma_at) cfg clean noise mask timesteps
         = Val input ∧
       ∀ b c y x v n m t,
         at4 clean b c y x = Some v → at4 noise b c y x = Some n →
         at4 mask b c y x = Some m → timesteps !! b = Some t →
         (m = 1 → at4 input b c y x = Some v) ∧
         (m = 0 → at4 input b c y x = Some (v + n * sigma_at t))).
Proof.
  intros Hclean Hnoise Hmask Hts Hkc Hsame.
  split.
  { destruct (compose_input_entries add_noise_at cfg clean noise mask
                timesteps B C H W Hclean Hnoise Hmask Hts Hkc Hsame)
      as (masked & cm & noisy & input & ? & ? & ? & ? & ? & ? & ? & _).
    by exists masked, cm, noisy, input. }
  destruct (compose_input_entries (edm_add_noise_at sigma_at) cfg clean noise
              mask timesteps B C H W Hclean Hnoise Hmask Hts Hkc Hsame)
    as (_ & _ & _ & input & _ & _ & _ & _ & Hin & Hentry & _).
  exists input. split; [done|].
  intros b c y x v n m t Hv Hn Hm Ht.
  destruct (Hentry b c y x v n m t Hv Hn Hm Ht) as (_ & H1 & H0).
  split.
  - intros Hm1. destruct (H1 Hm1) as [_ Hkeep]. apply Hkeep.
    intros v' t'. unfold edm_add_noise_at. ring.
  - intros Hm0. by rewrite (H0 Hm0).
Qed.

Example compose_input_run :
  compose_input (edm_add_noise_at (λ t, t)) Toy.edm Toy.batch Toy.noise Toy.mask [2] =
    Val (of_ints [[ [[1; 14]]; [[17; 20]]; [[1; 0]] ]]%Z).
Proof. compute_done. Qed.

(** A mask of another width than the noise: line 373 raises. *)
Example compose_input_mismatch_run :
  ∃ msg,
    compose_input (edm_add_noise_at (λ t, t)) Toy.edm Toy.batch Toy.noise
      (of_ints [[ [[1; 0; 0]]; [[0; 0; 0]] ]]%Z) [2] = Exc (RuntimeError msg).
Proof.
  exists "The size of tensor a must match the size of tensor b". compute_done.
Qed.

Lemma compose_input_spec_witness :
  (∃ masked concat_mask noisy input,
     mask_noise Toy.noise Toy.mask = Val masked ∧
     select_channels Toy.mask (mask_channels Toy.edm) = Val concat_mask ∧
     add_noise (edm_add_noise_at (λ t, t)) Toy.batch masked [2] = Val noisy ∧
     cat_channels noisy concat_mask = Val input ∧
     compose_input (edm_add_noise_at (λ t, t)) Toy.edm Toy.batch Toy.noise Toy.mask [2]
       = Val input ∧
     (∀ b c y x v n m t,
        at4 Toy.batch b c y x = Some v → at4 Toy.noise b c y x = Some n →
        at4 Toy.mask b c y x = Some m → [2] !! b = Some t →
        at4 input b c y x = Some (edm_add_noise_at (λ t, t) v (n * (1 - m)) t) ∧
        (m = 1 → at4 input b c y x = Some (edm_add_noise_at (λ t, t) v 0 t) ∧
                 ((∀ v' t', edm_add_noise_at (λ t, t) v' 0 t' = v') →
                  at4 input b c y x = Some v)) ∧
        (m = 0 → at4 input b c y x = Some (edm_add_noise_at (λ t, t) v n t))) ∧
     (∀ b j k y x,
        (b < 1)%nat → mask_channels Toy.edm !! j = Some k →
        at4 input b (2 + j) y x = at4 Toy.mask b k y x))
  ∧ (∃ input,
       compose_input (edm_add_noise_at (λ t, t)) Toy.edm Toy.batch Toy.noise Toy.mask [2]
         = Val input ∧
       ∀ b c y x v n m t,
         at4 Toy.batch b c y x = Some v → at4 Toy.noise b c y x = Some n →
         at4 Toy.mask b c y x = Some m → [2] !! b = Some t →
         (m = 1 → at4 input b c y x = Some v) ∧
         (m = 0 → at4 input b c y x = Some (v + n * (λ t, t) t))).
Proof.
  apply (compose_input_spec (edm_add_noise_at (λ t, t)) (λ t, t) Toy.edm
           Toy.batch Toy.noise Toy.mask [2] 1 2 1 2).
  - repeat (split || constructor).
  - repeat (split || constructor).
  - repeat (split || constructor).
  - reflexivity.
  - repeat constructor.
  - discriminate.
Defined.

(** *** The shape of the composed input *)




End ComposeInputFacts.

(** ** The EDM loss (lines 382-398) *)

Module EdmLossFacts.
Import Py Tensor TensorFacts TrainStep.



Lemma fmap_mjoin {A B} (f : A → B) (ls : list (list A)) :
  f <$> mjoin ls = mjoin (fmap (M := list) (fmap (M := list) f) ls).
Proof.
  induction ls as [|l ls IH]; [done|].
  change (mjoin (l :: ls)) with (l ++ mjoin ls).
  by rewrite fmap_app, IH.
Qed.

Lemma mjoin_cons {A} (l : list A) (ls : list (list A)) :
  mjoin (l :: ls) = l ++ mjoin ls.
Proof. done. Qed.

Lemma flatten3_map3 (f : Qc → Qc) (t : tensor3) :
  flatten3 (map3 f t) = f <$> flatten3 t.
Proof. unfold flatten3, map3. by rewrite !fmap_mjoin. Qed.

Lemma flatten4_cons (t3 : tensor3) (t : tensor4) :
  flatten4 (t3 :: t) = flatten3 t3 ++ flatten4 t.
Proof. unfold flatten4, flatten3. by rewrite mjoin_cons, !join_app. Qed.

Lemma sum_Qc_app (l k : list Qc) : sum_Qc (l ++ k) = sum_Qc l + sum_Qc k.
Proof. induction l as [|x l IH]; cbn; [ring | rewrite IH; ring]. Qed.

Lemma sum_Qc_scale (s : Qc) (l : list Qc) :
  sum_Qc (Qcmult s <$> l) = s * sum_Qc l.
Proof. induction l as [|x l IH]; cbn; [ring | rewrite IH; ring]. Qed.

Lemma length_flatten3 (C H W : nat) (t : tensor3) :
  length t = C →
  Forall (λ t2 : tensor2, length t2 = H ∧
            Forall (λ t1 : tensor1, length t1 = W) t2) t →
  length (flatten3 t) = (C * H * W)%nat.
Proof.
  intros <- H2. unfold flatten3.
  induction H2 as [|t2 t [Hh H1] _ IH]; [done|].
  rewrite mjoin_cons, join_app, length_app, IH.
  assert (length (mjoin t2) = (length t2 * W)%nat) as ->; [|cbn; lia].
  clear IH Hh. induction H1 as [|t1 t2 Hw _ IH1]; [done|].
  rewrite mjoin_cons, length_app, IH1. cbn. lia.
Qed.

Lemma length_flatten4 (B C H W : nat) (t : tensor4) :
  has_shape4 B C H W t → length (flatten4 t) = (B * C * H * W)%nat.
Proof.
  intros [<- H3]. induction H3 as [|t3 t [Hc H2] _ IH]; [done|].
  rewrite flatten4_cons, length_app, IH, (length_flatten3 C H W) by done.
  cbn. lia.
Qed.

(** The weights of a batch: one per sample, in the shape (B, 1, 1, 1). *)
Lemma edm_weighting_per_sample (sigma : list Qc) :
  edm_weighting (unsqueeze3 sigma) = Val (unsqueeze3 (edm_weight <$> sigma)).
Proof.
  unfold edm_weighting, bcast4, map4, unsqueeze3.
  rewrite <- !list_fmap_compose.
  rewrite (bcast_same_length _ (zip_with (zip_with (zip_with Qcdiv)))
             (λ t3 : tensor3, ∃ v, t3 = [[[v]]])
             (λ t3 : tensor3, ∃ v, t3 = [[[v]]])).
  - f_equal. rewrite zip_with_fmap_l, zip_with_fmap_r, zip_with_diag.
    apply list_fmap_ext. by intros _ s _.
  - by intros ? ? [a ->] [b ->].
  - apply Forall_fmap, Forall_forall. intros s _. by eexists.
  - apply Forall_fmap, Forall_forall. intros s _. by eexists.
  - by rewrite !length_fmap.
Qed.

(** A tensor of one entry is stretched over a sample. *)
Lemma bcast3_singleton (f : Qc → Qc → Qc) (s : Qc) (d3 : tensor3) :
  bcast3 f [[[s]]] d3 = Val (map3 (f s) d3).
Proof.
  unfold bcast3, map3.
  apply (bcast_singleton_l _ (λ _ d2, (fmap (M := list) (f s)) <$> d2)
           (λ _, True)); [|by apply Forall_true].
  intros d2 _.
  apply (bcast_singleton_l _ (λ _ d1, f s <$> d1) (λ _, True));
    [|by apply Forall_true].
  intros d1 _.
  by apply (bcast_singleton_l _ (λ a b, f a b) (λ _, True));
    [|apply Forall_true].
Qed.

(** A weight tensor of shape (B, 1, 1, 1) times a tensor with B samples:
    every entry of sample [b] is multiplied by the weight of sample [b]. *)
Lemma bcast_per_sample (w : list Qc) (t : tensor4) :
  length w = length t →
  bcast4 Qcmult (unsqueeze3 w) t
    = Val (zip_with (λ s d3, map3 (Qcmult s) d3) w t).
Proof.
  intros Hlen. unfold bcast4, unsqueeze3.
  rewrite (bcast_same_length _
             (λ s3 d3, match s3 with
                       | [[[s]]] => map3 (Qcmult s) d3
                       | _ => []
                       end)
             (λ t3 : tensor3, ∃ v, t3 = [[[v]]]) (λ _, True)).
  - by rewrite zip_with_fmap_l.
  - intros ? d3 [s ->] _. apply bcast3_singleton.
  - apply Forall_fmap, Forall_forall. intros s _. by eexists.
  - by apply Forall_true.
  - by rewrite length_fmap.
Qed.

Lemma weighted_sum_per_sample (w : list Qc) (t : tensor4) :
  sum_Qc (flatten4 (zip_with (λ s d3, map3 (Qcmult s) d3) w t)) =
  sum_Qc (zip_with (λ s d3, s * sum_Qc (flatten3 d3)) w t).
Proof.
  revert t. induction w as [|s w IH]; intros [|t3 t]; try done.
  cbn [zip_with]. rewrite flatten4_cons, sum_Qc_app, IH.
  by rewrite flatten3_map3, sum_Qc_scale.
Qed.

Lemma length_weighted (w : list Qc) (t : tensor4) :
  length w = length t →
  length (flatten4 (zip_with (λ s d3, map3 (Qcmult s) d3) w t)) =
  length (flatten4 t).
Proof.
  revert t. induction w as [|s w IH]; intros [|t3 t] Hlen; try done.
  cbn [zip_with]. rewrite !flatten4_cons, !length_app, IH by (cbn in Hlen; lia).
  by rewrite flatten3_map3, length_fmap.
Qed.



(** C2.  In EDM-style training the weight of a sample of noise level
    sigma is [(sigma² + 0.5²) / (sigma · 0.5)²]; the weighting tensor holds
    one such weight per sample; and on clean images and a preconditioned
    prediction of one shape (B, C, H, W) the loss is the sum over all
    entries of weight times squared error, divided by the number
    B·C·H·W of entries.  The sum is the sum over the samples of the
    weight of the sample times its summed squared error. *)
Theorem edm_loss_spec (sigma : list Qc) (clean pred : tensor4) (B C H W : nat) :
  has_shape4 B C H W clean →
  has_shape4 B C H W pred →
  length sigma = B →
  (∀ s, edm_weight s = (s ^ 2 + (1 / 2) ^ 2) / (s * (1 / 2)) ^ 2) ∧
  edm_weighting (unsqueeze3 sigma) = Val (unsqueeze3 (edm_weight <$> sigma)) ∧
  edm_loss (unsqueeze3 (edm_weight <$> sigma)) clean pred =
    Val (sum_Qc (flatten4 (weighted_sq_err sigma clean pred))
         / Qc_of_Z (Z.of_nat (B * C * H * W))) ∧
  sum_Qc (flatten4 (weighted_sq_err sigma clean pred)) =
    sum_Qc (zip_with (λ s d3, edm_weight s * sum_Qc (flatten3 d3))
              sigma (sq_err clean pred)).
Proof.
  intros Hclean Hpred Hsig.
  split; [done|]. split; [apply edm_weighting_per_sample|].
  assert (Hsq : map4 (λ d, d ^ 2) (zip4 Qcminus clean pred) = sq_err clean pred).
  { unfold map4, zip4, sq_err, zip4.
    clear. revert pred. induction clean as [|c3 clean IH]; intros [|p3 pred]; try done.
    cbn. f_equal; [|apply IH].
    clear. revert p3. induction c3 as [|c2 c3 IH]; intros [|p2 p3]; try done.
    cbn. f_equal; [|apply IH].
    clear. revert p2. induction c2 as [|c1 c2 IH]; intros [|p1 p2]; try done.
    cbn. f_equal; [|apply IH].
    clear. revert p1. induction c1 as [|x c1 IH]; intros [|y p1]; try done.
    cbn. f_equal. apply IH. }
  assert (Hshape : has_shape4 B C H W (sq_err clean pred))
    by (by apply zip4_shape).
  assert (Hlen : length (edm_weight <$> sigma) = length (sq_err clean pred)).
  { rewrite length_fmap. destruct Hshape as [-> _]. done. }
  split.
  - unfold edm_loss, mean4.
    rewrite (bcast4_same_shape _ B C H W) by done. rewrite Hsq.
    rewrite bcast_per_sample by done.
    rewrite length_weighted, (length_flatten4 B C H W) by done.
    unfold weighted_sq_err. by rewrite zip_with_fmap_l.
  - unfold weighted_sq_err.
    rewrite <- (zip_with_fmap_l (λ s d3, map3 (Qcmult s) d3) edm_weight).
    rewrite weighted_sum_per_sample. by rewrite zip_with_fmap_l.
Qed.

(** Two samples of noise levels 1/2 and 1 (weights 8 and 5) on a 1 x 2
    grid with one channel: squared errors 1, 0 and 0, 4; loss
    (8·1 + 5·4) / 4 = 7. *)
Example edm_loss_run :
  edm_weight (1 / 2) = Qc_of_Z 8 ∧ edm_weight 1 = Qc_of_Z 5 ∧
  edm_weighting (unsqueeze3 [1 / 2; 1])
    = Val (unsqueeze3 [Qc_of_Z 8; Qc_of_Z 5]) ∧
  edm_loss (unsqueeze3 [Qc_of_Z 8; Qc_of_Z 5])
    (of_ints [ [[[1; 2]]]; [[[3; 4]]] ]%Z) (of_ints [ [[[0; 2]]]; [[[3; 2]]] ]%Z)
  = Val (Qc_of_Z 7).
Proof. repeat split; compute_done. Qed.

(** A prediction of three channels against a batch of two: line 398
    raises. *)
Example edm_loss_mismatch_run :
  edm_loss (unsqueeze3 [Qc_of_Z 8])
    (of_ints [[ [[1; 2]]; [[3; 4]] ]]%Z)
    (of_ints [[ [[1; 2]]; [[3; 4]]; [[5; 6]] ]]%Z)
  = Exc (RuntimeError "The size of tensor a must match the size of tensor b").
Proof. compute_done. Qed.

Lemma edm_loss_spec_witness :
  (∀ s, edm_weight s = (s ^ 2 + (1 / 2) ^ 2) / (s * (1 / 2)) ^ 2) ∧
  edm_weighting (unsqueeze3 [1 / 2; 1])
    = Val (unsqueeze3 (edm_weight <$> [1 / 2; 1])) ∧
  edm_loss (unsqueeze3 (edm_weight <$> [1 / 2; 1]))
      (of_ints [ [[[1; 2]]]; [[[3; 4]]] ]%Z) (of_ints [ [[[0; 2]]]; [[[3; 2]]] ]%Z) =
    Val (sum_Qc (flatten4 (weighted_sq_err [1 / 2; 1]
                   (of_ints [ [[[1; 2]]]; [[[3; 4]]] ]%Z)
                   (of_ints [ [[[0; 2]]]; [[[3; 2]]] ]%Z)))
         / Qc_of_Z (Z.of_nat (2 * 1 * 1 * 2))) ∧
  sum_Qc (flatten4 (weighted_sq_err [1 / 2; 1]
            (of_ints [ [[[1; 2]]]; [[[3; 4]]] ]%Z)
            (of_ints [ [[[0; 2]]]; [[[3; 2]]] ]%Z))) =
    sum_Qc (zip_with (λ s d3, edm_weight s * sum_Qc (flatten3 d3))
              [1 / 2; 1]
              (sq_err (of_ints [ [[[1; 2]]]; [[[3; 4]]] ]%Z)
                      (of_ints [ [[[0; 2]]]; [[[3; 2]]] ]%Z))).
Proof.
  apply (edm_loss_spec [1 / 2; 1]
           (of_ints [ [[[1; 2]]]; [[[3; 4]]] ]%Z)
           (of_ints [ [[[0; 2]]]; [[[3; 2]]] ]%Z) 2 1 1 2).
  - repeat (split || constructor).
  - repeat (split || constructor).
  - reflexivity.
Defined.

End EdmLossFacts.

(** ** The training step: random state and unassigned names *)

Module TrainStepFacts.
Import Py Tensor TrainStep.

Section StepFacts.
Variable G : Type.
Variable randn : nat * nat * nat * nat → G → tensor4 * G.
Variable randint : nat → nat → G → list nat * G.
Variable noise_sampler : nat → G → list nat * G.
Variable rand : G → Qc * G.
Variable create_scatter_mask : tensor4 → list nat → Qc → G → tensor4 * G.
Variable scheduler_timesteps : list Qc.
Variable num_train_timesteps : nat.
Variable add_noise_at : Qc → Qc → Qc → Qc.
Variable sigma_at : Qc → Qc.
Variable precondition_inputs : tensor4 → tensor4 → outcome tensor4.
Variable precondition_outputs : tensor4 → tensor4 → tensor4 → outcome tensor4.
Variable unet : tensor4 → list Qc → outcome tensor4.
Variable out_channels : nat.

Local Abbreviation step :=
  (train_step G randn randint noise_sampler rand create_scatter_mask
     scheduler_timesteps num_train_timesteps add_noise_at sigma_at
     precondition_inputs precondition_outputs unet out_channels).


Lemma oblivious_ret {A} (a : A) : oblivious G (ret a).
Proof. by intros g w. Qed.

Lemma oblivious_lift {A} (o : outcome A) : oblivious G (lift o).
Proof. by intros g w. Qed.

Lemma oblivious_draw {A} (f : G → A * G) : oblivious G (draw G f).
Proof. intros g w. unfold draw. cbn. by destruct (f (default_rng G w)). Qed.

Lemma oblivious_assign (f : locals → locals) : oblivious G (assign G f).
Proof. by intros g w. Qed.

Lemma oblivious_read {A} (name : string) (field : locals → option A) :
  oblivious G (read G name field).
Proof. intros g w. unfold read. cbn. by destruct (field (vars G w)). Qed.

Lemma oblivious_bind {A B} (m : M (world G) A) (k : A → M (world G) B) :
  oblivious G m → (∀ a, oblivious G (k a)) → oblivious G (bind m k).
Proof.
  intros Hm Hk g w. unfold bind. rewrite Hm.
  destruct (m w) as [[a|e] w']; cbn; [apply Hk | done].
Qed.

Lemma oblivious_if {A} (b : bool) (m1 m2 : M (world G) A) :
  oblivious G m1 → oblivious G m2 → oblivious G (if b then m1 else m2).
Proof. by destruct b. Qed.

Create HintDb oblivious discriminated.
#[local] Hint Resolve oblivious_ret oblivious_lift oblivious_draw
  oblivious_assign oblivious_read oblivious_if : oblivious.

Lemma train_step_oblivious (cfg : general_config) (batch : tensor4) :
  oblivious G (step cfg batch).
Proof.
  unfold train_step.
  repeat (first [ apply oblivious_bind; [|intros ?]
                | apply oblivious_if
                | solve [auto with oblivious] ]).
Qed.

Lemma oblivious_generator {A} (m : M (world G) A) (w : world G) :
  oblivious G m → generator G (m w).2 = generator G w.
Proof.
  intros Hm. specialize (Hm (generator G w) w).
  assert (with_generator (generator G w) w = w) as Hw by (by destruct w).
  rewrite Hw in Hm. destruct (m w) as [r w']. cbn in *.
  injection Hm as Hm. rewrite Hm at 1. done.
Qed.

(** C6, as the code has it.  The draws of the training step (noise,
    timesteps or sigma indices, sparsity ratio, scatter mask) take no
    generator argument: they read and advance the process-wide random
    state.  Two passes from equal batches, equal process-wide random
    states and equal assigned names end alike (same noise, timesteps,
    mask and loss, or the same exception) and leave equal random states
    and names, whatever the states of the generator object are; and the
    generator object is left as it was. *)
Theorem train_step_governed_by_default_rng (cfg : general_config)
    (batch : tensor4) (w1 w2 : world G) :
  default_rng G w1 = default_rng G w2 →
  vars G w1 = vars G w2 →
  (step cfg batch w1).1 = (step cfg batch w2).1 ∧
  default_rng G (step cfg batch w1).2 = default_rng G (step cfg batch w2).2 ∧
  vars G (step cfg batch w1).2 = vars G (step cfg batch w2).2 ∧
  generator G (step cfg batch w1).2 = generator G w1 ∧
  generator G (step cfg batch w2).2 = generator G w2.
Proof.
  intros Hrng Hvars.
  assert (w2 = with_generator (generator G w2) w1) as Hw2.
  { destruct w1, w2. cbn in *. by subst. }
  pose proof (train_step_oblivious cfg batch) as Hob.
  split; [|split; [|split; [|split]]]; try (by apply oblivious_generator).
  all: rewrite Hw2 at 1; rewrite Hob; done.
Qed.

(** *** No pass completes without EDM-style training *)

Lemma select_list_raises {A} (l : list A) (idx : list nat) (e : exn) :
  select_list l idx = Exc e → e = IndexError.
Proof.
  revert e. induction idx as [|i idx IH]; intros e; cbn; [done|].
  unfold select_one. destruct (l !! i).
  - destruct (select_list l idx); [done|]. intros [= <-]. by apply IH.
  - destruct (select_list l idx); by intros [= <-].
Qed.

Lemma select_channels_raises (t : tensor4) (idx : list nat) (e : exn) :
  select_channels t idx = Exc e → e = IndexError.
Proof.
  revert e. induction t as [|t3 t IH]; intros e; cbn; [done|].
  destruct (select_list t3 idx) eqn:E3.
  - destruct (select_channels t idx); [done|]. intros [= <-]. by apply IH.
  - destruct (select_channels t idx); intros [= <-];
      by apply select_list_raises in E3.
Qed.

Lemma compose_input_raises (cfg : general_config)
    (clean noise mask : tensor4) (ts : list Qc) (e : exn) :
  compose_input add_noise_at cfg clean noise mask ts = Exc e →
  e = IndexError ∨ ∃ msg, e = RuntimeError msg.
Proof.
  unfold compose_input.
  destruct (mask_noise noise mask) as [masked|e'] eqn:Hm.
  2:{ intros [= <-]. right. by eapply TensorFacts.bcast4_raises. }
  destruct (concat_mask_of cfg mask) as [cm|e'] eqn:Hcm.
  2:{ intros [= <-]. left. unfold concat_mask_of in Hcm.
      destruct (same_mask cfg).
      - destruct (known_channels cfg !! 0%nat); [|by injection Hcm].
        by apply select_channels_raises in Hcm.
      - by apply select_channels_raises in Hcm. }
  destruct (add_noise add_noise_at clean masked ts) as [noisy|e'] eqn:Hn.
  2:{ intros [= <-]. right. by eapply ComposeInputFacts.add_noise_raises. }
  intros Hcat. right. by eapply TensorFacts.cat_channels_raises.
Qed.

(** C7.  With [do_edm_style_training] false, a pass entered with [x_in] or
    [loss] not assigned (as [main] enters the loop) ends in an exception,
    for every batch, random state and behaviour of the collaborators, and
    assigns neither name, so every later pass fails too.  The exception is
    the [UnboundLocalError] of [x_in] at the call of the network or, were
    [x_in] assigned, that of [loss] at [loss.item()]; an [IndexError] can
    only come earlier, from the selection of the mask channels, and so
    can a [RuntimeError], from sizes that do not match at lines
    373-380; and were [x_in] assigned, the network could raise on it at
    line 386, before [loss] is read. *)
Theorem non_edm_step_raises (cfg : general_config) (batch : tensor4)
    (w : world G) :
  do_edm_style_training cfg = false →
  x_in (vars G w) = None ∨ loss (vars G w) = None →
  ∃ e w',
    step cfg batch w = (Exc e, w') ∧
    vars G w' = vars G w ∧
    (e = IndexError
     ∨ (∃ msg, e = RuntimeError msg)
     ∨ (e = UnboundLocalError "x_in" ∧ x_in (vars G w) = None)
     ∨ (e = UnboundLocalError "loss" ∧ loss (vars G w) = None)
     ∨ (∃ x ts, x_in (vars G w) = Some x ∧ unet x ts = Exc e)).
Proof.
  intros Hedm Hun. unfold train_step, bind, draw, lift, ret, read, read_local,
    raise. rewrite Hedm. cbn.
  destruct (randn _ _) as [noise g1].
  destruct (randint _ _ _) as [ts g2]. cbn.
  destruct (rand _) as [ratio g3]. cbn.
  destruct (create_scatter_mask _ _ _ _) as [mask g4]. cbn.
  destruct (compose_input _ _ _ _ _ _) as [input|e] eqn:Hin.
  - destruct (x_in (vars G w)) as [x|] eqn:Hx; cbn.
    + destruct Hun as [Hun|Hun]; [done|].
      destruct (unet x _) as [out|e] eqn:Hout; cbn.
      * rewrite Hun. cbn.
        eexists _, _. split; [done|]. split; [done|]. do 3 right. by left.
      * eexists _, _. split; [done|]. split; [done|]. do 4 right. eauto.
    + eexists _, _. split; [done|]. split; [done|]. right. right. left. done.
  - apply compose_input_raises in Hin as [->|Hrt].
    + eexists _, _. split; [done|]. split; [done|]. by left.
    + eexists _, _. split; [done|]. split; [done|]. right. by left.
Qed.

End StepFacts.

(** In the small instance a pass from the state of [main] at loop entry
    stops at the call of the network. *)
Lemma non_edm_step_raises_witness :
  ∃ e w',
    Toy.train_step Toy.non_edm Toy.batch (Toy.start 1 7) = (Exc e, w') ∧
    vars Z w' = vars Z (Toy.start 1 7) ∧
    (e = IndexError
     ∨ (∃ msg, e = RuntimeError msg)
     ∨ (e = UnboundLocalError "x_in" ∧ x_in (vars Z (Toy.start 1 7)) = None)
     ∨ (e = UnboundLocalError "loss" ∧ loss (vars Z (Toy.start 1 7)) = None)
     ∨ (∃ x ts, x_in (vars Z (Toy.start 1 7)) = Some x ∧ Toy.unet x ts = Exc e)).
Proof.
  apply (non_edm_step_raises Z Toy.randn Toy.randint Toy.noise_sampler Toy.rand
           Toy.create_scatter_mask Toy.scheduler_timesteps 3 Toy.add_noise_at
           Toy.sigma_at Toy.precondition_inputs Toy.precondition_outputs
           Toy.unet 2 Toy.non_edm Toy.batch (Toy.start 1 7)).
  - reflexivity.
  - left. reflexivity.
Defined.

Example non_edm_step_run :
  (Toy.train_step Toy.non_edm Toy.batch (Toy.start 1 7)).1
    = Exc (UnboundLocalError "x_in").
Proof. vm_compute. reflexivity. Qed.

(** Two passes in the small instance that differ in the state of the
    generator object only. *)
Lemma train_step_governed_by_default_rng_witness :
  (Toy.train_step Toy.edm Toy.batch (Toy.start 1 7)).1
    = (Toy.train_step Toy.edm Toy.batch (Toy.start 1 8)).1 ∧
  default_rng Z (Toy.train_step Toy.edm Toy.batch (Toy.start 1 7)).2
    = default_rng Z (Toy.train_step Toy.edm Toy.batch (Toy.start 1 8)).2 ∧
  vars Z (Toy.train_step Toy.edm Toy.batch (Toy.start 1 7)).2
    = vars Z (Toy.train_step Toy.edm Toy.batch (Toy.start 1 8)).2 ∧
  generator Z (Toy.train_step Toy.edm Toy.batch (Toy.start 1 7)).2
    = generator Z (Toy.start 1 7) ∧
  generator Z (Toy.train_step Toy.edm Toy.batch (Toy.start 1 8)).2
    = generator Z (Toy.start 1 8).
Proof.
  apply (train_step_governed_by_default_rng Z Toy.randn Toy.randint
           Toy.noise_sampler Toy.rand Toy.create_scatter_mask
           Toy.scheduler_timesteps 3 Toy.add_noise_at Toy.sigma_at
           Toy.precondition_inputs Toy.precondition_outputs Toy.unet 2
           Toy.edm Toy.batch (Toy.start 1 7) (Toy.start 1 8));
    reflexivity.
Defined.

(** Two passes from the same batch, the same names and the same state 7 of
    the generator object, the process-wide random state being 1 in one and
    2 in the other: the noise is all 1 with loss 17/2 in one, all 2 with
    loss 4 in the other. *)
Lemma equal_generator_different_noise :
  generator Z (Toy.start 1 7) = generator Z (Toy.start 2 7) ∧
  vars Z (Toy.start 1 7) = vars Z (Toy.start 2 7) ∧
  Toy.noise_and_loss (Toy.train_step Toy.edm Toy.batch (Toy.start 1 7))
    = Some (of_ints [[ [[1; 1]]; [[1; 1]] ]]%Z, Q2Qc (17 # 2)) ∧
  Toy.noise_and_loss (Toy.train_step Toy.edm Toy.batch (Toy.start 2 7))
    = Some (of_ints [[ [[2; 2]]; [[2; 2]] ]]%Z, Q2Qc 4).
Proof.
  split; [reflexivity|]. split; [reflexivity|].
  split; compute_done.
Qed.

(** *** Passes under EDM-style training *)

Import TensorFacts ComposeInputFacts.

Section EdmStepFacts.
Variable G : Type.
Variable randn : nat * nat * nat * nat → G → tensor4 * G.
Variable randint : nat → nat → G → list nat * G.
Variable noise_sampler : nat → G → list nat * G.
Variable rand : G → Qc * G.
Variable create_scatter_mask : tensor4 → list nat → Qc → G → tensor4 * G.
Variable scheduler_timesteps : list Qc.
Variable num_train_timesteps : nat.
Variable add_noise_at : Qc → Qc → Qc → Qc.
Variable sigma_at : Qc → Qc.
Variable precondition_inputs : tensor4 → tensor4 → outcome tensor4.
Variable precondition_outputs : tensor4 → tensor4 → tensor4 → outcome tensor4.
Variable unet : tensor4 → list Qc → outcome tensor4.
Variable out_channels : nat.

Local Abbreviation edm_step :=
  (train_step G randn randint noise_sampler rand create_scatter_mask
     scheduler_timesteps num_train_timesteps add_noise_at sigma_at
     precondition_inputs precondition_outputs unet out_channels).



End EdmStepFacts.



(** A network that returns the three channels of its input, on the batch
    of two channels: the subtraction of line 398 raises, after [sigmas]
    and [x_in] are assigned, and [loss] stays unassigned. *)
Example edm_step_mismatch_run :
  let pass :=
    TrainStep.train_step Z Toy.randn Toy.randint Toy.noise_sampler Toy.rand
      Toy.create_scatter_mask Toy.scheduler_timesteps 3 Toy.add_noise_at
      Toy.sigma_at Toy.precondition_inputs Toy.precondition_outputs
      (λ x _, Val x) 2 Toy.edm Toy.batch (Toy.start 1 7) in
  pass.1 = Exc (RuntimeError
                  "The size of tensor a must match the size of tensor b") ∧
  sigmas (vars Z pass.2) = Some (of_ints [[ [[2]] ]]%Z) ∧
  x_in (vars Z pass.2) = Some (of_ints [[ [[1; 2]]; [[5; 6]]; [[1; 1]] ]]%Z) ∧
  loss (vars Z pass.2) = None.
Proof. cbv zeta. repeat split; compute_done. Qed.

End TrainStepFacts.

(** ** Nearest-point interpolation and [vt_obs.__call__] *)

Module VtObsInterpFacts.
Import Py Tensor GridPoints VtObs VtObsInterp.
Import TensorFacts EdmLossFacts.

(** *** The first least entry of a row *)

Lemma argmin_from_spec (pre row : list Z) (best_i : nat) (best : Z) :
  pre !! best_i = Some best →
  Forall (λ v, best ≤ v)%Z pre →
  (∀ j v, (j < best_i)%nat → pre !! j = Some v → (best < v)%Z) →
  ∃ m, (pre ++ row) !! argmin_from (length pre) best_i best row = Some m ∧
       Forall (λ v, m ≤ v)%Z (pre ++ row) ∧
       ∀ j v, (j < argmin_from (length pre) best_i best row)%nat →
              (pre ++ row) !! j = Some v → (m < v)%Z.
Proof.
  revert pre best_i best.
  induction row as [|v row IH]; intros pre best_i best Hbest Hmin Hfirst.
  - cbn. rewrite app_nil_r. eauto.
  - cbn [argmin_from].
    replace (pre ++ v :: row) with ((pre ++ [v]) ++ row)
      by (by rewrite <- (assoc_L (++))).
    replace (S (length pre)) with (length (pre ++ [v]))
      by (rewrite length_app; cbn; lia).
    destruct (decide (v < best)%Z) as [Hlt|Hge].
    + apply IH.
      * by rewrite lookup_app_r, Nat.sub_diag.
      * apply Forall_app. split; [|by repeat constructor].
        eapply Forall_impl; [exact Hmin|]. cbn. intros; lia.
      * intros j u Hj Hu. rewrite lookup_app_l in Hu by done.
        rewrite Forall_forall in Hmin.
        specialize (Hmin u ltac:(by eapply list_elem_of_lookup_2)). lia.
    + assert (best_i < length pre)%nat by (by eapply lookup_lt_Some).
      apply IH.
      * by rewrite lookup_app_l.
      * apply Forall_app. split; [done|]. repeat constructor. lia.
      * intros j u Hj Hu. rewrite lookup_app_l in Hu by lia. by eapply Hfirst.
Qed.

Lemma argmin_row_spec (row : list Z) :
  row ≠ [] →
  ∃ m, row !! argmin_row row = Some m ∧
       Forall (λ v, m ≤ v)%Z row ∧
       ∀ j v, (j < argmin_row row)%nat → row !! j = Some v → (m < v)%Z.
Proof.
  destruct row as [|v row]; [done|]. intros _.
  apply (argmin_from_spec [v] row 0 v); [done | by repeat constructor |].
  intros j u Hj. lia.
Qed.

(** The nearest point: its index, minimality and being the first. *)
Lemma nearest_point (points : list (Z * Z)) (p : Z * Z) :
  points ≠ [] →
  ∃ q, points !! argmin_row (dist2 p <$> points) = Some q ∧
       (∀ q', q' ∈ points → (dist2 p q ≤ dist2 p q')%Z) ∧
       ∀ j q', (j < argmin_row (dist2 p <$> points))%nat →
               points !! j = Some q' → (dist2 p q < dist2 p q')%Z.
Proof.
  intros Hne.
  destruct (argmin_row_spec (dist2 p <$> points)) as (m & Hm & Hmin & Hfirst).
  { by destruct points. }
  rewrite list_lookup_fmap in Hm.
  destruct (points !! argmin_row (dist2 p <$> points)) as [q|] eqn:Hq; [|done].
  injection Hm as <-. exists q. split; [done|]. split.
  - intros q' Hq'. rewrite Forall_fmap, Forall_forall in Hmin. by apply Hmin.
  - intros j q' Hj Hq'. apply (Hfirst j); [done|].
    by rewrite list_lookup_fmap, Hq'.
Qed.

Lemma dist2_zero (p q : Z * Z) : dist2 p q = 0%Z ↔ p = q.
Proof.
  destruct p as [a b], q as [c d]. unfold dist2. cbn. split.
  - intros H. f_equal; nia.
  - intros [= -> ->]. lia.
Qed.

Lemma dist2_nonneg (p q : Z * Z) : (0 ≤ dist2 p q)%Z.
Proof. unfold dist2. nia. Qed.

(** At one of the points the nearest point is that point. *)
Lemma nearest_at_point (points : list (Z * Z)) (p : Z * Z) :
  p ∈ points → points !! argmin_row (dist2 p <$> points) = Some p.
Proof.
  intros Hp.
  destruct (nearest_point points p) as (q & Hq & Hmin & _).
  { intros ->. by apply elem_of_nil in Hp. }
  rewrite Hq. f_equal. symmetry. apply dist2_zero.
  specialize (Hmin p Hp). rewrite (proj2 (dist2_zero p p) eq_refl) in Hmin.
  pose proof (dist2_nonneg p q). lia.
Qed.


(** *** The pixel grid *)

Lemma init_inv (xd yd xs ys : Z) (kc : option (list nat)) (self : observer) :
  init xd yd xs ys kc = Val self →
  (0 ≤ xd)%Z ∧ (0 ≤ yd)%Z ∧
  VtObs.init xd yd xs ys = Val (obs self) ∧
  x_dim (obs self) = xd ∧ y_dim (obs self) = yd ∧
  grid_x self = (λ _, seqZ 0 xd) <$> seqZ 0 yd ∧
  grid_y self = (λ y, (λ _, y) <$> seqZ 0 xd) <$> seqZ 0 yd ∧
  known_channels self = kc.
Proof.
  unfold init, linspace.
  destruct (VtObs.init xd yd xs ys) as [o|] eqn:Ho; [|done].
  destruct (decide (xd < 0)%Z); [done|].
  destruct (decide (yd < 0)%Z); [done|].
  intros [= <-]. cbn.
  assert (x_dim o = xd ∧ y_dim o = yd) as [? ?].
  { unfold VtObs.init in Ho.
    destruct (arange 0 (xd - xs + 1) xs); [|done].
    destruct (arange 0 (yd - ys + 1) ys); [|done].
    destruct (meshgrid_ij _ _). by injection Ho as <-. }
  repeat split; (done || lia).
Qed.

Lemma stack_flat_meshgrid (xs ys : list Z) :
  stack_flat (meshgrid_xy xs ys).1 (meshgrid_xy xs ys).2 =
    mjoin ((λ y, (λ x, (x, y)) <$> xs) <$> ys).
Proof.
  unfold stack_flat, meshgrid_xy. cbn [fst snd].
  induction ys as [|y ys IH]; [done|].
  cbn [fmap list_fmap]. rewrite !mjoin_cons.
  rewrite zip_with_app; [|by rewrite length_fmap].
  f_equal; [|exact IH].
  rewrite zip_with_fmap_r. by rewrite zip_with_diag.
Qed.

Lemma chunks_mjoin (cols : nat) (rows : tensor2) :
  Forall (λ r, length r = cols) rows →
  chunks (length rows) cols (mjoin rows) = rows.
Proof.
  induction 1 as [|r rows Hr _ IH]; [done|].
  cbn [length chunks]. rewrite mjoin_cons.
  rewrite take_app_length', drop_app_length' by done. by rewrite IH.
Qed.

Lemma select_list_total {A} (d : A) (l : list A) (idx : list nat) :
  Forall (λ k, k < length l)%nat idx →
  select_list l idx = Val ((λ k, default d (l !! k)) <$> idx).
Proof.
  induction 1 as [|k idx Hk _ IH]; [done|].
  cbn. unfold select_one. rewrite IH.
  destruct (lookup_lt_is_Some_2 l k Hk) as [a ->]. done.
Qed.

(** The interpolated plane of an observer: pixel (x, y) holds the value
    at the first of the points nearest to it. *)
Lemma interpolate_returns (xd yd xs ys : Z) (kc : option (list nat))
    (self : observer) (points : list (Z * Z)) (field : list Qc) :
  init xd yd xs ys kc = Val self →
  points ≠ [] →
  length field = length points →
  interpolate self points field =
    Val ((λ y, (λ x, nearest_value points field (x, y)) <$> seqZ 0 xd)
           <$> seqZ 0 yd).
Proof.
  intros Hinit Hne Hlen.
  destruct (init_inv _ _ _ _ _ _ Hinit) as (Hxd & Hyd & _ & Hx & Hy & Hgx & Hgy & _).
  unfold interpolate, _torch_griddata_nearest.
  pose proof (stack_flat_meshgrid (seqZ 0 xd) (seqZ 0 yd)) as Hxi.
  unfold meshgrid_xy in Hxi. cbn [fst snd] in Hxi.
  rewrite Hgx, Hgy, Hxi, Hx, Hy.
  set (rows := (λ y, (λ x, (x, y)) <$> seqZ 0 xd) <$> seqZ 0 yd).
  unfold argmin. rewrite decide_False by (by destruct points).
  rewrite (select_list_total (Q2Qc 0)).
  2:{ apply Forall_fmap, Forall_fmap, Forall_forall. intros p _. cbn.
      destruct (nearest_point points p Hne) as (q & Hq & _).
      rewrite Hlen. by eapply lookup_lt_Some. }
  unfold cdist. rewrite <- !list_fmap_compose.
  change (fmap (M := list) _ (mjoin rows))
    with (nearest_value points field <$> mjoin rows).
  rewrite fmap_mjoin.
  assert (Hrows : length rows = Z.to_nat yd).
  { unfold rows. by rewrite length_fmap, length_seqZ. }
  assert (Hcols : Forall (λ r : list (Z * Z), length r = Z.to_nat xd) rows).
  { apply Forall_fmap, Forall_forall. intros y _. cbn.
    by rewrite length_fmap, length_seqZ. }
  unfold reshape. rewrite decide_True.
  - f_equal. rewrite <- Hrows.
    replace (length rows)
      with (length (fmap (M := list) (fmap (M := list) (nearest_value points field)) rows))
      by (by rewrite length_fmap).
    rewrite chunks_mjoin.
    + unfold rows. rewrite <- list_fmap_compose. apply list_fmap_ext.
      intros _ y _. cbn. by rewrite <- list_fmap_compose.
    + apply Forall_fmap. eapply Forall_impl; [exact Hcols|].
      cbn. intros r Hr. by rewrite length_fmap.
  - split; [done|]. split; [done|].
    rewrite <- fmap_mjoin, length_fmap.
    assert (length (mjoin rows) = (Z.to_nat yd * Z.to_nat xd)%nat) as ->; [|lia].
    rewrite <- Hrows. clear Hrows. induction Hcols as [|r rows' Hr _ IH]; [done|].
    rewrite mjoin_cons, length_app, IH, Hr. cbn. lia.
Qed.


Lemma at2Z_pixels (F : Z * Z → Qc) (xd yd x y : Z) :
  (0 ≤ x < xd)%Z → (0 ≤ y < yd)%Z →
  at2Z ((λ y, (λ x, F (x, y)) <$> seqZ 0 xd) <$> seqZ 0 yd) y x = Some (F (x, y)).
Proof.
  intros Hx Hy. unfold at2Z, at2. rewrite decide_True by lia.
  rewrite list_lookup_fmap, lookup_seqZ_lt by lia. cbn.
  rewrite list_lookup_fmap, lookup_seqZ_lt by lia. cbn.
  by rewrite !Z2Nat.id by lia.
Qed.

(** X21.  [vt_obs.interpolate] on an observer built by [__init__]:
    without points [torch.argmin] reduces over no column and the call
    raises [IndexError]; with points, and one value per point, it returns
    a plane of [y_dim] rows and [x_dim] columns in which pixel (x, y)
    holds the value of a point at least distance from (x, y), the first
    such point in the order of the points; a pixel that is itself a point
    holds the value of that point.  Distances are compared exactly. *)
Theorem interpolate_nearest (xd yd xs ys : Z) (kc : option (list nat))
    (self : observer) (points : list (Z * Z)) (field : list Qc) :
  init xd yd xs ys kc = Val self →
  length field = length points →
  (points = [] → interpolate self points field = Exc IndexError) ∧
  (points ≠ [] →
   ∃ out,
     interpolate self points field = Val out ∧
     length out = Z.to_nat yd ∧
     Forall (λ row, length row = Z.to_nat xd) out ∧
     ∀ x y, (0 ≤ x < xd)%Z → (0 ≤ y < yd)%Z →
       ∃ m q v,
         points !! m = Some q ∧ field !! m = Some v ∧
         at2Z out y x = Some v ∧
         (∀ q', q' ∈ points → (dist2 (x, y) q ≤ dist2 (x, y) q')%Z) ∧
         (∀ j q', (j < m)%nat → points !! j = Some q' →
                  (dist2 (x, y) q < dist2 (x, y) q')%Z) ∧
         ((x, y) ∈ points → q = (x, y))).
Proof.
  intros Hinit Hlen. split.
  { intros ->. reflexivity. }
  intros Hne. rewrite (interpolate_returns _ _ _ _ _ _ _ _ Hinit Hne Hlen).
  eexists. split; [done|].
  split; [by rewrite length_fmap, length_seqZ|].
  split.
  { apply Forall_fmap, Forall_forall. intros y _. cbn.
    by rewrite length_fmap, length_seqZ. }
  intros x y Hx Hy.
  destruct (nearest_point points (x, y) Hne) as (q & Hq & Hmin & Hfirst).
  destruct (lookup_lt_is_Some_2 field (argmin_row (dist2 (x, y) <$> points)))
    as [v Hv].
  { rewrite Hlen. by eapply lookup_lt_Some. }
  exists (argmin_row (dist2 (x, y) <$> points)), q, v.
  split; [done|]. split; [done|]. split.
  { rewrite at2Z_pixels by done. unfold nearest_value. by rewrite Hv. }
  split; [done|]. split; [done|].
  intros Hin. rewrite (nearest_at_point points (x, y) Hin) in Hq. by injection Hq.
Qed.


(** *** Gathering the field at the points *)

Lemma index_nonneg {A} (l : list A) (i : nat) (a : A) :
  l !! i = Some a → index l (Z.of_nat i) = Val a.
Proof.
  intros Ha. unfold index. cbv zeta.
  pose proof (lookup_lt_Some _ _ _ Ha).
  destruct (decide (Z.of_nat i < 0)%Z); [lia|].
  rewrite decide_True by lia. by rewrite Nat2Z.id, Ha.
Qed.

Lemma gather_returns (plane : tensor2) (pts : list (nat * nat)) :
  Forall (λ '(x, y), is_Some (at2 plane y x)) pts →
  ∃ field, gather plane (to_Z_points pts) = Val field ∧
           length field = length pts ∧
           ∀ i x y, pts !! i = Some (x, y) → field !! i = at2 plane y x.
Proof.
  induction 1 as [|[x y] pts [v Hv] _ (field & IH & Hlen & Hlook)].
  - exists []. split; [done|]. split; [done|]. by intros i x y.
  - unfold at2 in Hv. destruct (plane !! y) as [row|] eqn:Hrow; [|done].
    cbn in Hv. cbn [to_Z_points fmap list_fmap gather].
    rewrite (index_nonneg plane y row Hrow), (index_nonneg row x v Hv).
    fold (to_Z_points pts). rewrite IH.
    exists (v :: field). split; [done|]. split; [cbn; lia|].
    intros [|i] x' y'; cbn.
    + intros [= <- <-]. unfold at2. by rewrite Hrow.
    + apply Hlook.
Qed.

(** *** Planes *)

Lemma has_shape4_plane (B C H W : nat) (t : tensor4) (b c : nat) (p : tensor2) :
  has_shape4 B C H W t → (t3 ← t !! b; t3 !! c) = Some p →
  (b < B)%nat ∧ (c < C)%nat ∧ length p = H ∧ Forall (λ r, length r = W) p.
Proof.
  intros [Hb H3] Hp. destruct (t !! b) as [t3|] eqn:Ht3; [|done]. cbn in Hp.
  rewrite Forall_forall in H3.
  destruct (H3 t3) as [Hc H2]; [by eapply list_elem_of_lookup_2|].
  rewrite Forall_forall in H2.
  destruct (H2 p) as [Hh Hw]; [by eapply list_elem_of_lookup_2|].
  apply lookup_lt_Some in Ht3, Hp. repeat split; (done || lia).
Qed.

Lemma at2_is_Some (H W : nat) (p : tensor2) (y x : nat) :
  length p = H → Forall (λ r, length r = W) p →
  is_Some (at2 p y x) ↔ (y < H ∧ x < W)%nat.
Proof.
  intros Hh Hw. unfold at2. split.
  - intros [v Hv]. destruct (p !! y) as [row|] eqn:Hrow; [|done]. cbn in Hv.
    rewrite Forall_forall in Hw.
    specialize (Hw row ltac:(by eapply list_elem_of_lookup_2)).
    apply lookup_lt_Some in Hrow, Hv. lia.
  - intros [Hy Hx].
    destruct (lookup_lt_is_Some_2 p y) as [row Hrow]; [lia|]. rewrite Hrow. cbn.
    rewrite Forall_forall in Hw.
    specialize (Hw row ltac:(by eapply list_elem_of_lookup_2)).
    apply lookup_lt_is_Some_2. lia.
Qed.

Lemma at2_pixels (F : Z * Z → Qc) (H W y x : nat) :
  at2 ((λ y, (λ x, F (x, y)) <$> seqZ 0 (Z.of_nat W)) <$> seqZ 0 (Z.of_nat H)) y x =
    if decide (y < H ∧ x < W)%nat then Some (F (Z.of_nat x, Z.of_nat y)) else None.
Proof.
  unfold at2. rewrite list_lookup_fmap.
  destruct (decide (y < H ∧ x < W)%nat) as [[Hy Hx]|Hn].
  - rewrite lookup_seqZ_lt by lia. cbn.
    rewrite list_lookup_fmap, lookup_seqZ_lt by lia. done.
  - destruct (decide (y < H)%nat).
    + rewrite lookup_seqZ_lt by lia. cbn.
      rewrite list_lookup_fmap, lookup_seqZ_ge by lia. done.
    + rewrite lookup_seqZ_ge by lia. done.
Qed.

Lemma elem_of_to_Z_points (pts : list (nat * nat)) (x y : nat) :
  (Z.of_nat x, Z.of_nat y) ∈ to_Z_points pts ↔ (x, y) ∈ pts.
Proof.
  unfold to_Z_points. rewrite list_elem_of_fmap. split.
  - intros ([x' y'] & [= Hx Hy] & Hin).
    apply Nat2Z.inj in Hx, Hy. by subst.
  - intros Hin. by exists (x, y).
Qed.

(** One channel of one sample under a mask: where the mask plane is
    observed the interpolated plane holds the field, and it holds no
    value but those of the field at observed points. *)
Lemma channel_body_observed (xs ys : Z) (kc : option (list nat))
    (self : observer) (H W : nat) (b k : nat) (t3 : tensor3) (m : tensor4)
    (gp : list (Z * Z)) (fplane mplane : tensor2) :
  init (Z.of_nat W) (Z.of_nat H) xs ys kc = Val self →
  t3 !! k = Some fplane →
  length fplane = H → Forall (λ r, length r = W) fplane →
  (m3 ← m !! b; m3 !! k) = Some mplane →
  length mplane = H → Forall (λ r, length r = W) mplane →
  plane_points mplane ≠ [] →
  ∃ out,
    channel_body self b t3 (Some (Rank4 m)) gp k = Val out ∧
    length out = H ∧ Forall (λ r, length r = W) out ∧
    (∀ y x q, at2 mplane y x = Some q → q ≠ 0 → at2 out y x = at2 fplane y x) ∧
    (∀ y x v, at2 out y x = Some v →
       ∃ y' x' q, at2 mplane y' x' = Some q ∧ q ≠ 0 ∧ at2 fplane y' x' = Some v).
Proof.
  intros Hinit Hf Hfh Hfw Hm Hmh Hmw Hobs.
  unfold channel_body, select_one. rewrite Hf.
  rewrite GridPointsFacts.grid_points_rank4, Hm.
  set (pts := plane_points mplane) in *.
  assert (Hin : ∀ x y, (x, y) ∈ pts → (y < H ∧ x < W)%nat).
  { intros x y Hxy. apply GridPointsFacts.elem_of_plane_points in Hxy as (q & Hq & _).
    apply (at2_is_Some H W mplane); eauto. }
  destruct (gather_returns fplane pts) as (field & -> & Hlen & Hfield).
  { apply Forall_forall. intros [x y] Hxy.
    apply (at2_is_Some H W fplane); auto. }
  assert (Hne : to_Z_points pts ≠ []).
  { unfold to_Z_points. by destruct pts. }
  assert (Hlen' : length field = length (to_Z_points pts)).
  { unfold to_Z_points. by rewrite length_fmap. }
  rewrite (interpolate_returns _ _ _ _ _ _ _ _ Hinit Hne Hlen').
  eexists. split; [done|].
  split; [by rewrite length_fmap, length_seqZ, Nat2Z.id|].
  split.
  { apply Forall_fmap, Forall_forall. intros y _. cbn.
    by rewrite length_fmap, length_seqZ, Nat2Z.id. }
  assert (Hpt : ∀ i q, to_Z_points pts !! i = Some q →
            ∃ x y, pts !! i = Some (x, y) ∧ q = (Z.of_nat x, Z.of_nat y)).
  { intros i q. unfold to_Z_points. rewrite list_lookup_fmap.
    destruct (pts !! i) as [[x y]|]; [|done]. intros [= <-]. eauto. }
  split.
  - intros y x q Hq Hq0.
    assert (Hxy : (x, y) ∈ pts).
    { apply GridPointsFacts.elem_of_plane_points. eauto. }
    destruct (Hin x y Hxy) as [Hy Hx].
    rewrite at2_pixels, decide_True by done.
    unfold nearest_value.
    pose proof (nearest_at_point (to_Z_points pts) (Z.of_nat x, Z.of_nat y)
                  (proj2 (elem_of_to_Z_points pts x y) Hxy)) as Hnear.
    destruct (Hpt _ _ Hnear) as (x' & y' & Hi & [= Hx' Hy']).
    apply Nat2Z.inj in Hx', Hy'. subst x' y'.
    rewrite (Hfield _ _ _ Hi).
    destruct (proj2 (at2_is_Some H W fplane y x Hfh Hfw) (conj Hy Hx)) as [v ->].
    done.
  - intros y x v. rewrite at2_pixels.
    destruct (decide (y < H ∧ x < W)%nat) as [[Hy Hx]|]; [|done].
    intros [= <-]. unfold nearest_value.
    destruct (nearest_point (to_Z_points pts) (Z.of_nat x, Z.of_nat y) Hne)
      as (q & Hq & _).
    destruct (Hpt _ _ Hq) as (x' & y' & Hi & ->).
    rewrite (Hfield _ _ _ Hi).
    assert (Hxy : (x', y') ∈ pts) by (by eapply list_elem_of_lookup_2).
    destruct (Hin x' y' Hxy) as [Hy' Hx'].
    apply GridPointsFacts.elem_of_plane_points in Hxy as (q' & Hq' & Hq0).
    destruct (proj2 (at2_is_Some H W fplane y' x' Hfh Hfw) (conj Hy' Hx'))
      as [v Hv].
    exists y', x', q'. rewrite Hv. done.
Qed.

Lemma channel_body_unobserved (self : observer) (b k : nat) (t3 : tensor3)
    (m : tensor4) (gp : list (Z * Z)) (fplane : tensor2) :
  t3 !! k = Some fplane →
  get_grid_points_from_mask b k (Rank4 m) = [] →
  channel_body self b t3 (Some (Rank4 m)) gp k = Exc IndexError.
Proof.
  intros Hf Hm. unfold channel_body, select_one. by rewrite Hf, Hm.
Qed.


(** *** Exceptions under a mask *)

Lemma index_raises {A} (l : list A) (i : Z) (e : exn) :
  index l i = Exc e → e = IndexError.
Proof.
  unfold index. cbv zeta. destruct (decide _); [|by intros [= <-]].
  destruct (l !! _); [done | by intros [= <-]].
Qed.

Lemma gather_outcome (plane : tensor2) (pts : list (Z * Z)) :
  match gather plane pts with
  | Val field => length field = length pts
  | Exc e => e = IndexError
  end.
Proof.
  induction pts as [|[x y] pts IH]; [done|]. cbn [gather].
  destruct (index plane y) as [row|e] eqn:Hrow; [|by eapply index_raises].
  destruct (index row x) as [v|e] eqn:Hv; [|by eapply index_raises].
  destruct (gather plane pts) as [field|e]; [cbn; lia | done].
Qed.

Lemma channel_body_raises (xd yd xs ys : Z) (kc : option (list nat))
    (self : observer) (b k : nat) (t3 : tensor3) (mask : option mask_arg)
    (gp : list (Z * Z)) (e : exn) :
  init xd yd xs ys kc = Val self →
  channel_body self b t3 mask gp k = Exc e → e = IndexError.
Proof.
  intros Hinit. unfold channel_body, select_one.
  destruct (t3 !! k) as [plane|]; [|by intros [= <-]].
  set (pts := match mask with Some m => _ | None => gp end).
  pose proof (gather_outcome plane pts) as Hg.
  destruct (gather plane pts) as [field|e']; [|by intros [= <-]].
  destruct (decide (pts = [])) as [->|Hne].
  - by intros [= <-].
  - by rewrite (interpolate_returns _ _ _ _ _ _ _ _ Hinit Hne Hg).
Qed.

(** *** The loops *)

Lemma channel_loop_returns (self : observer) (b : nat) (t3 : tensor3)
    (mask : option mask_arg) (gp : list (Z * Z)) (channels : list nat)
    (P : nat → tensor2 → Prop) :
  (∀ k, k ∈ channels →
        ∃ out, channel_body self b t3 mask gp k = Val out ∧ P k out) →
  ∃ r, channel_loop self b t3 mask gp channels = Val r ∧
       length r = length channels ∧
       ∀ idx k, channels !! idx = Some k → ∃ out, r !! idx = Some out ∧ P k out.
Proof.
  induction channels as [|k channels IH]; intros Hall.
  - exists []. split; [done|]. split; [done|]. by intros idx k.
  - destruct (Hall k) as (out & Hout & HP); [by left|].
    destruct IH as (r & Hr & Hlen & Hlook).
    { intros k' Hk'. apply Hall. by right. }
    cbn [channel_loop]. rewrite Hout, Hr.
    exists (out :: r). split; [done|]. split; [cbn; lia|].
    intros [|idx] k'; cbn; [intros [= <-]; eauto | apply Hlook].
Qed.

Lemma channel_loop_raises (self : observer) (b : nat) (t3 : tensor3)
    (mask : option mask_arg) (gp : list (Z * Z)) (channels : list nat) :
  (∀ k e, channel_body self b t3 mask gp k = Exc e → e = IndexError) →
  (∀ e, channel_loop self b t3 mask gp channels = Exc e → e = IndexError) ∧
  ((∃ k e, k ∈ channels ∧ channel_body self b t3 mask gp k = Exc e) →
   channel_loop self b t3 mask gp channels = Exc IndexError).
Proof.
  intros Hbody. induction channels as [|k channels [IH1 IH2]].
  - split; [done|]. intros (k & e & Hk & _). by apply elem_of_nil in Hk.
  - cbn [channel_loop].
    destruct (channel_body self b t3 mask gp k) as [out|e] eqn:Hout.
    + destruct (channel_loop self b t3 mask gp channels) as [r|e] eqn:Hr.
      * split; [done|]. intros (k' & e & Hk' & He).
        apply elem_of_cons in Hk' as [->|Hk']; [congruence|].
        discriminate IH2. eauto.
      * rewrite (IH1 e eq_refl). split; [by intros e' [= <-] | done].
    + rewrite (Hbody k e Hout). split; [by intros e' [= <-] | done].
Qed.

Section MaskLoops.
Context {G : Type}.
Variable next_raw : G → Z * G.

(** With a mask the loop over the samples draws nothing. *)
Lemma batch_loop_mask_returns (self : observer) (b : nat) (known : tensor4)
    (mk : mask_arg) (coords : option (list Z * list Z)) (channels : list nat)
    (P : nat → tensor3 → tensor3 → Prop) (g : G) :
  (∀ i t3, known !! i = Some t3 →
     ∃ r, channel_loop self (b + i) t3 (Some mk) [] channels = Val r ∧
          P (b + i)%nat t3 r) →
  ∃ out, batch_loop next_raw self b known (Some mk) coords channels g
           = (Val out, g) ∧
         length out = length known ∧
         ∀ i t3, known !! i = Some t3 →
                 ∃ r, out !! i = Some r ∧ P (b + i)%nat t3 r.
Proof.
  revert b. induction known as [|t3 known IH]; intros b Hall.
  - exists []. split; [done|]. split; [done|]. by intros i t3.
  - destruct (Hall 0%nat t3 eq_refl) as (r & Hr & HP).
    rewrite Nat.add_0_r in Hr, HP.
    destruct (IH (S b)) as (out & Hout & Hlen & Hlook).
    { intros i t3' Hi. replace (S b + i)%nat with (b + S i)%nat by lia.
      by apply Hall. }
    cbn [batch_loop]. unfold bind, ret, lift. rewrite Hr, Hout.
    exists (r :: out). split; [done|]. split; [cbn; lia|].
    intros [|i] t3'; cbn.
    + intros [= <-]. rewrite Nat.add_0_r. eauto.
    + intros Hi. replace (b + S i)%nat with (S b + i)%nat by lia. by apply Hlook.
Qed.

Lemma batch_loop_mask_raises (self : observer) (b : nat) (known : tensor4)
    (mk : mask_arg) (coords : option (list Z * list Z)) (channels : list nat)
    (g : G) :
  (∀ i t3 e, known !! i = Some t3 →
     channel_loop self (b + i) t3 (Some mk) [] channels = Exc e → e = IndexError) →
  (∃ i t3 e, known !! i = Some t3 ∧
     channel_loop self (b + i) t3 (Some mk) [] channels = Exc e) →
  batch_loop next_raw self b known (Some mk) coords channels g
    = (Exc IndexError, g).
Proof.
  revert b. induction known as [|t3 known IH]; intros b Hexc Hsome.
  - by destruct Hsome as (i & t3 & e & Hi & _).
  - cbn [batch_loop]. unfold bind, ret, lift.
    destruct (channel_loop self b t3 (Some mk) [] channels) as [r|e] eqn:Hr.
    + rewrite (IH (S b)); [done|..].
      * intros i t3' e Hi. replace (S b + i)%nat with (b + S i)%nat by lia.
        by apply Hexc.
      * destruct Hsome as ([|i] & t3' & e & Hi & He); cbn in Hi.
        -- injection Hi as <-. rewrite Nat.add_0_r in He. congruence.
        -- exists i, t3', e. split; [done|].
           by replace (S b + i)%nat with (b + S i)%nat by lia.
    + rewrite (Hexc 0%nat t3 e); [done | done | by rewrite Nat.add_0_r].
Qed.

End MaskLoops.


(** *** [__call__] under a mask *)

Lemma call_batch_loop {G} (next_raw : G → Z * G) (self : observer)
    (known : tensor4) (mask : option mask_arg)
    (coords : option (list Z * list Z)) (B C H W : nat) (g : G) :
  has_shape4 B C H W known →
  __call__ next_raw self known mask coords g =
    batch_loop next_raw self 0 known mask coords
      (match known_channels self with None => seq 0 C | Some kc => kc end) g.
Proof.
  intros [Hb H3]. unfold __call__.
  destruct H3 as [|t3 known [Hc H2] H3]; [by destruct (known_channels self)|].
  unfold TrainStep.shape4.
  destruct t3 as [|t2 t3]; [by subst C|].
  destruct t2 as [|t1 t2]; by subst C.
Qed.

Lemma has_shape4_lookup (B C H W : nat) (t : tensor4) (b c : nat) :
  has_shape4 B C H W t → (b < B)%nat → (c < C)%nat →
  ∃ t3 p, t !! b = Some t3 ∧ t3 !! c = Some p ∧
          length p = H ∧ Forall (λ r, length r = W) p.
Proof.
  intros [Hb H3] Hbb Hcc.
  destruct (lookup_lt_is_Some_2 t b) as [t3 Ht3]; [lia|].
  rewrite Forall_forall in H3.
  destruct (H3 t3) as [Hc H2]; [by eapply list_elem_of_lookup_2|].
  destruct (lookup_lt_is_Some_2 t3 c) as [p Hp]; [lia|].
  rewrite Forall_forall in H2.
  destruct (H2 p) as [Hh Hw]; [by eapply list_elem_of_lookup_2|].
  by exists t3, p.
Qed.

Lemma at4_plane (t : tensor4) (t3 : tensor3) (p : tensor2) (b c y x : nat) :
  t !! b = Some t3 → t3 !! c = Some p → at4 t b c y x = at2 p y x.
Proof. intros Ht3 Hp. unfold at4, at2. by rewrite Ht3; cbn; rewrite Hp. Qed.

(** X22.  [vt_obs.__call__] with a mask of rank 4.  On known fields and
    a mask of one shape (B, C, H, W), an observer built for that grid,
    known channels below C and a mask that is nonzero somewhere in every
    known channel of every sample: the call returns, without drawing from
    the generator, a tensor of shape (B, number of known channels, H, W);
    at every position where the mask of a known channel is nonzero, the
    result holds the known field of that channel at that position; and
    every value of the result is the known field of the same sample and
    channel at a position where the mask is nonzero. *)
Theorem call_with_mask_reproduces_observations {G} (next_raw : G → Z * G)
    (xs ys : Z) (kc : option (list nat)) (self : observer)
    (known mask : tensor4) (coords : option (list Z * list Z))
    (B C H W : nat) (g : G) :
  init (Z.of_nat W) (Z.of_nat H) xs ys kc = Val self →
  has_shape4 B C H W known →
  has_shape4 B C H W mask →
  Forall (λ k, k < C)%nat (default (seq 0 C) kc) →
  (∀ b k, (b < B)%nat → k ∈ default (seq 0 C) kc →
          ∃ y x q, at4 mask b k y x = Some q ∧ q ≠ 0) →
  ∃ out,
    __call__ next_raw self known (Some (Rank4 mask)) coords g = (Val out, g) ∧
    has_shape4 B (length (default (seq 0 C) kc)) H W out ∧
    (∀ b idx k y x q,
       default (seq 0 C) kc !! idx = Some k →
       at4 mask b k y x = Some q → q ≠ 0 →
       at4 out b idx y x = at4 known b k y x) ∧
    (∀ b idx k y x v,
       default (seq 0 C) kc !! idx = Some k →
       at4 out b idx y x = Some v →
       ∃ y' x' q, at4 mask b k y' x' = Some q ∧ q ≠ 0 ∧
                  at4 known b k y' x' = Some v).
Proof.
  intros Hinit Hknown Hmask Hkc Hobs.
  destruct (init_inv _ _ _ _ _ _ Hinit) as (_ & _ & _ & _ & _ & _ & _ & Hch).
  rewrite (call_batch_loop next_raw self known _ coords B C H W g Hknown), Hch.
  replace (match kc with None => seq 0 C | Some kc0 => kc0 end)
    with (default (seq 0 C) kc) by (by destruct kc).
  set (channels := default (seq 0 C) kc) in *.
  set (Pplane := λ (b k : nat) (out : tensor2),
         length out = H ∧ Forall (λ r : tensor1, length r = W) out ∧
         (∀ y x q, at4 mask b k y x = Some q → q ≠ 0 →
                   at2 out y x = at4 known b k y x) ∧
         (∀ y x v, at2 out y x = Some v →
            ∃ y' x' q, at4 mask b k y' x' = Some q ∧ q ≠ 0 ∧
                       at4 known b k y' x' = Some v)).
  destruct (batch_loop_mask_returns next_raw self 0 known (Rank4 mask) coords
              channels
              (λ b t3 r, length r = length channels ∧
                 ∀ idx k, channels !! idx = Some k →
                          ∃ out, r !! idx = Some out ∧ Pplane b k out) g)
    as (out & Hout & Hlen & Hlook).
  { intros b t3 Ht3. cbn [Nat.add].
    assert (Hb : (b < B)%nat).
    { destruct Hknown as [<- _]. by eapply lookup_lt_Some. }
    destruct (channel_loop_returns self b t3 (Some (Rank4 mask)) [] channels
                (Pplane b)) as (r & Hr & Hrl & Hrlook); [|by exists r].
    intros k Hk.
    assert (Hkc' : (k < C)%nat) by (rewrite Forall_forall in Hkc; by apply Hkc).
    destruct (has_shape4_lookup B C H W known b k Hknown Hb Hkc')
      as (t3' & fplane & Ht3' & Hf & Hfh & Hfw).
    assert (t3' = t3) as -> by congruence.
    destruct (has_shape4_lookup B C H W mask b k Hmask Hb Hkc')
      as (m3 & mplane & Hm3 & Hm & Hmh & Hmw).
    destruct (channel_body_observed xs ys kc self H W b k t3 mask [] fplane mplane)
      as (po & Hpo & Hpoh & Hpow & Hrep & Hval); try done.
    { by rewrite Hm3. }
    { destruct (Hobs b k Hb Hk) as (y & x & q & Hq & Hq0).
      rewrite (at4_plane mask m3 mplane b k y x Hm3 Hm) in Hq.
      intros Hnil.
      assert ((x, y) ∈ plane_points mplane) as Hin
        by (apply GridPointsFacts.elem_of_plane_points; eauto).
      rewrite Hnil in Hin. by apply elem_of_nil in Hin. }
    exists po. split; [done|]. split; [done|]. split; [done|]. split.
    - intros y x q Hq Hq0.
      rewrite (at4_plane mask m3 mplane b k y x Hm3 Hm) in Hq.
      rewrite (at4_plane known t3 fplane b k y x Ht3 Hf). by eapply Hrep.
    - intros y x v Hv. destruct (Hval y x v Hv) as (y' & x' & q & Hq & Hq0 & Hfv).
      exists y', x', q.
      rewrite (at4_plane mask m3 mplane b k y' x' Hm3 Hm).
      by rewrite (at4_plane known t3 fplane b k y' x' Ht3 Hf). }
  cbn [Nat.add] in Hlook.
  exists out. split; [done|]. split; [|split].
  - split; [destruct Hknown as [<- _]; done|].
    apply Forall_lookup. intros b r Hr.
    destruct (lookup_lt_is_Some_2 known b) as [t3 Ht3].
    { rewrite <- Hlen. by eapply lookup_lt_Some. }
    destruct (Hlook b t3 Ht3) as (r' & Hr' & Hrl & Hrlook).
    assert (r' = r) as -> by congruence.
    split; [done|]. apply Forall_lookup. intros idx po Hpo.
    destruct (lookup_lt_is_Some_2 channels idx) as [k Hk].
    { rewrite <- Hrl. by eapply lookup_lt_Some. }
    destruct (Hrlook idx k Hk) as (po' & Hpo' & Hh & Hw & _).
    assert (po' = po) as -> by congruence. done.
  - intros b idx k y x q Hk Hq Hq0.
    assert (Hb : is_Some (known !! b)).
    { apply lookup_lt_is_Some_2. destruct Hknown as [-> _], Hmask as [<- _].
      unfold at4 in Hq. destruct (mask !! b) eqn:E; [|done].
      by eapply lookup_lt_Some. }
    destruct Hb as [t3 Ht3].
    destruct (Hlook b t3 Ht3) as (r & Hr & _ & Hrlook).
    destruct (Hrlook idx k Hk) as (po & Hpo & _ & _ & Hrep & _).
    rewrite (at4_plane out r po b idx y x Hr Hpo). by eapply Hrep.
  - intros b idx k y x v Hk Hv.
    unfold at4 in Hv. destruct (out !! b) as [r|] eqn:Hr; [|done]. cbn in Hv.
    destruct (r !! idx) as [po|] eqn:Hpo; [|done]. cbn in Hv.
    destruct (lookup_lt_is_Some_2 known b) as [t3 Ht3].
    { rewrite <- Hlen. by eapply lookup_lt_Some. }
    destruct (Hlook b t3 Ht3) as (r' & Hr' & _ & Hrlook).
    assert (r' = r) as -> by congruence.
    destruct (Hrlook idx k Hk) as (po' & Hpo' & _ & _ & _ & Hval).
    assert (po' = po) as -> by congruence.
    exact (Hval y x v Hv).
Qed.


Lemma unobserved_no_points (m : tensor4) (b k : nat) :
  (∀ y x q, at4 m b k y x = Some q → q = 0) →
  get_grid_points_from_mask b k (Rank4 m) = [].
Proof.
  intros Hzero. rewrite GridPointsFacts.grid_points_rank4.
  destruct (m !! b) as [m3|] eqn:Hm3; [|done]. cbn.
  destruct (m3 !! k) as [plane|] eqn:Hp; [|done].
  destruct (plane_points plane) as [|[x y] pts] eqn:Hpts; [done|].
  assert ((x, y) ∈ plane_points plane) as Hin by (rewrite Hpts; left).
  apply GridPointsFacts.elem_of_plane_points in Hin as (q & Hq & Hq0).
  rewrite <- (at4_plane m m3 plane b k y x Hm3 Hp) in Hq.
  by apply Hzero in Hq.
Qed.

Lemma channel_body_no_points (self : observer) (b k : nat) (t3 : tensor3)
    (mk : mask_arg) (gp : list (Z * Z)) :
  get_grid_points_from_mask b k mk = [] →
  channel_body self b t3 (Some mk) gp k = Exc IndexError.
Proof.
  intros Hm. unfold channel_body, select_one. rewrite Hm.
  by destruct (t3 !! k).
Qed.

Section MaskExceptions.
Context {G : Type}.
Variable next_raw : G → Z * G.

Lemma batch_loop_mask_outcome (self : observer) (b : nat) (known : tensor4)
    (mk : mask_arg) (coords : option (list Z * list Z)) (channels : list nat)
    (g : G) :
  (∀ i t3 e, known !! i = Some t3 →
     channel_loop self (b + i) t3 (Some mk) [] channels = Exc e → e = IndexError) →
  ∃ r, batch_loop next_raw self b known (Some mk) coords channels g = (r, g) ∧
       ∀ e, r = Exc e → e = IndexError.
Proof.
  revert b. induction known as [|t3 known IH]; intros b Hexc.
  - by exists (Val []).
  - cbn [batch_loop]. unfold bind, ret, lift.
    destruct (channel_loop self b t3 (Some mk) [] channels) as [r|e] eqn:Hr.
    + destruct (IH (S b)) as (rs & -> & Hrs).
      { intros i t3' e Hi. replace (S b + i)%nat with (b + S i)%nat by lia.
        by apply Hexc. }
      destruct rs as [out|e]; [by eexists | exists (Exc e); auto].
    + exists (Exc e). split; [done|]. intros e' [= <-].
      apply (Hexc 0%nat t3 e); [done | by rewrite Nat.add_0_r].
Qed.

End MaskExceptions.

(** X23.  [vt_obs.__call__] with a mask, on an observer built by
    [__init__]: the generator is never drawn from, and the only exception
    the call can end in is [IndexError].  It ends so whenever the mask of
    rank 4 is zero (or absent) on the whole plane of some sample and known
    channel, since [torch.argmin] then reduces over no point; and
    whenever a mask of rank 3 is handed in with two samples or more and
    some known channel, since the mask, read as one sample, holds no
    point of the second. *)
Theorem call_with_mask_raises_index_error {G} (next_raw : G → Z * G)
    (xd yd xs ys : Z) (kc : option (list nat)) (self : observer)
    (known : tensor4) (coords : option (list Z * list Z)) (g : G) :
  init xd yd xs ys kc = Val self →
  (∀ mk, ∃ r, __call__ next_raw self known (Some mk) coords g = (r, g) ∧
              ∀ e, r = Exc e → e = IndexError)
  ∧ (∀ (B C H W : nat) (m : tensor4) (b k : nat),
       has_shape4 B C H W known →
       (b < B)%nat → k ∈ default (seq 0 C) kc →
       (∀ y x q, at4 m b k y x = Some q → q = 0) →
       __call__ next_raw self known (Some (Rank4 m)) coords g
         = (Exc IndexError, g))
  ∧ (∀ (B C H W : nat) (m3 : tensor3),
       has_shape4 B C H W known →
       (2 ≤ B)%nat → default (seq 0 C) kc ≠ [] →
       __call__ next_raw self known (Some (Rank3 m3)) coords g
         = (Exc IndexError, g)).
Proof.
  intros Hinit.
  destruct (init_inv _ _ _ _ _ _ Hinit) as (_ & _ & _ & _ & _ & _ & _ & Hch).
  assert (Hloop : ∀ mk channels b t3 e,
            channel_loop self b t3 (Some mk) [] channels = Exc e → e = IndexError).
  { intros mk channels b t3.
    apply channel_loop_raises. intros k e. by apply (channel_body_raises _ _ _ _ _ _ _ _ _ _ _ _ Hinit). }
  assert (Hunobs : ∀ mk B C H W b k,
            has_shape4 B C H W known → (b < B)%nat →
            k ∈ default (seq 0 C) kc →
            get_grid_points_from_mask b k mk = [] →
            __call__ next_raw self known (Some mk) coords g = (Exc IndexError, g)).
  { intros mk B C H W b k Hknown Hb Hk Hnone.
    rewrite (call_batch_loop next_raw self known _ coords B C H W g Hknown), Hch.
    replace (match kc with None => seq 0 C | Some kc0 => kc0 end)
      with (default (seq 0 C) kc) by (by destruct kc).
    apply batch_loop_mask_raises; [intros i t3 e _; apply Hloop|].
    destruct (lookup_lt_is_Some_2 known b) as [t3 Ht3].
    { by destruct Hknown as [-> _]. }
    exists b, t3, IndexError. split; [done|]. cbn [Nat.add].
    apply channel_loop_raises.
    - intros k' e. by apply (channel_body_raises _ _ _ _ _ _ _ _ _ _ _ _ Hinit).
    - exists k, IndexError. split; [done|]. by apply channel_body_no_points. }
  split; [|split].
  - intros mk. unfold __call__.
    destruct (TrainStep.shape4 known) as [[[? C] ?] ?].
    apply batch_loop_mask_outcome. intros i t3 e _. apply Hloop.
  - intros B C H W m b k Hknown Hb Hk Hzero.
    apply (Hunobs (Rank4 m) B C H W b k); try done.
    by apply unobserved_no_points.
  - intros B C H W m3 Hknown HB Hne.
    destruct (default (seq 0 C) kc) as [|k chs] eqn:Hchs; [done|].
    apply (Hunobs (Rank3 m3) B C H W 1%nat k); [done | lia | |].
    + rewrite Hchs. left.
    + apply (unobserved_no_points [m3] 1 k). by intros y x q Hq.
Qed.


(** *** A 3 x 2 grid with two channels, the second one observed at (0, 0)
    and (2, 1) *)

Lemma interpolate_nearest_witness :
  ∃ self,
    init 3 2 1 1 None = Val self ∧
    (([(0, 0); (2, 1)]%Z : list (Z * Z)) = [] →
     interpolate self [(0, 0); (2, 1)]%Z [Qc_of_Z 10; Qc_of_Z 60] = Exc IndexError) ∧
    (([(0, 0); (2, 1)]%Z : list (Z * Z)) ≠ [] →
     ∃ out,
       interpolate self [(0, 0); (2, 1)]%Z [Qc_of_Z 10; Qc_of_Z 60] = Val out ∧
       length out = Z.to_nat 2 ∧
       Forall (λ row, length row = Z.to_nat 3) out ∧
       ∀ x y, (0 ≤ x < 3)%Z → (0 ≤ y < 2)%Z →
         ∃ m q v,
           ([(0, 0); (2, 1)]%Z : list (Z * Z)) !! m = Some q ∧
           [Qc_of_Z 10; Qc_of_Z 60] !! m = Some v ∧
           at2Z out y x = Some v ∧
           (∀ q', q' ∈ ([(0, 0); (2, 1)]%Z : list (Z * Z)) →
                  (dist2 (x, y) q ≤ dist2 (x, y) q')%Z) ∧
           (∀ j q', (j < m)%nat →
                    ([(0, 0); (2, 1)]%Z : list (Z * Z)) !! j = Some q' →
                    (dist2 (x, y) q < dist2 (x, y) q')%Z) ∧
           ((x, y) ∈ ([(0, 0); (2, 1)]%Z : list (Z * Z)) → q = (x, y))).
Proof.
  eexists. split; [reflexivity|].
  apply (interpolate_nearest 3 2 1 1 None _ [(0, 0); (2, 1)]%Z
           [Qc_of_Z 10; Qc_of_Z 60]); reflexivity.
Defined.

Lemma call_with_mask_reproduces_observations_witness :
  ∃ self out,
    init (Z.of_nat 3) (Z.of_nat 2) 1 1 (Some [1%nat]) = Val self ∧
    __call__ lcg self
      (of_ints [[ [[1; 2; 3]; [4; 5; 6]]; [[10; 20; 30]; [40; 50; 60]] ]]%Z)
      (Some (Rank4 (of_ints [[ [[0; 0; 0]; [0; 0; 0]]; [[1; 0; 0]; [0; 0; 1]] ]]%Z)))
      None 1%Z = (Val out, 1%Z) ∧
    has_shape4 1 (length (default (seq 0 2) (Some [1%nat]))) 2 3 out ∧
    (∀ b idx k y x q,
       default (seq 0 2) (Some [1%nat]) !! idx = Some k →
       at4 (of_ints [[ [[0; 0; 0]; [0; 0; 0]]; [[1; 0; 0]; [0; 0; 1]] ]]%Z)
         b k y x = Some q → q ≠ 0 →
       at4 out b idx y x =
         at4 (of_ints [[ [[1; 2; 3]; [4; 5; 6]]; [[10; 20; 30]; [40; 50; 60]] ]]%Z)
           b k y x) ∧
    (∀ b idx k y x v,
       default (seq 0 2) (Some [1%nat]) !! idx = Some k →
       at4 out b idx y x = Some v →
       ∃ y' x' q,
         at4 (of_ints [[ [[0; 0; 0]; [0; 0; 0]]; [[1; 0; 0]; [0; 0; 1]] ]]%Z)
           b k y' x' = Some q ∧ q ≠ 0 ∧
         at4 (of_ints [[ [[1; 2; 3]; [4; 5; 6]]; [[10; 20; 30]; [40; 50; 60]] ]]%Z)
           b k y' x' = Some v).
Proof.
  eexists. 
  assert (Hinit : init (Z.of_nat 3) (Z.of_nat 2) 1 1 (Some [1%nat]) = Val _)
    by reflexivity.
  destruct (call_with_mask_reproduces_observations lcg 1 1 (Some [1%nat]) _
              (of_ints [[ [[1; 2; 3]; [4; 5; 6]]; [[10; 20; 30]; [40; 50; 60]] ]]%Z)
              (of_ints [[ [[0; 0; 0]; [0; 0; 0]]; [[1; 0; 0]; [0; 0; 1]] ]]%Z)
              None 1 2 2 3 1%Z Hinit) as (out & Hout).
  - repeat (split || constructor).
  - repeat (split || constructor).
  - repeat constructor.
  - intros b k Hb Hk. apply list_elem_of_singleton in Hk as ->.
    assert (b = 0%nat) as -> by lia.
    exists 0%nat, 0%nat, (Qc_of_Z 1). split; [reflexivity | compute_done].
  - exists out. split; [exact Hinit | exact Hout].
Defined.

Lemma call_with_mask_raises_index_error_witness :
  ∃ self,
    init 3 2 1 1 None = Val self ∧
    (∀ mk, ∃ r,
       __call__ lcg self
         (of_ints [ [ [[1; 2; 3]; [4; 5; 6]] ]; [ [[7; 8; 9]; [1; 1; 1]] ] ]%Z)
         (Some mk) None 1%Z = (r, 1%Z) ∧
       ∀ e, r = Exc e → e = IndexError)
    ∧ (∀ (B C H W : nat) (m : tensor4) (b k : nat),
         has_shape4 B C H W
           (of_ints [ [ [[1; 2; 3]; [4; 5; 6]] ]; [ [[7; 8; 9]; [1; 1; 1]] ] ]%Z) →
         (b < B)%nat → k ∈ default (seq 0 C) None →
         (∀ y x q, at4 m b k y x = Some q → q = 0) →
         __call__ lcg self
           (of_ints [ [ [[1; 2; 3]; [4; 5; 6]] ]; [ [[7; 8; 9]; [1; 1; 1]] ] ]%Z)
           (Some (Rank4 m)) None 1%Z = (Exc IndexError, 1%Z))
    ∧ (∀ (B C H W : nat) (m3 : tensor3),
         has_shape4 B C H W
           (of_ints [ [ [[1; 2; 3]; [4; 5; 6]] ]; [ [[7; 8; 9]; [1; 1; 1]] ] ]%Z) →
         (2 ≤ B)%nat → default (seq 0 C) None ≠ [] →
         __call__ lcg self
           (of_ints [ [ [[1; 2; 3]; [4; 5; 6]] ]; [ [[7; 8; 9]; [1; 1; 1]] ] ]%Z)
           (Some (Rank3 m3)) None 1%Z = (Exc IndexError, 1%Z)).
Proof.
  eexists. split; [reflexivity|].
  apply (call_with_mask_raises_index_error lcg 3 2 1 1 None). reflexivity.
Defined.

(** A mask of rank 3 serves the first of two samples only. *)
Example call_rank3_two_samples :
  ∀ self, init 3 2 1 1 None = Val self →
    (__call__ lcg self
       (of_ints [ [ [[1; 2; 3]; [4; 5; 6]] ]; [ [[7; 8; 9]; [1; 1; 1]] ] ]%Z)
       (Some (Rank3 (of_ints [ [ [[1; 0; 0]; [0; 0; 1]] ] ]%Z !!! 0%nat)))
       None 1%Z).1 = Exc IndexError.
Proof. intros self [= <-]. vm_compute. reflexivity. Qed.

Example init_run :
  init 3 2 1 1 None =
    Val {| obs := {| x_dim := 3; y_dim := 2; x_spacing := 1; y_spacing := 1;
                     x_list := [0; 1; 2]%Z; y_list := [0; 1]%Z;
                     x_start_grid := [[0; 0]; [1; 1]; [2; 2]]%Z;
                     y_start_grid := [[0; 1]; [0; 1]; [0; 1]]%Z |};
           grid_x := [[0; 1; 2]; [0; 1; 2]]%Z;
           grid_y := [[0; 0; 0]; [1; 1; 1]]%Z;
           known_channels := None |}.
Proof. reflexivity. Qed.

Example call_run :
  ∀ self, init 3 2 1 1 (Some [1%nat]) = Val self →
    (__call__ lcg self
       (of_ints [[ [[1; 2; 3]; [4; 5; 6]]; [[10; 20; 30]; [40; 50; 60]] ]]%Z)
       (Some (Rank4 (of_ints [[ [[0; 0; 0]; [0; 0; 0]]; [[1; 0; 0]; [0; 0; 1]] ]]%Z)))
       None 1%Z).1
    = Val (of_ints [[ [[10; 10; 60]; [10; 60; 60]] ]]%Z).
Proof. intros self [= <-]. vm_compute. reflexivity. Qed.

(** *** The constructor *)

Import VtObsFacts.

Lemma arange_outcome (dim s : Z) :
  (0 ≤ dim)%Z →
  match arange 0 (dim - s + 1) s with
  | Val l => (1 ≤ s ≤ dim + 1)%Z
  | Exc e => ¬ (1 ≤ s ≤ dim + 1)%Z
  end.
Proof.
  intros Hd. unfold arange. destruct (decide (s = 0)%Z); [lia|].
  destruct (decide _); lia.
Qed.

Lemma arange_exception (start stop step : Z) (e : exn) :
  arange start stop step = Exc e → ∃ msg, e = RuntimeError msg.
Proof.
  unfold arange. destruct (decide _); [intros [= <-]; by eexists|].
  destruct (decide _); [intros [= <-]; by eexists | done].
Qed.

Lemma init_exception (xd yd xs ys : Z) (kc : option (list nat)) (e : exn) :
  init xd yd xs ys kc = Exc e → ∃ msg, e = RuntimeError msg.
Proof.
  unfold init, VtObs.init, linspace.
  destruct (arange 0 (xd - xs + 1) xs) eqn:Ex;
    [|intros [= <-]; by eapply arange_exception].
  destruct (arange 0 (yd - ys + 1) ys) eqn:Ey;
    [|intros [= <-]; by eapply arange_exception].
  cbn. destruct (decide (xd < 0)%Z); [intros [= <-]; by eexists|].
  destruct (decide (yd < 0)%Z); [intros [= <-]; by eexists | done].
Qed.

Lemma init_returns (xd yd xs ys : Z) (kc : option (list nat)) :
  (1 ≤ xs ≤ xd + 1)%Z → (1 ≤ ys ≤ yd + 1)%Z →
  init xd yd xs ys kc =
    Val {| obs := {| x_dim := xd; y_dim := yd; x_spacing := xs; y_spacing := ys;
                     x_list := (λ i, i * xs)%Z <$> seqZ 0 (xd `div` xs);
                     y_list := (λ j, j * ys)%Z <$> seqZ 0 (yd `div` ys);
                     x_start_grid :=
                       (meshgrid_ij ((λ i, i * xs)%Z <$> seqZ 0 (xd `div` xs))
                                    ((λ j, j * ys)%Z <$> seqZ 0 (yd `div` ys))).1;
                     y_start_grid :=
                       (meshgrid_ij ((λ i, i * xs)%Z <$> seqZ 0 (xd `div` xs))
                                    ((λ j, j * ys)%Z <$> seqZ 0 (yd `div` ys))).2 |};
           grid_x := (meshgrid_xy (seqZ 0 xd) (seqZ 0 yd)).1;
           grid_y := (meshgrid_xy (seqZ 0 xd) (seqZ 0 yd)).2;
           known_channels := kc |}.
Proof.
  intros Hx Hy. unfold init, VtObs.init, linspace.
  rewrite !arange_starts by done. cbn.
  rewrite decide_False by lia. rewrite decide_False by lia. done.
Qed.

Lemma init_spacing (xd yd xs ys : Z) (kc : option (list nat)) (self : observer) :
  init xd yd xs ys kc = Val self →
  (1 ≤ xs ≤ xd + 1)%Z ∧ (1 ≤ ys ≤ yd + 1)%Z.
Proof.
  intros Hinit. destruct (init_inv _ _ _ _ _ _ Hinit) as (Hxd & Hyd & Ho & _).
  unfold VtObs.init in Ho.
  pose proof (arange_outcome xd xs Hxd) as Hx.
  pose proof (arange_outcome yd ys Hyd) as Hy.
  destruct (arange 0 (xd - xs + 1) xs); [|done].
  destruct (arange 0 (yd - ys + 1) ys); [|done]. done.
Qed.

(** X25.  [vt_obs.__init__] on integer arguments returns exactly when
    [1 ≤ x_spacing ≤ x_dim + 1] and [1 ≤ y_spacing ≤ y_dim + 1]; every
    other call raises [RuntimeError], from [torch.arange] (a zero
    spacing, or bounds that disagree with the sign of the spacing) or
    from [torch.linspace] (a negative dimension).  When it returns,
    [x_list] holds the [nx = x_dim // x_spacing] multiples
    [0, x_spacing, 2 * x_spacing, ...], [y_list] the
    [ny = y_dim // y_spacing] multiples of [y_spacing], and the start
    grids have [nx] rows and [ny] columns with
    [x_start_grid[i][j] = x_list[i]] and [y_start_grid[i][j] = y_list[j]];
    a spacing of [dim + 1] is accepted and leaves the lists empty. *)
Theorem init_checks_spacing (x_dim y_dim x_spacing y_spacing : Z)
    (kc : option (list nat)) :
  ((∃ self, init x_dim y_dim x_spacing y_spacing kc = Val self) ↔
   (1 ≤ x_spacing ≤ x_dim + 1)%Z ∧ (1 ≤ y_spacing ≤ y_dim + 1)%Z) ∧
  (∀ e, init x_dim y_dim x_spacing y_spacing kc = Exc e →
        ∃ msg, e = RuntimeError msg) ∧
  (∀ self, init x_dim y_dim x_spacing y_spacing kc = Val self →
     let nx := Z.to_nat (x_dim `div` x_spacing) in
     let ny := Z.to_nat (y_dim `div` y_spacing) in
     x_list (obs self) = (λ i, i * x_spacing)%Z <$> seqZ 0 (x_dim `div` x_spacing) ∧
     y_list (obs self) = (λ j, j * y_spacing)%Z <$> seqZ 0 (y_dim `div` y_spacing) ∧
     x_start_grid (obs self) = (λ x, replicate ny x) <$> x_list (obs self) ∧
     y_start_grid (obs self) = replicate nx (y_list (obs self))).
Proof.
  split; [|split].
  - split.
    + intros [self Hinit]. by eapply init_spacing.
    + intros [Hx Hy]. eexists. by apply init_returns.
  - intros e. apply init_exception.
  - intros self Hinit nx ny.
    destruct (init_spacing _ _ _ _ _ _ Hinit) as [Hx Hy].
    rewrite init_returns in Hinit by done. injection Hinit as <-.
    cbn. split; [done|]. split; [done|]. split.
    + apply list_fmap_ext. intros _ x _.
      etrans; [by apply const_fmap|].
      by rewrite length_fmap, length_seqZ.
    + etrans; [by apply const_fmap|].
      by rewrite length_fmap, length_seqZ.
Qed.


(** *** Interpolation from points that are not read off a mask *)

Lemma gather_in_range (plane : tensor2) (gp : list (Z * Z)) :
  Forall (λ p, is_Some (at2Z plane p.2 p.1)) gp →
  ∃ field, gather plane gp = Val field ∧
           length field = length gp ∧
           ∀ i q, gp !! i = Some q → field !! i = at2Z plane q.2 q.1.
Proof.
  induction 1 as [|[x y] gp [v Hv] _ (field & IH & Hlen & Hlook)].
  - exists []. split; [done|]. split; [done|]. by intros i q.
  - unfold at2Z in Hv. cbn [fst snd] in Hv.
    destruct (decide (0 ≤ y ∧ 0 ≤ x)%Z) as [[Hy Hx]|]; [|done].
    unfold at2 in Hv. destruct (plane !! Z.to_nat y) as [row|] eqn:Hrow; [|done].
    cbn in Hv. cbn [gather].
    replace (index plane y) with (index plane (Z.of_nat (Z.to_nat y)))
      by (by rewrite Z2Nat.id).
    rewrite (index_nonneg plane _ row Hrow).
    replace (index row x) with (index row (Z.of_nat (Z.to_nat x)))
      by (by rewrite Z2Nat.id).
    rewrite (index_nonneg row _ v Hv), IH.
    exists (v :: field). split; [done|]. split; [cbn; lia|].
    intros [|i] q; cbn.
    + intros [= <-]. unfold at2Z. cbn [fst snd].
      rewrite decide_True by done. unfold at2. by rewrite Hrow.
    + apply Hlook.
Qed.

Lemma at2Z_is_Some (H W : nat) (p : tensor2) (y x : Z) :
  length p = H → Forall (λ r, length r = W) p →
  (0 ≤ x < Z.of_nat W)%Z → (0 ≤ y < Z.of_nat H)%Z →
  is_Some (at2Z p y x).
Proof.
  intros Hh Hw Hx Hy. unfold at2Z. rewrite decide_True by lia.
  apply (at2_is_Some H W p); [done..|lia].
Qed.

(** The body of the channel loop on points inside the grid: every pixel
    of the result holds the field at the first of the points nearest to
    the pixel. *)
Lemma channel_body_points (xs ys : Z) (kc : option (list nat))
    (self : observer) (H W : nat) (b k : nat) (t3 : tensor3)
    (gp : list (Z * Z)) (fplane : tensor2) :
  init (Z.of_nat W) (Z.of_nat H) xs ys kc = Val self →
  t3 !! k = Some fplane →
  length fplane = H → Forall (λ r, length r = W) fplane →
  gp ≠ [] →
  Forall (λ p, (0 ≤ p.1 < Z.of_nat W)%Z ∧ (0 ≤ p.2 < Z.of_nat H)%Z) gp →
  ∃ out,
    channel_body self b t3 None gp k = Val out ∧
    length out = H ∧ Forall (λ r, length r = W) out ∧
    ∀ y x, (y < H)%nat → (x < W)%nat →
      ∃ m q v,
        gp !! m = Some q ∧
        (∀ q', q' ∈ gp →
           (dist2 (Z.of_nat x, Z.of_nat y) q ≤ dist2 (Z.of_nat x, Z.of_nat y) q')%Z) ∧
        (∀ j q', (j < m)%nat → gp !! j = Some q' →
           (dist2 (Z.of_nat x, Z.of_nat y) q < dist2 (Z.of_nat x, Z.of_nat y) q')%Z) ∧
        ((Z.of_nat x, Z.of_nat y) ∈ gp → q = (Z.of_nat x, Z.of_nat y)) ∧
        at2 out y x = Some v ∧
        at2 fplane (Z.to_nat q.2) (Z.to_nat q.1) = Some v.
Proof.
  intros Hinit Hf Hfh Hfw Hne Hin.
  unfold channel_body, select_one. rewrite Hf.
  destruct (gather_in_range fplane gp) as (field & -> & Hlen & Hfield).
  { eapply Forall_impl; [exact Hin|]. intros [x y] [Hx Hy].
    by apply (at2Z_is_Some H W). }
  rewrite (interpolate_returns _ _ _ _ _ _ _ _ Hinit Hne Hlen).
  eexists. split; [done|].
  split; [by rewrite length_fmap, length_seqZ, Nat2Z.id|].
  split.
  { apply Forall_fmap, Forall_forall. intros y _. cbn.
    by rewrite length_fmap, length_seqZ, Nat2Z.id. }
  intros y x Hy Hx.
  destruct (nearest_point gp (Z.of_nat x, Z.of_nat y) Hne)
    as (q & Hq & Hmin & Hfirst).
  set (m := argmin_row (dist2 (Z.of_nat x, Z.of_nat y) <$> gp)) in *.
  assert (Hqin : (0 ≤ q.1 < Z.of_nat W)%Z ∧ (0 ≤ q.2 < Z.of_nat H)%Z).
  { rewrite Forall_forall in Hin. apply Hin. by eapply list_elem_of_lookup_2. }
  destruct (at2Z_is_Some H W fplane q.2 q.1 Hfh Hfw) as [v Hv]; [lia..|].
  exists m, q, v. split; [done|]. split; [done|]. split; [done|]. split.
  { intros Hxy. unfold m in Hq.
    rewrite (nearest_at_point gp _ Hxy) in Hq. by injection Hq. }
  split.
  - rewrite at2_pixels, decide_True by done. unfold nearest_value.
    fold m. by rewrite (Hfield _ _ Hq), Hv.
  - unfold at2Z in Hv. by rewrite decide_True in Hv by lia.
Qed.

Section PointLoops.
Context {G : Type}.
Variable next_raw : G → Z * G.

(** The loop over the samples without a mask: every sample gets the
    points of one call of [_get_grid_points]. *)
Lemma batch_loop_points_returns (self : observer) (b : nat) (known : tensor4)
    (coords : option (list Z * list Z)) (channels : list nat)
    (next : G → G) (Q : list (Z * Z) → Prop)
    (P : nat → list (Z * Z) → tensor3 → tensor3 → Prop) (g : G) :
  (∀ g, ∃ gp, _get_grid_points next_raw self coords g = (Val gp, next g) ∧ Q gp) →
  (∀ i t3 gp, known !! i = Some t3 → Q gp →
     ∃ r, channel_loop self (b + i) t3 None gp channels = Val r ∧
          P (b + i)%nat gp t3 r) →
  ∃ out pts,
    batch_loop next_raw self b known None coords channels g
      = (Val out, Nat.iter (length known) next g) ∧
    length out = length known ∧ length pts = length known ∧
    ∀ i t3, known !! i = Some t3 →
      ∃ r gp, out !! i = Some r ∧ pts !! i = Some gp ∧ Q gp ∧
              P (b + i)%nat gp t3 r.
Proof.
  intros Hpoints. revert b g.
  induction known as [|t3 known IH]; intros b g Hall.
  - exists [], []. split; [done|]. split; [done|]. split; [done|]. by intros i t3.
  - destruct (Hpoints g) as (gp & Hgp & HQ).
    destruct (Hall 0%nat t3 gp eq_refl HQ) as (r & Hr & HP).
    rewrite Nat.add_0_r in Hr, HP.
    destruct (IH (S b) (next g)) as (out & pts & Hout & Hlen & Hlenp & Hlook).
    { intros i t3' gp' Hi HQ'. replace (S b + i)%nat with (b + S i)%nat by lia.
      by apply Hall. }
    cbn [batch_loop]. unfold bind, ret, lift. rewrite Hgp, Hr, Hout.
    exists (r :: out), (gp :: pts). split.
    { cbn [length]. by rewrite Nat.iter_succ_r. }
    split; [cbn; lia|]. split; [cbn; lia|].
    intros [|i] t3'; cbn.
    + intros [= <-]. rewrite Nat.add_0_r. by exists r, gp.
    + intros Hi. replace (b + S i)%nat with (S b + i)%nat by lia. by apply Hlook.
Qed.

Lemma iter_draws (n B : nat) (g : G) :
  Nat.iter B (λ g, (draws G next_raw n g).2) g = (draws G next_raw (B * n) g).2.
Proof.
  revert g. induction B as [|B IH]; intros g; [done|].
  rewrite Nat.iter_succ_r, IH. cbn [Nat.mul]. by rewrite draws_app.
Qed.

End PointLoops.


(** [__call__] without a mask, for any way of getting points that yields
    points inside the grid. *)
Lemma call_points_returns {G} (next_raw : G → Z * G)
    (xs ys : Z) (kc : option (list nat)) (self : observer)
    (known : tensor4) (coords : option (list Z * list Z))
    (B C H W : nat) (next : G → G) (Q : list (Z * Z) → Prop) (g : G) :
  init (Z.of_nat W) (Z.of_nat H) xs ys kc = Val self →
  has_shape4 B C H W known →
  Forall (λ k, k < C)%nat (default (seq 0 C) kc) →
  (∀ g, ∃ gp, _get_grid_points next_raw self coords g = (Val gp, next g) ∧ Q gp) →
  (∀ gp, Q gp →
     gp ≠ [] ∧
     Forall (λ p, (0 ≤ p.1 < Z.of_nat W)%Z ∧ (0 ≤ p.2 < Z.of_nat H)%Z) gp) →
  ∃ out pts,
    __call__ next_raw self known None coords g = (Val out, Nat.iter B next g) ∧
    has_shape4 B (length (default (seq 0 C) kc)) H W out ∧
    length pts = B ∧
    ∀ b gp, pts !! b = Some gp →
      Q gp ∧
      ∀ idx k y x,
        default (seq 0 C) kc !! idx = Some k → (y < H)%nat → (x < W)%nat →
        ∃ m q v,
          gp !! m = Some q ∧
          (∀ q', q' ∈ gp →
             (dist2 (Z.of_nat x, Z.of_nat y) q
              ≤ dist2 (Z.of_nat x, Z.of_nat y) q')%Z) ∧
          (∀ j q', (j < m)%nat → gp !! j = Some q' →
             (dist2 (Z.of_nat x, Z.of_nat y) q
              < dist2 (Z.of_nat x, Z.of_nat y) q')%Z) ∧
          ((Z.of_nat x, Z.of_nat y) ∈ gp → q = (Z.of_nat x, Z.of_nat y)) ∧
          at4 out b idx y x = Some v ∧
          at4 known b k (Z.to_nat q.2) (Z.to_nat q.1) = Some v.
Proof.
  intros Hinit Hknown Hkc Hpoints HQ.
  destruct (init_inv _ _ _ _ _ _ Hinit) as (_ & _ & _ & _ & _ & _ & _ & Hch).
  rewrite (call_batch_loop next_raw self known _ coords B C H W g Hknown), Hch.
  replace (match kc with None => seq 0 C | Some kc0 => kc0 end)
    with (default (seq 0 C) kc) by (by destruct kc).
  set (channels := default (seq 0 C) kc) in *.
  set (Pplane := λ (gp : list (Z * Z)) (t3 : tensor3) (k : nat) (out : tensor2),
         length out = H ∧ Forall (λ r : tensor1, length r = W) out ∧
         ∀ y x, (y < H)%nat → (x < W)%nat →
           ∃ m q v,
             gp !! m = Some q ∧
             (∀ q', q' ∈ gp →
                (dist2 (Z.of_nat x, Z.of_nat y) q
                 ≤ dist2 (Z.of_nat x, Z.of_nat y) q')%Z) ∧
             (∀ j q', (j < m)%nat → gp !! j = Some q' →
                (dist2 (Z.of_nat x, Z.of_nat y) q
                 < dist2 (Z.of_nat x, Z.of_nat y) q')%Z) ∧
             ((Z.of_nat x, Z.of_nat y) ∈ gp → q = (Z.of_nat x, Z.of_nat y)) ∧
             at2 out y x = Some v ∧
             (t2 ← t3 !! k; at2 t2 (Z.to_nat q.2) (Z.to_nat q.1)) = Some v).
  destruct (batch_loop_points_returns next_raw self 0 known coords channels
              next Q
              (λ b gp t3 r, length r = length channels ∧
                 ∀ idx k, channels !! idx = Some k →
                          ∃ out, r !! idx = Some out ∧ Pplane gp t3 k out) g
              Hpoints)
    as (out & pts & Hout & Hlen & Hlenp & Hlook).
  { intros b t3 gp Ht3 Hgp. cbn [Nat.add].
    destruct (HQ gp Hgp) as [Hne Hin].
    assert (Hb : (b < B)%nat).
    { destruct Hknown as [<- _]. by eapply lookup_lt_Some. }
    destruct (channel_loop_returns self b t3 None gp channels
                (Pplane gp t3)) as (r & Hr & Hrl & Hrlook); [|by exists r].
    intros k Hk.
    assert (Hkc' : (k < C)%nat) by (rewrite Forall_forall in Hkc; by apply Hkc).
    destruct (has_shape4_lookup B C H W known b k Hknown Hb Hkc')
      as (t3' & fplane & Ht3' & Hf & Hfh & Hfw).
    assert (t3' = t3) as -> by congruence.
    destruct (channel_body_points xs ys kc self H W b k t3 gp fplane)
      as (po & Hpo & Hpoh & Hpow & Hnear); try done.
    exists po. split; [done|]. split; [done|]. split; [done|].
    intros y x Hy Hx.
    destruct (Hnear y x Hy Hx) as (m & q & v & ? & ? & ? & ? & ? & ?).
    exists m, q, v. rewrite Hf. done. }
  cbn [Nat.add] in Hlook.
  assert (HB : length known = B) by (by destruct Hknown).
  rewrite HB in Hout, Hlen, Hlenp.
  exists out, pts. split; [done|]. split; [|split; [done|]].
  - split; [done|].
    apply Forall_lookup. intros b r Hr.
    destruct (lookup_lt_is_Some_2 known b) as [t3 Ht3].
    { rewrite HB, <- Hlen. by eapply lookup_lt_Some. }
    destruct (Hlook b t3 Ht3) as (r' & gp & Hr' & _ & _ & Hrl & Hrlook).
    assert (r' = r) as -> by congruence.
    split; [done|]. apply Forall_lookup. intros idx po Hpo.
    destruct (lookup_lt_is_Some_2 channels idx) as [k Hk].
    { rewrite <- Hrl. by eapply lookup_lt_Some. }
    destruct (Hrlook idx k Hk) as (po' & Hpo' & Hh & Hw & _).
    assert (po' = po) as -> by congruence. done.
  - intros b gp Hgp.
    destruct (lookup_lt_is_Some_2 known b) as [t3 Ht3].
    { rewrite HB, <- Hlenp. by eapply lookup_lt_Some. }
    destruct (Hlook b t3 Ht3) as (r & gp' & Hr & Hgp' & HQgp & _ & Hrlook).
    assert (gp' = gp) as -> by congruence.
    split; [done|]. intros idx k y x Hk Hy Hx.
    destruct (Hrlook idx k Hk) as (po & Hpo & _ & _ & Hnear).
    destruct (Hnear y x Hy Hx) as (m & q & v & ? & ? & ? & ? & Hv & Hkv).
    exists m, q, v. split; [done|]. split; [done|]. split; [done|].
    split; [done|]. split.
    + by rewrite (at4_plane out r po b idx y x Hr Hpo).
    + unfold at4. rewrite Ht3. cbn. exact Hkv.
Qed.


Lemma get_grid_points_given {G} (next_raw : G → Z * G) (self : observer)
    (xc yc : list Z) (g : G) :
  length xc = length yc →
  _get_grid_points next_raw self (Some (xc, yc)) g = (Val (zip xc yc), g).
Proof.
  intros Hlen. unfold _get_grid_points, lift, column_stack.
  by rewrite decide_True.
Qed.

Lemma iter_id {A} (n : nat) (a : A) : Nat.iter n (λ a, a) a = a.
Proof. induction n as [|n IH]; [done|]. cbn. exact IH. Qed.

(** X26.  [vt_obs.__call__] without a mask and with coordinates handed
    in: for known fields of shape (B, C, H, W), an observer built for
    that grid, known channels below C, and as many x as y coordinates, at
    least one, all inside the grid, the call returns without drawing from
    the generator a tensor of shape (B, number of known channels, H, W);
    every pixel (x, y) of every sample and known channel holds the known
    field of that sample and channel at the first of the handed-in points
    that are nearest to (x, y), and at a pixel that is itself one of the
    points the point read is that pixel.  Distances are compared
    exactly. *)
Theorem call_with_coordinates {G} (next_raw : G → Z * G)
    (xs ys : Z) (kc : option (list nat)) (self : observer)
    (known : tensor4) (x_coords y_coords : list Z)
    (B C H W : nat) (g : G) :
  init (Z.of_nat W) (Z.of_nat H) xs ys kc = Val self →
  has_shape4 B C H W known →
  Forall (λ k, k < C)%nat (default (seq 0 C) kc) →
  length x_coords = length y_coords →
  x_coords ≠ [] →
  Forall (λ x, 0 ≤ x < Z.of_nat W)%Z x_coords →
  Forall (λ y, 0 ≤ y < Z.of_nat H)%Z y_coords →
  ∃ out,
    __call__ next_raw self known None (Some (x_coords, y_coords)) g
      = (Val out, g) ∧
    has_shape4 B (length (default (seq 0 C) kc)) H W out ∧
    ∀ b idx k y x,
      (b < B)%nat → default (seq 0 C) kc !! idx = Some k →
      (y < H)%nat → (x < W)%nat →
      ∃ m q v,
        zip x_coords y_coords !! m = Some q ∧
        (∀ q', q' ∈ zip x_coords y_coords →
           (dist2 (Z.of_nat x, Z.of_nat y) q
            ≤ dist2 (Z.of_nat x, Z.of_nat y) q')%Z) ∧
        (∀ j q', (j < m)%nat → zip x_coords y_coords !! j = Some q' →
           (dist2 (Z.of_nat x, Z.of_nat y) q
            < dist2 (Z.of_nat x, Z.of_nat y) q')%Z) ∧
        ((Z.of_nat x, Z.of_nat y) ∈ zip x_coords y_coords →
         q = (Z.of_nat x, Z.of_nat y)) ∧
        at4 out b idx y x = Some v ∧
        at4 known b k (Z.to_nat q.2) (Z.to_nat q.1) = Some v.
Proof.
  intros Hinit Hknown Hkc Hlen Hne Hxr Hyr.
  destruct (call_points_returns next_raw xs ys kc self known
              (Some (x_coords, y_coords)) B C H W (λ g, g)
              (λ gp, gp = zip x_coords y_coords) g Hinit Hknown Hkc)
    as (out & pts & Hcall & Hshape & Hpts & Hnear).
  { intros g'. eexists. split; [by apply get_grid_points_given | done]. }
  { intros gp ->. split.
    - destruct x_coords, y_coords; done.
    - apply Forall_forall. intros [x y] Hin.
      apply elem_of_zip_l in Hin as Hx. apply elem_of_zip_r in Hin as Hy.
      rewrite Forall_forall in Hxr, Hyr. cbn. split; auto. }
  rewrite iter_id in Hcall.
  exists out. split; [done|]. split; [done|].
  intros b idx k y x Hb Hk Hy Hx.
  destruct (lookup_lt_is_Some_2 pts b) as [gp Hgp]; [lia|].
  destruct (Hnear b gp Hgp) as [-> Hpix]. by apply Hpix.
Qed.

Lemma call_with_coordinates_witness :
  ∃ self out,
    init (Z.of_nat 3) (Z.of_nat 2) 1 1 None = Val self ∧
    __call__ lcg self
      (of_ints [[ [[1; 2; 3]; [4; 5; 6]]; [[10; 20; 30]; [40; 50; 60]] ]]%Z)
      None (Some ([0; 2]%Z, [0; 1]%Z)) 1%Z = (Val out, 1%Z) ∧
    has_shape4 1 (length (default (seq 0 2) None)) 2 3 out ∧
    ∀ b idx k y x,
      (b < 1)%nat → default (seq 0 2) None !! idx = Some k →
      (y < 2)%nat → (x < 3)%nat →
      ∃ m q v,
        zip [0; 2]%Z [0; 1]%Z !! m = Some q ∧
        (∀ q', q' ∈ zip [0; 2]%Z [0; 1]%Z →
           (dist2 (Z.of_nat x, Z.of_nat y) q
            ≤ dist2 (Z.of_nat x, Z.of_nat y) q')%Z) ∧
        (∀ j q', (j < m)%nat → zip [0; 2]%Z [0; 1]%Z !! j = Some q' →
           (dist2 (Z.of_nat x, Z.of_nat y) q
            < dist2 (Z.of_nat x, Z.of_nat y) q')%Z) ∧
        ((Z.of_nat x, Z.of_nat y) ∈ zip [0; 2]%Z [0; 1]%Z →
         q = (Z.of_nat x, Z.of_nat y)) ∧
        at4 out b idx y x = Some v ∧
        at4 (of_ints [[ [[1; 2; 3]; [4; 5; 6]]; [[10; 20; 30]; [40; 50; 60]] ]]%Z)
          b k (Z.to_nat q.2) (Z.to_nat q.1) = Some v.
Proof.
  eexists. 
  destruct (call_with_coordinates lcg 1 1 None _
              (of_ints [[ [[1; 2; 3]; [4; 5; 6]]; [[10; 20; 30]; [40; 50; 60]] ]]%Z)
              [0; 2]%Z [0; 1]%Z 1 2 2 3 1%Z eq_refl)
    as (out & H1 & H2 & H3).
  - repeat constructor.
  - cbn. repeat constructor.
  - done.
  - done.
  - repeat constructor; lia.
  - repeat constructor; lia.
  - exists out. split; [reflexivity|]. split; [exact H1|]. split; [exact H2|exact H3].
Defined.


(** *** Points drawn by [structure_obs] *)

Lemma zip_replicate_l (i : Z) (js : list Z) :
  zip (replicate (length js) i) js = (λ j, (i, j)) <$> js.
Proof. induction js as [|j js IH]; [done|]. cbn. by f_equal. Qed.

Lemma zip_cells (ks js : list Z) :
  zip (mjoin ((λ i, replicate (length js) i) <$> ks))
      (mjoin (replicate (length ks) js)) =
    mjoin ((λ i, (λ j, (i, j)) <$> js) <$> ks).
Proof.
  induction ks as [|k ks IH]; [done|].
  cbn [length replicate]. rewrite !fmap_cons, !mjoin_cons.
  rewrite zip_with_app; [|by rewrite length_replicate].
  rewrite IH. f_equal. apply zip_replicate_l.
Qed.

Lemma zip_fmap_div (sx sy : Z) (xc yc : list Z) :
  (λ p : Z * Z, (p.1 `div` sx, p.2 `div` sy)%Z) <$> zip xc yc =
    zip ((λ x, x `div` sx)%Z <$> xc) ((λ y, y `div` sy)%Z <$> yc).
Proof.
  revert yc. induction xc as [|x xc IH]; intros [|y yc]; try done.
  cbn. f_equal. apply IH.
Qed.

Lemma elem_of_cells (NX NY i j : Z) :
  (i, j) ∈ mjoin ((λ i, (λ j, (i, j)) <$> seqZ 0 NY) <$> seqZ 0 NX) ↔
  (0 ≤ i < NX)%Z ∧ (0 ≤ j < NY)%Z.
Proof.
  rewrite list_elem_of_join. split.
  - intros (l & Hij & Hl). apply list_elem_of_fmap in Hl as (i' & -> & Hi').
    apply list_elem_of_fmap in Hij as (j' & [= -> ->] & Hj').
    apply elem_of_seqZ in Hi', Hj'. lia.
  - intros [Hi Hj]. exists ((λ j, (i, j)) <$> seqZ 0 NY). split.
    + apply list_elem_of_fmap. exists j. split; [done|]. apply elem_of_seqZ. lia.
    + apply list_elem_of_fmap. exists i. split; [done|]. apply elem_of_seqZ. lia.
Qed.

Lemma cell_range (a s d : Z) :
  (1 ≤ s)%Z → (0 ≤ a `div` s < d `div` s)%Z → (0 ≤ a < d)%Z.
Proof.
  intros Hs [Hlo Hhi].
  pose proof (Z.div_mod a s ltac:(lia)) as Ha.
  pose proof (Z.mod_pos_bound a s ltac:(lia)) as Hm.
  pose proof (Z.mul_div_le d s ltac:(lia)) as Hd.
  nia.
Qed.

Section DefaultPoints.
Context {G : Type}.
Variable next_raw : G → Z * G.

(** [_get_grid_points] without coordinates: one point in every cell, the
    cells taken row by row. *)
Lemma get_grid_points_default (xd yd xs ys : Z) (kc : option (list nat))
    (self : observer) (g : G) :
  init xd yd xs ys kc = Val self →
  let nx := Z.to_nat (xd `div` xs) in
  let ny := Z.to_nat (yd `div` ys) in
  ∃ gp,
    _get_grid_points next_raw self None g =
      (Val gp, (draws G next_raw (nx * ny + nx * ny) g).2) ∧
    (λ p : Z * Z, (p.1 `div` xs, p.2 `div` ys)%Z) <$> gp =
      mjoin ((λ i, (λ j, (i, j)) <$> seqZ 0 (yd `div` ys)) <$> seqZ 0 (xd `div` xs)).
Proof.
  intros Hinit nx ny.
  destruct (init_spacing _ _ _ _ _ _ Hinit) as [Hx Hy].
  destruct (init_inv _ _ _ _ _ _ Hinit) as (_ & _ & Ho & _).
  destruct (structure_obs_cells G next_raw xd yd xs ys g Hx Hy)
    as (o & xc & yc & Ho' & Hrun & Hxc & Hyc).
  assert (o = obs self) as -> by congruence.
  assert (Hlx : length xc = (nx * ny)%nat).
  { rewrite <- (length_fmap (λ x, x `div` xs)%Z), Hxc, length_cells_x.
    by rewrite length_seqZ. }
  assert (Hly : length yc = (nx * ny)%nat).
  { rewrite <- (length_fmap (λ y, y `div` ys)%Z), Hyc, length_cells_y.
    by rewrite length_seqZ. }
  exists (zip xc yc). split.
  - unfold _get_grid_points, bind, lift. fold nx ny in Hrun. rewrite Hrun.
    cbn [fst snd]. unfold column_stack. rewrite decide_True by congruence. done.
  - rewrite zip_fmap_div, Hxc, Hyc.
    rewrite <- (zip_cells (seqZ 0 (xd `div` xs)) (seqZ 0 (yd `div` ys))).
    by rewrite !length_seqZ.
Qed.

End DefaultPoints.

(** X27.  [vt_obs.__call__] without a mask and without coordinates, on
    an observer built for the grid of the known fields with spacings
    [x_spacing ≤ W] and [y_spacing ≤ H]: the call returns a tensor of
    shape (B, number of known channels, H, W) after
    [B * 2 * nx * ny] raw draws of the generator, [nx = W // x_spacing]
    and [ny = H // y_spacing]: every sample gets points of its own, one
    in each cell of [x_spacing] by [y_spacing] pixels, which all its
    known channels share; every pixel holds the known field of its sample
    and channel at the first of the sample's points nearest to the
    pixel. *)
Theorem call_draws_points_per_sample {G} (next_raw : G → Z * G)
    (xs ys : Z) (kc : option (list nat)) (self : observer)
    (known : tensor4) (B C H W : nat) (g : G) :
  init (Z.of_nat W) (Z.of_nat H) xs ys kc = Val self →
  (xs ≤ Z.of_nat W)%Z → (ys ≤ Z.of_nat H)%Z →
  has_shape4 B C H W known →
  Forall (λ k, k < C)%nat (default (seq 0 C) kc) →
  let nx := Z.to_nat (Z.of_nat W `div` xs) in
  let ny := Z.to_nat (Z.of_nat H `div` ys) in
  ∃ out pts,
    __call__ next_raw self known None None g
      = (Val out, (draws G next_raw (B * (nx * ny + nx * ny)) g).2) ∧
    has_shape4 B (length (default (seq 0 C) kc)) H W out ∧
    length pts = B ∧
    ∀ b gp, pts !! b = Some gp →
      (λ p : Z * Z, (p.1 `div` xs, p.2 `div` ys)%Z) <$> gp =
        mjoin ((λ i, (λ j, (i, j)) <$> seqZ 0 (Z.of_nat H `div` ys))
                 <$> seqZ 0 (Z.of_nat W `div` xs)) ∧
      ∀ idx k y x,
        default (seq 0 C) kc !! idx = Some k → (y < H)%nat → (x < W)%nat →
        ∃ m q v,
          gp !! m = Some q ∧
          (∀ q', q' ∈ gp →
             (dist2 (Z.of_nat x, Z.of_nat y) q
              ≤ dist2 (Z.of_nat x, Z.of_nat y) q')%Z) ∧
          (∀ j q', (j < m)%nat → gp !! j = Some q' →
             (dist2 (Z.of_nat x, Z.of_nat y) q
              < dist2 (Z.of_nat x, Z.of_nat y) q')%Z) ∧
          ((Z.of_nat x, Z.of_nat y) ∈ gp → q = (Z.of_nat x, Z.of_nat y)) ∧
          at4 out b idx y x = Some v ∧
          at4 known b k (Z.to_nat q.2) (Z.to_nat q.1) = Some v.
Proof.
  intros Hinit Hxs Hys Hknown Hkc nx ny.
  destruct (init_spacing _ _ _ _ _ _ Hinit) as [Hx Hy].
  destruct (call_points_returns next_raw xs ys kc self known None B C H W
              (λ g, (draws G next_raw (nx * ny + nx * ny) g).2)
              (λ gp, (λ p : Z * Z, (p.1 `div` xs, p.2 `div` ys)%Z) <$> gp =
                 mjoin ((λ i, (λ j, (i, j)) <$> seqZ 0 (Z.of_nat H `div` ys))
                          <$> seqZ 0 (Z.of_nat W `div` xs)))
              g Hinit Hknown Hkc)
    as (out & pts & Hcall & Hshape & Hpts & Hnear).
  { intros g'. by apply (get_grid_points_default next_raw _ _ _ _ kc). }
  { intros gp Hgp. split.
    - intros ->.
      assert (Hin : (0, 0)%Z ∈ mjoin ((λ i, (λ j, (i, j)) <$> seqZ 0 (Z.of_nat H `div` ys))
                          <$> seqZ 0 (Z.of_nat W `div` xs))).
      { apply elem_of_cells.
        pose proof (Z.div_le_lower_bound (Z.of_nat W) xs 1 ltac:(lia) ltac:(lia)).
        pose proof (Z.div_le_lower_bound (Z.of_nat H) ys 1 ltac:(lia) ltac:(lia)).
        lia. }
      rewrite <- Hgp in Hin. by apply elem_of_nil in Hin.
    - apply Forall_forall. intros [x y] Hin.
      assert (Hc : (x `div` xs, y `div` ys)%Z ∈
                mjoin ((λ i, (λ j, (i, j)) <$> seqZ 0 (Z.of_nat H `div` ys))
                          <$> seqZ 0 (Z.of_nat W `div` xs))).
      { rewrite <- Hgp. apply list_elem_of_fmap. by exists (x, y). }
      apply elem_of_cells in Hc as [Hcx Hcy]. cbn [fst snd].
      split; [apply (cell_range x xs (Z.of_nat W))
             | apply (cell_range y ys (Z.of_nat H))]; (done || lia). }
  rewrite iter_draws in Hcall.
  exists out, pts. done.
Qed.

Lemma call_draws_points_per_sample_witness :
  ∃ self out pts,
    init (Z.of_nat 4) (Z.of_nat 2) 2 2 None = Val self ∧
    __call__ lcg self
      (of_ints [[ [[1; 2; 3; 4]; [5; 6; 7; 8]] ]; [ [[10; 20; 30; 40]; [50; 60; 70; 80]] ]]%Z)
      None None 1%Z
      = (Val out, (draws Z lcg (2 * (2 * 1 + 2 * 1)) 1%Z).2) ∧
    has_shape4 2 (length (default (seq 0 1) None)) 2 4 out ∧
    length pts = 2%nat ∧
    ∀ b gp, pts !! b = Some gp →
      (λ p : Z * Z, (p.1 `div` 2, p.2 `div` 2)%Z) <$> gp = [(0, 0); (1, 0)]%Z ∧
      ∀ idx k y x,
        default (seq 0 1) None !! idx = Some k → (y < 2)%nat → (x < 4)%nat →
        ∃ m q v,
          gp !! m = Some q ∧
          (∀ q', q' ∈ gp →
             (dist2 (Z.of_nat x, Z.of_nat y) q
              ≤ dist2 (Z.of_nat x, Z.of_nat y) q')%Z) ∧
          (∀ j q', (j < m)%nat → gp !! j = Some q' →
             (dist2 (Z.of_nat x, Z.of_nat y) q
              < dist2 (Z.of_nat x, Z.of_nat y) q')%Z) ∧
          ((Z.of_nat x, Z.of_nat y) ∈ gp → q = (Z.of_nat x, Z.of_nat y)) ∧
          at4 out b idx y x = Some v ∧
          at4 (of_ints [[ [[1; 2; 3; 4]; [5; 6; 7; 8]] ];
                        [ [[10; 20; 30; 40]; [50; 60; 70; 80]] ]]%Z)
            b k (Z.to_nat q.2) (Z.to_nat q.1) = Some v.
Proof.
  eexists.
  destruct (call_draws_points_per_sample lcg 2 2 None _
              (of_ints [[ [[1; 2; 3; 4]; [5; 6; 7; 8]] ];
                        [ [[10; 20; 30; 40]; [50; 60; 70; 80]] ]]%Z)
              2 1 2 4 1%Z eq_refl)
    as (out & pts & H1 & H2 & H3 & H4).
  - lia.
  - lia.
  - repeat constructor.
  - cbn. repeat constructor.
  - exists out, pts. split; [reflexivity|]. split; [exact H1|].
    split; [exact H2|]. split; [exact H3|exact H4].
Defined.

Example call_default_points_run :
  ∀ self, init 4 2 2 2 None = Val self →
    (__call__ lcg self
       (of_ints [[ [[1; 2; 3; 4]; [5; 6; 7; 8]] ]; [ [[10; 20; 30; 40]; [50; 60; 70; 80]] ]]%Z)
       None None 1%Z).1
    = Val (of_ints [[ [[5; 5; 7; 7]; [5; 5; 7; 7]] ];
                    [ [[20; 20; 20; 80]; [20; 20; 80; 80]] ]]%Z).
Proof. intros self [= <-]. vm_compute. reflexivity. Qed.


(** *** Calls without a mask that raise *)

Lemma index_outcome {A} (l : list A) (i : Z) :
  match index l i with
  | Val _ => (- Z.of_nat (length l) ≤ i < Z.of_nat (length l))%Z
  | Exc e => e = IndexError ∧
             ¬ (- Z.of_nat (length l) ≤ i < Z.of_nat (length l))%Z
  end.
Proof.
  unfold index. cbv zeta.
  destruct (decide (i < 0)%Z).
  - destruct (decide _) as [Hr|Hr]; [|split; [done|lia]].
    destruct (l !! _) eqn:E; [lia|].
    apply lookup_ge_None in E. lia.
  - destruct (decide _) as [Hr|Hr]; [|split; [done|lia]].
    destruct (l !! _) eqn:E; [lia|].
    apply lookup_ge_None in E. lia.
Qed.

Lemma gather_raises (H W : nat) (plane : tensor2) (gp : list (Z * Z)) :
  length plane = H → Forall (λ r, length r = W) plane →
  Exists (λ p, ¬ ((- Z.of_nat W ≤ p.1 < Z.of_nat W)%Z ∧
                  (- Z.of_nat H ≤ p.2 < Z.of_nat H)%Z)) gp →
  gather plane gp = Exc IndexError.
Proof.
  intros Hh Hw. induction 1 as [[x y] gp Hbad|[x y] gp _ IH]; cbn [gather].
  - pose proof (index_outcome plane y) as Hy.
    destruct (index plane y) as [row|e] eqn:Ey; [|by destruct Hy as [-> _]].
    assert (Hrow : length row = W).
    { rewrite Forall_forall in Hw. apply Hw.
      unfold index in Ey. cbv zeta in Ey.
      destruct (decide _) in Ey; [|done].
      destruct (plane !! _) eqn:E in Ey; [|done].
      injection Ey as <-. by eapply list_elem_of_lookup_2. }
    pose proof (index_outcome row x) as Hx.
    destruct (index row x) as [v|e]; [|by destruct Hx as [-> _]].
    cbn [fst snd] in Hbad. lia.
  - pose proof (index_outcome plane y) as Hy.
    destruct (index plane y) as [row|e]; [|by destruct Hy as [-> _]].
    pose proof (index_outcome row x) as Hx.
    destruct (index row x) as [v|e]; [|by destruct Hx as [-> _]].
    by rewrite IH.
Qed.

Lemma channel_body_without_points (self : observer) (b k : nat) (t3 : tensor3) :
  channel_body self b t3 None [] k = Exc IndexError.
Proof.
  unfold channel_body, select_one. destruct (t3 !! k); reflexivity.
Qed.

Lemma channel_body_outside (self : observer) (H W : nat) (b k : nat)
    (t3 : tensor3) (gp : list (Z * Z)) :
  Forall (λ t2 : tensor2, length t2 = H ∧ Forall (λ t1 : tensor1, length t1 = W) t2) t3 →
  Exists (λ p, ¬ ((- Z.of_nat W ≤ p.1 < Z.of_nat W)%Z ∧
                  (- Z.of_nat H ≤ p.2 < Z.of_nat H)%Z)) gp →
  channel_body self b t3 None gp k = Exc IndexError.
Proof.
  intros Ht3 Hbad. unfold channel_body, select_one.
  destruct (t3 !! k) as [plane|] eqn:Ek; [|done].
  rewrite Forall_forall in Ht3.
  destruct (Ht3 plane) as [Hh Hw]; [by eapply list_elem_of_lookup_2|].
  by rewrite (gather_raises H W plane gp Hh Hw Hbad).
Qed.

Section PointExceptions.
Context {G : Type}.
Variable next_raw : G → Z * G.

Lemma batch_loop_points_raise (self : observer) (b : nat) (t3 : tensor3)
    (rest : tensor4) (coords : option (list Z * list Z)) (channels : list nat)
    (e : exn) (g g' : G) :
  _get_grid_points next_raw self coords g = (Exc e, g') →
  batch_loop next_raw self b (t3 :: rest) None coords channels g = (Exc e, g').
Proof. intros Hgp. cbn [batch_loop]. unfold bind. by rewrite Hgp. Qed.

Lemma batch_loop_first_channel_raises (self : observer) (b : nat) (t3 : tensor3)
    (rest : tensor4) (coords : option (list Z * list Z)) (k : nat)
    (channels : list nat) (gp : list (Z * Z)) (e : exn) (g g' : G) :
  _get_grid_points next_raw self coords g = (Val gp, g') →
  channel_body self b t3 None gp k = Exc e →
  batch_loop next_raw self b (t3 :: rest) None coords (k :: channels) g
    = (Exc e, g').
Proof.
  intros Hgp Hbody. cbn [batch_loop channel_loop]. unfold bind, lift.
  by rewrite Hgp, Hbody.
Qed.

End PointExceptions.

Lemma has_shape4_cons (B C H W : nat) (t : tensor4) :
  has_shape4 B C H W t → (1 ≤ B)%nat →
  ∃ t3 rest, t = t3 :: rest ∧
    Forall (λ t2 : tensor2, length t2 = H ∧
                            Forall (λ t1 : tensor1, length t1 = W) t2) t3.
Proof.
  intros [Hlen Hall] HB. destruct t as [|t3 rest]; [cbn in Hlen; lia|].
  exists t3, rest. split; [done|]. by apply Forall_cons in Hall as [[_ ?] _].
Qed.

(** X28.  [vt_obs.__call__] without a mask, on an observer built by
    [__init__], for known fields of shape (B, C, H, W) with at least one
    sample and one known channel.  Coordinates of different lengths end
    the call in the [RuntimeError] of [torch.column_stack]; coordinates
    of equal lengths end it in [IndexError] when there are none
    ([torch.argmin] reduces over no point) or when some point lies
    outside [-W ≤ x < W], [-H ≤ y < H] (the field is indexed out of
    range); in both cases the generator is left as it was.  Without
    coordinates, an observer whose spacing is [x_dim + 1] or [y_dim + 1]
    has no cell, draws nothing, and the call ends in [IndexError]. *)
Theorem call_without_mask_raises {G} (next_raw : G → Z * G)
    (xd yd xs ys : Z) (kc : option (list nat)) (self : observer)
    (known : tensor4) (B C H W : nat) (g : G) :
  init xd yd xs ys kc = Val self →
  has_shape4 B C H W known →
  (1 ≤ B)%nat →
  default (seq 0 C) kc ≠ [] →
  (∀ x_coords y_coords,
     length x_coords ≠ length y_coords →
     ∃ msg, __call__ next_raw self known None (Some (x_coords, y_coords)) g
              = (Exc (RuntimeError msg), g))
  ∧ (∀ x_coords y_coords,
       length x_coords = length y_coords →
       x_coords = [] ∨
       Exists (λ p, ¬ ((- Z.of_nat W ≤ p.1 < Z.of_nat W)%Z ∧
                       (- Z.of_nat H ≤ p.2 < Z.of_nat H)%Z))
         (zip x_coords y_coords) →
       __call__ next_raw self known None (Some (x_coords, y_coords)) g
         = (Exc IndexError, g))
  ∧ (xs = (xd + 1)%Z ∨ ys = (yd + 1)%Z →
     __call__ next_raw self known None None g = (Exc IndexError, g)).
Proof.
  intros Hinit Hknown HB Hch.
  destruct (init_inv _ _ _ _ _ _ Hinit) as (_ & _ & _ & _ & _ & _ & _ & Hkc).
  destruct (has_shape4_cons B C H W known Hknown HB) as (t3 & rest & -> & Ht3).
  assert (Hcall : ∀ coords,
            __call__ next_raw self (t3 :: rest) None coords g =
            batch_loop next_raw self 0 (t3 :: rest) None coords
              (default (seq 0 C) kc) g).
  { intros coords.
    rewrite (call_batch_loop next_raw self _ _ coords B C H W g Hknown), Hkc.
    by destruct kc. }
  destruct (default (seq 0 C) kc) as [|k channels] eqn:Echannels; [done|].
  split; [|split].
  - intros xc yc Hlen. rewrite Hcall. eexists.
    apply batch_loop_points_raise.
    unfold _get_grid_points, lift, column_stack. by rewrite decide_False.
  - intros xc yc Hlen Hbad. rewrite Hcall.
    eapply batch_loop_first_channel_raises;
      [by apply get_grid_points_given|].
    destruct Hbad as [->|Hbad].
    + destruct yc; [|done]. apply channel_body_without_points.
    + by apply (channel_body_outside self H W).
  - intros Hspacing. rewrite Hcall.
    destruct (get_grid_points_default next_raw xd yd xs ys kc self g Hinit)
      as (gp & Hgp & Hcells).
    destruct (init_spacing _ _ _ _ _ _ Hinit) as [Hx Hy].
    assert (Hzero : (xd `div` xs = 0 ∨ yd `div` ys = 0)%Z).
    { destruct Hspacing as [->| ->]; [left|right]; apply Z.div_small; lia. }
    assert (gp = []) as ->.
    { apply (fmap_nil_inv (λ p : Z * Z, (p.1 `div` xs, p.2 `div` ys)%Z)).
      rewrite Hcells. apply join_nil_2, Forall_fmap, Forall_forall.
      intros i Hi%elem_of_seqZ. cbn.
      destruct Hzero as [Hz|Hz]; [lia|]. by rewrite Hz. }
    replace (Z.to_nat (xd `div` xs) * Z.to_nat (yd `div` ys) +
             Z.to_nat (xd `div` xs) * Z.to_nat (yd `div` ys))%nat
      with 0%nat in Hgp by lia.
    eapply batch_loop_first_channel_raises; [exact Hgp|].
    apply channel_body_without_points.
Qed.

Lemma call_without_mask_raises_witness :
  ∃ self,
    init 2 2 3 1 None = Val self ∧
    (∀ x_coords y_coords,
       length x_coords ≠ length y_coords →
       ∃ msg, __call__ lcg self (of_ints [[ [[1; 2]; [3; 4]] ]]%Z) None
                (Some (x_coords, y_coords)) 1%Z
                = (Exc (RuntimeError msg), 1%Z))
    ∧ (∀ x_coords y_coords,
         length x_coords = length y_coords →
         x_coords = [] ∨
         Exists (λ p, ¬ ((- Z.of_nat 2 ≤ p.1 < Z.of_nat 2)%Z ∧
                         (- Z.of_nat 2 ≤ p.2 < Z.of_nat 2)%Z))
           (zip x_coords y_coords) →
         __call__ lcg self (of_ints [[ [[1; 2]; [3; 4]] ]]%Z) None
           (Some (x_coords, y_coords)) 1%Z = (Exc IndexError, 1%Z))
    ∧ (3 = 2 + 1 ∨ 1 = 2 + 1 →
       __call__ lcg self (of_ints [[ [[1; 2]; [3; 4]] ]]%Z) None None 1%Z
         = (Exc IndexError, 1%Z))%Z.
Proof.
  eexists. split; [reflexivity|].
  apply (call_without_mask_raises lcg 2 2 3 1 None _
           (of_ints [[ [[1; 2]; [3; 4]] ]]%Z) 1 1 2 2 1%Z eq_refl).
  - repeat constructor.
  - lia.
  - done.
Defined.

Example call_negative_coordinates_run :
  ∀ self, init 3 2 1 1 None = Val self →
    (__call__ lcg self (of_ints [[ [[1; 2; 3]; [4; 5; 6]] ]]%Z) None
       (Some ([-1]%Z, [-1]%Z)) 1%Z).1
    = Val (of_ints [[ [[6; 6; 6]; [6; 6; 6]] ]]%Z).
Proof. intros self [= <-]. vm_compute. reflexivity. Qed.

End VtObsInterpFacts.

(** ** The layout of [diffuserUNet2D] *)

Module UNetFacts.
Import Py VtObsInterp UNet VtObsInterpFacts.

Lemma index_head {A} (l : list A) :
  index l 0 = match head l with None => Exc IndexError | Some c => Val c end.
Proof. destruct l as [|c l]; [done|]. by apply (index_nonneg (c :: l) 0 c). Qed.

Lemma index_last {A} (l : list A) :
  index l (-1) = match last l with None => Exc IndexError | Some c => Val c end.
Proof.
  rewrite last_lookup. unfold index. cbv zeta.
  destruct (decide (-1 < 0)%Z); [|lia].
  destruct l as [|c l]; [done|]. rewrite decide_True by (cbn [length]; lia).
  replace (Z.to_nat (Z.of_nat (length (c :: l)) + -1)) with (pred (length (c :: l)))
    by (cbn [length]; lia).
  destruct ((c :: l) !! pred (length (c :: l))) eqn:E; [done|].
  apply lookup_ge_None in E. cbn [length] in E. lia.
Qed.

Lemma not_final_block (i n : nat) :
  negb (bool_decide (Z.of_nat i = Z.of_nat n - 1)%Z) = bool_decide (S i ≠ n).
Proof. rewrite <- bool_decide_not. apply bool_decide_ext. lia. Qed.

Section Loops.
Variable cfg : config.
Variable time_embed_dim : option Z.

Lemma down_loop_returns (types : list string) (i : nat) (oc : Z) :
  (i + length types ≤ length (block_out_channels cfg))%nat →
  ∃ bs, down_loop cfg time_embed_dim i types oc = Val bs ∧
        length bs = length types ∧
        ∀ j d, bs !! j = Some d →
          types !! j = Some (down_block_type d) ∧
          block_out_channels cfg !! (i + j)%nat = Some (d_out_channels d) ∧
          match j with
          | O => d_in_channels d = oc
          | S j' => block_out_channels cfg !! (i + j')%nat = Some (d_in_channels d)
          end ∧
          add_downsample d =
            bool_decide (S (i + j) ≠ length (block_out_channels cfg)) ∧
          d_num_layers d = layers_per_block cfg ∧
          d_temb_channels d = time_embed_dim ∧
          d_attention_head_dim d =
            default (d_out_channels d) (attention_head_dim cfg).
Proof.
  revert i oc. induction types as [|ty types IH]; intros i oc Hlen.
  - exists []. split; [done|]. split; [done|]. by intros j d.
  - cbn [length] in Hlen.
    destruct (lookup_lt_is_Some_2 (block_out_channels cfg) i) as [c Hc]; [lia|].
    destruct (IH (S i) c) as (bs & Hbs & Hl & Hspec); [lia|].
    cbn [down_loop]. rewrite (index_nonneg _ _ _ Hc), Hbs.
    eexists. split; [done|]. split; [cbn; lia|].
    intros [|j] d; cbn [lookup list_lookup].
    + intros [= <-]. cbn. rewrite Nat.add_0_r. split; [done|]. split; [done|].
      split; [done|]. split; [|done].
      apply not_final_block.
    + intros Hd. destruct (Hspec j d Hd) as (Hty & Hout & Hin & Hds & Hrest).
      split; [done|]. replace (i + S j)%nat with (S i + j)%nat by lia.
      split; [done|]. split; [|done].
      destruct j as [|j']; [by rewrite Nat.add_0_r, Hin|].
      by replace (i + S j')%nat with (S i + j')%nat by lia.
Qed.

Lemma up_loop_returns (rev : list Z) (types : list string) (i : nat) (oc : Z) :
  length rev = length (block_out_channels cfg) →
  (i + length types ≤ length (block_out_channels cfg))%nat →
  ∃ bs, up_loop cfg time_embed_dim rev i types oc = Val bs ∧
        length bs = length types ∧
        ∀ j u, bs !! j = Some u →
          types !! j = Some (up_block_type u) ∧
          rev !! (i + j)%nat = Some (u_out_channels u) ∧
          rev !! (S (i + j) `min` (length (block_out_channels cfg) - 1))%nat
            = Some (u_in_channels u) ∧
          match j with
          | O => prev_output_channel u = oc
          | S j' => rev !! (i + j')%nat = Some (prev_output_channel u)
          end ∧
          add_upsample u =
            bool_decide (S (i + j) ≠ length (block_out_channels cfg)) ∧
          u_num_layers u = (layers_per_block cfg + 1)%Z ∧
          u_temb_channels u = time_embed_dim ∧
          u_attention_head_dim u =
            default (u_out_channels u) (attention_head_dim cfg).
Proof.
  intros Hrev. revert i oc. induction types as [|ty types IH]; intros i oc Hlen.
  - exists []. split; [done|]. split; [done|]. by intros j u.
  - cbn [length] in Hlen.
    destruct (lookup_lt_is_Some_2 rev i) as [c Hc]; [lia|].
    destruct (lookup_lt_is_Some_2 rev
                (S i `min` (length (block_out_channels cfg) - 1))%nat)
      as [c' Hc']; [lia|].
    destruct (IH (S i) c) as (bs & Hbs & Hl & Hspec); [lia|].
    cbn [up_loop]. rewrite (index_nonneg _ _ _ Hc).
    replace (Z.min (Z.of_nat i + 1) (Z.of_nat (length (block_out_channels cfg)) - 1))
      with (Z.of_nat (S i `min` (length (block_out_channels cfg) - 1))%nat) by lia.
    rewrite (index_nonneg _ _ _ Hc'), Hbs.
    eexists. split; [done|]. split; [cbn; lia|].
    intros [|j] u; cbn [lookup list_lookup].
    + intros [= <-]. cbn. rewrite Nat.add_0_r. split; [done|]. split; [done|].
      split; [done|]. split; [done|]. split; [|done].
      apply not_final_block.
    + intros Hu.
      destruct (Hspec j u Hu) as (Hty & Hout & Hin & Hprev & Hus & Hrest).
      split; [done|]. replace (i + S j)%nat with (S i + j)%nat by lia.
      split; [done|]. split; [done|]. split; [|done].
      destruct j as [|j']; [by rewrite Nat.add_0_r, Hprev|].
      by replace (i + S j')%nat with (S i + j')%nat by lia.
Qed.

End Loops.

Lemma build_returns (cfg : config) (time_embed_dim : option Z) :
  block_out_channels cfg ≠ [] →
  length (down_block_types cfg) = length (block_out_channels cfg) →
  length (up_block_types cfg) = length (block_out_channels cfg) →
  ∃ c0 c_last downs ups,
    head (block_out_channels cfg) = Some c0 ∧
    last (block_out_channels cfg) = Some c_last ∧
    down_loop cfg time_embed_dim 0 (down_block_types cfg) c0 = Val downs ∧
    up_loop cfg time_embed_dim (reverse (block_out_channels cfg)) 0
      (up_block_types cfg) c_last = Val ups ∧
    ∃ m, build cfg time_embed_dim = Val m ∧
         conv_in m = (in_channels cfg, c0) ∧
         down_blocks m = downs ∧
         m_in_channels (mid m) = c_last ∧
         up_blocks m = ups ∧
         (conv_norm_out m).2 = c0 ∧
         conv_out m = (c0, out_channels cfg).
Proof.
  intros Hne Hdown Hup. unfold build.
  rewrite !index_head, index_last, head_reverse.
  destruct (head (block_out_channels cfg)) as [c0|] eqn:Ehead;
    [|by apply head_None in Ehead].
  destruct (last (block_out_channels cfg)) as [c_last|] eqn:Elast;
    [|by apply last_None in Elast].
  destruct (down_loop_returns cfg time_embed_dim (down_block_types cfg) 0 c0)
    as (downs & Hdowns & _); [lia|].
  destruct (up_loop_returns cfg time_embed_dim (reverse (block_out_channels cfg))
              (up_block_types cfg) 0 c_last)
    as (ups & Hups & _); [by rewrite length_reverse | lia |].
  rewrite Hdowns, Hups.
  exists c0, c_last, downs, ups. split; [done|].
  split; [done|]. split; [done|]. split; [done|].
  eexists. split; [done|]. done.
Qed.

Lemma build_raises (cfg : config) (time_embed_dim : option Z) :
  block_out_channels cfg = [] → build cfg time_embed_dim = Exc IndexError.
Proof. intros Hboc. unfold build. by rewrite Hboc. Qed.

(** X29.  The checks of [diffuserUNet2D.__init__], in the order of the
    code.  [block_out_channels[0]] is read for [time_embed_dim] before
    the lengths are compared, but only when [num_class_embeds] is given:
    so [__init__] raises [IndexError] exactly when [block_out_channels]
    is empty and either [num_class_embeds] is given or both lists of
    block types are empty too (then the lengths agree and [conv_in]
    reads [block_out_channels[0]]); it raises [ValueError] exactly when
    it does not raise [IndexError] for the first reason and the lengths
    of [down_block_types], [up_block_types] and [block_out_channels] are
    not all equal; and it gets to build every block exactly when
    [block_out_channels] is not empty and the three lengths agree. *)
Theorem init_checks (cfg : config) :
  (__init__ cfg = Exc IndexError ↔
   block_out_channels cfg = [] ∧
   (is_Some (num_class_embeds cfg) ∨
    (down_block_types cfg = [] ∧ up_block_types cfg = []))) ∧
  (__init__ cfg = Exc ValueError ↔
   ¬ (block_out_channels cfg = [] ∧ is_Some (num_class_embeds cfg)) ∧
   (length (down_block_types cfg) ≠ length (up_block_types cfg) ∨
    length (block_out_channels cfg) ≠ length (down_block_types cfg))) ∧
  ((∃ m, __init__ cfg = Val m) ↔
   block_out_channels cfg ≠ [] ∧
   length (down_block_types cfg) = length (block_out_channels cfg) ∧
   length (up_block_types cfg) = length (block_out_channels cfg)).
Proof.
  unfold __init__. rewrite index_head.
  destruct (decide (block_out_channels cfg = [])) as [Hboc|Hboc].
  - rewrite Hboc. cbn [head]. destruct (num_class_embeds cfg) as [n|].
    + split; [|split].
      * split; [intros _; split; [done|left; by eexists] | done].
      * split; [done | intros [[] _]; split; [done | by eexists]].
      * split; [by intros [? ?] | by intros [? _]].
    + destruct (decide (length (down_block_types cfg) ≠ length (up_block_types cfg)))
        as [Hdu|Hdu].
      { split; [|split].
        - split; [done|]. intros [_ [[? [=]]|[Hd Hu]]]. by rewrite Hd, Hu in Hdu.
        - split; [intros _; split; [by intros [_ [? [=]]] | by left] | done].
        - split; [by intros [? ?] | by intros [? _]]. }
      cbn [length].
      destruct (decide (0%nat ≠ length (down_block_types cfg))) as [Hbd|Hbd].
      { split; [|split].
        - split; [done|]. intros [_ [[? [=]]|[Hd Hu]]]. by rewrite Hd in Hbd.
        - split; [intros _; split; [by intros [_ [? [=]]] | by right] | done].
        - split; [by intros [? ?] | by intros [? _]]. }
      rewrite build_raises by done.
      split; [|split].
      * split; [|done]. intros _. split; [done|]. right.
        split; apply nil_length_inv; lia.
      * split; [done|]. intros [_ [?|?]]; [done | lia].
      * split; [by intros [? ?] | by intros [? _]].
  - assert (Hted : ∃ ted,
              match num_class_embeds cfg with
              | Some _ =>
                  match
                    match head (block_out_channels cfg) with
                    | None => Exc IndexError
                    | Some c => Val c
                    end
                  with
                  | Val c0 => Val (Some (c0 * 4)%Z)
                  | Exc e => Exc e
                  end
              | None => Val None
              end = Val ted).
    { destruct (num_class_embeds cfg); [|by eexists].
      destruct (block_out_channels cfg); [done | by eexists]. }
    destruct Hted as [ted ->].
    destruct (decide (length (down_block_types cfg) ≠ length (up_block_types cfg)))
      as [Hdu|Hdu].
    { split; [|split].
      - split; [done | by intros [? _]].
      - split; [intros _; split; [by intros [? _] | by left] | done].
      - split; [by intros [? ?] | intros (_ & ? & ?); lia]. }
    destruct (decide (length (block_out_channels cfg) ≠ length (down_block_types cfg)))
      as [Hbd|Hbd].
    { split; [|split].
      - split; [done | by intros [? _]].
      - split; [intros _; split; [by intros [? _] | by right] | done].
      - split; [by intros [? ?] | intros (_ & ? & ?); lia]. }
    destruct (build_returns cfg ted Hboc) as (? & ? & ? & ? & _ & _ & _ & _ & m & -> & _);
      [lia..|].
    split; [|split].
    + split; [done | by intros [? _]].
    + split; [done | intros [_ [?|?]]; done].
    + split; [intros _; split; [done | lia] | intros _; by eexists].
Qed.

Lemma init_build (cfg : config) (m : model) :
  __init__ cfg = Val m →
  block_out_channels cfg ≠ [] ∧
  length (down_block_types cfg) = length (block_out_channels cfg) ∧
  length (up_block_types cfg) = length (block_out_channels cfg) ∧
  ∃ time_embed_dim, build cfg time_embed_dim = Val m.
Proof.
  unfold __init__. intros Hinit.
  destruct (match num_class_embeds cfg with Some _ => _ | None => _ end)
    as [ted|]; [|done].
  destruct (decide (length (down_block_types cfg) ≠ length (up_block_types cfg)));
    [done|].
  destruct (decide (length (block_out_channels cfg) ≠ length (down_block_types cfg)));
    [done|].
  split; [|split; [lia|split; [lia|by exists ted]]].
  intros Hboc. by rewrite build_raises in Hinit.
Qed.

(** X30.  The layout that [diffuserUNet2D.__init__] builds, with
    [n = len(block_out_channels)]: [n] down blocks and [n] up blocks;
    down block [i] puts out [block_out_channels[i]] channels, takes in
    what the block before it puts out (the first what [conv_in] puts
    out), and downsamples unless it is the last; the middle block takes
    in what the last down block puts out; up block [i] has
    [layers_per_block + 1] layers, upsamples unless it is the last, has
    for [prev_output_channel] what the up block before it puts out (the
    first what the middle block takes in), and mirrors down block
    [n - 1 - i]: it puts out what that block puts out and its
    [in_channels] is what that block takes in; and the last up block puts
    out the channels that [conv_norm_out] normalises, that [conv_out]
    takes in and that [conv_in] puts out. *)
Theorem init_layout (cfg : config) (m : model) :
  __init__ cfg = Val m →
  let n := length (block_out_channels cfg) in
  length (down_blocks m) = n ∧ length (up_blocks m) = n ∧
  (conv_in m).1 = in_channels cfg ∧ (conv_out m).2 = out_channels cfg ∧
  (∀ i d, down_blocks m !! i = Some d →
     block_out_channels cfg !! i = Some (d_out_channels d) ∧
     add_downsample d = bool_decide (S i ≠ n) ∧
     match i with
     | O => d_in_channels d = (conv_in m).2
     | S i' => ∃ d', down_blocks m !! i' = Some d' ∧
                     d_in_channels d = d_out_channels d'
     end) ∧
  (∃ d, last (down_blocks m) = Some d ∧
        m_in_channels (mid m) = d_out_channels d) ∧
  (∀ i u, up_blocks m !! i = Some u →
     add_upsample u = bool_decide (S i ≠ n) ∧
     u_num_layers u = (layers_per_block cfg + 1)%Z ∧
     match i with
     | O => prev_output_channel u = m_in_channels (mid m)
     | S i' => ∃ u', up_blocks m !! i' = Some u' ∧
                     prev_output_channel u = u_out_channels u'
     end ∧
     ∃ d, down_blocks m !! (n - 1 - i)%nat = Some d ∧
          u_out_channels u = d_out_channels d ∧
          u_in_channels u = d_in_channels d) ∧
  (∃ u, last (up_blocks m) = Some u ∧
        (conv_norm_out m).2 = u_out_channels u ∧
        (conv_out m).1 = u_out_channels u ∧
        (conv_in m).2 = u_out_channels u).
Proof.
  intros Hinit n.
  destruct (init_build cfg m Hinit) as (Hboc & Hdown & Hup & ted & Hbuild).
  destruct (build_returns cfg ted Hboc Hdown Hup)
    as (c0 & c_last & downs & ups & Hhead & Hlast & Hdowns & Hups & m' & Hm'
        & Hconv_in & Hd & Hmid & Hu & Hnorm & Hconv_out).
  assert (m' = m) as -> by congruence.
  destruct (down_loop_returns cfg ted (down_block_types cfg) 0 c0)
    as (downs' & Hdowns' & Hdl & Hdspec); [lia|].
  assert (downs' = downs) as -> by congruence.
  destruct (up_loop_returns cfg ted (reverse (block_out_channels cfg))
              (up_block_types cfg) 0 c_last)
    as (ups' & Hups' & Hul & Huspec); [by rewrite length_reverse | lia |].
  assert (ups' = ups) as -> by congruence.
  cbn [Nat.add] in Hdspec, Huspec. fold n in Hdspec, Huspec, Hdown, Hup.
  assert (Hn : (1 ≤ n)%nat).
  { unfold n. destruct (block_out_channels cfg); [done | cbn; lia]. }
  assert (Hc0 : block_out_channels cfg !! 0%nat = Some c0).
  { by rewrite <- head_lookup. }
  assert (Hcl : block_out_channels cfg !! (n - 1)%nat = Some c_last).
  { rewrite last_lookup in Hlast. by replace (n - 1)%nat with (pred n) by lia. }
  assert (Hrev : ∀ k, (k < n)%nat →
            reverse (block_out_channels cfg) !! k =
            block_out_channels cfg !! (n - S k)%nat).
  { intros k Hk. by apply reverse_lookup. }
  rewrite Hd, Hu, Hconv_in, Hconv_out, Hmid, Hnorm. cbn [fst snd].
  split; [lia|]. split; [lia|]. split; [done|]. split; [done|].
  assert (Hdown_blocks : ∀ i d, downs !! i = Some d →
     block_out_channels cfg !! i = Some (d_out_channels d) ∧
     add_downsample d = bool_decide (S i ≠ n) ∧
     match i with
     | O => d_in_channels d = c0
     | S i' => ∃ d', downs !! i' = Some d' ∧
                     d_in_channels d = d_out_channels d'
     end).
  { intros i d Hid. destruct (Hdspec i d Hid) as (_ & Hout & Hin & Hds & _).
    split; [done|]. split; [done|]. destruct i as [|i']; [done|].
    destruct (lookup_lt_is_Some_2 downs i') as [d' Hd'].
    { apply lookup_lt_Some in Hid. lia. }
    exists d'. split; [done|].
    destruct (Hdspec i' d' Hd') as (_ & Hout' & _). congruence. }
  split; [exact Hdown_blocks|]. split.
  { destruct (lookup_lt_is_Some_2 downs (n - 1)) as [d Hdl']; [lia|].
    exists d. split.
    - rewrite last_lookup. by replace (pred (length downs)) with (n - 1)%nat by lia.
    - destruct (Hdspec _ d Hdl') as (_ & Hout & _). congruence. }
  split.
  { intros i u Hiu.
    assert (Hi : (i < n)%nat) by (apply lookup_lt_Some in Hiu; lia).
    destruct (Huspec i u Hiu) as (_ & Hout & Hin & Hprev & Hus & Hlayers & _).
    split; [done|]. split; [done|]. split.
    - destruct i as [|i']; [done|].
      destruct (lookup_lt_is_Some_2 ups i') as [u' Hu']; [lia|].
      exists u'. split; [done|].
      destruct (Huspec i' u' Hu') as (_ & Hout' & _). congruence.
    - destruct (lookup_lt_is_Some_2 downs (n - 1 - i)) as [d Hdi]; [lia|].
      exists d. split; [done|].
      destruct (Hdown_blocks _ d Hdi) as (Hdout & _ & Hdin).
      rewrite Hrev in Hout by done. rewrite Hrev in Hin by lia.
      replace (n - S i)%nat with (n - 1 - i)%nat in Hout by lia.
      split; [congruence|].
      destruct (decide (S i = n)) as [Hlast'|Hnot].
      + replace (n - 1 - i)%nat with 0%nat in Hdin, Hdi by lia.
        replace (n - S (S i `min` (n - 1)))%nat with 0%nat in Hin by lia.
        congruence.
      + replace (n - 1 - i)%nat with (S (n - 2 - i)) in Hdin, Hdi by lia.
        destruct Hdin as (d' & Hd' & ->).
        destruct (Hdown_blocks _ d' Hd') as (Hd'out & _).
        replace (n - S (S i `min` (n - 1)))%nat with (n - 2 - i)%nat in Hin by lia.
        congruence. }
  destruct (lookup_lt_is_Some_2 ups (n - 1)) as [u Hul']; [lia|].
  exists u. split.
  { rewrite last_lookup. by replace (pred (length ups)) with (n - 1)%nat by lia. }
  destruct (Huspec _ u Hul') as (_ & Hout & _).
  rewrite Hrev in Hout by lia.
  replace (n - S (n - 1))%nat with 0%nat in Hout by lia.
  assert (u_out_channels u = c0) by congruence. done.
Qed.

Lemma init_layout_witness :
  ∃ m,
    __init__ default_config = Val m ∧
    length (down_blocks m) = 4%nat ∧ length (up_blocks m) = 4%nat ∧
    (conv_in m).1 = 3%Z ∧ (conv_out m).2 = 3%Z ∧
    (∀ i d, down_blocks m !! i = Some d →
       [224; 448; 672; 896]%Z !! i = Some (d_out_channels d) ∧
       add_downsample d = bool_decide (S i ≠ 4%nat) ∧
       match i with
       | O => d_in_channels d = (conv_in m).2
       | S i' => ∃ d', down_blocks m !! i' = Some d' ∧
                       d_in_channels d = d_out_channels d'
       end) ∧
    (∃ d, last (down_blocks m) = Some d ∧
          m_in_channels (mid m) = d_out_channels d) ∧
    (∀ i u, up_blocks m !! i = Some u →
       add_upsample u = bool_decide (S i ≠ 4%nat) ∧
       u_num_layers u = (2 + 1)%Z ∧
       match i with
       | O => prev_output_channel u = m_in_channels (mid m)
       | S i' => ∃ u', up_blocks m !! i' = Some u' ∧
                       prev_output_channel u = u_out_channels u'
       end ∧
       ∃ d, down_blocks m !! (4 - 1 - i)%nat = Some d ∧
            u_out_channels u = d_out_channels d ∧
            u_in_channels u = d_in_channels d) ∧
    (∃ u, last (up_blocks m) = Some u ∧
          (conv_norm_out m).2 = u_out_channels u ∧
          (conv_out m).1 = u_out_channels u ∧
          (conv_in m).2 = u_out_channels u).
Proof.
  eexists. split; [reflexivity|].
  apply (init_layout default_config _ eq_refl).
Defined.

Example init_default_run :
  ∀ m, __init__ default_config = Val m →
    ((λ d, (d_in_channels d, d_out_channels d, add_downsample d)) <$> down_blocks m
       = [(224, 224, true); (224, 448, true); (448, 672, true); (672, 896, false)]%Z) ∧
    m_in_channels (mid m) = 896%Z ∧
    ((λ u, (prev_output_channel u, u_in_channels u, u_out_channels u, add_upsample u))
       <$> up_blocks m
       = [(896, 672, 896, true); (896, 448, 672, true); (672, 224, 448, true);
          (448, 224, 224, false)]%Z) ∧
    conv_norm_out m = (32, 224)%Z.
Proof. intros m [= <-]. vm_compute. done. Qed.

End UNetFacts.
